(** * recoil-persist: the persistence effect of [src/index.ts]

    A shallow embedding of the TypeScript module and the properties of its
    specification.

    The module is a closure factory: [recoilPersist(config)(settings)] yields
    a [persistAtom] effect that the Recoil engine attaches to atoms.  The
    effect reads and writes one JSON blob kept under one key of a storage
    backend.

    Modelling decisions, in the order of the file:

    - JavaScript values ([value]) cover what the effect can observe: the
      JSON values, [undefined], an instance of the engine's [DefaultValue]
      class, and a value on which [JSON.stringify] throws ([VBigInt]).  A
      plain object is the list of its own enumerable properties in the
      order JavaScript lists them: the array indices first, ascending, then
      the other names in the order of their creation ([obj_set]).  An
      assignment to the name [__proto__] reaches the setter of
      [Object.prototype] and creates no property ([obj_assign]); an own
      property named [hasOwnProperty] hides the method the effect calls
      ([hasOwnProperty]).
      A number is kept as its decimal literal, not as a double.  The
      literal is the number the code computes with only for an integer that
      a double holds exactly; the properties that depend on the text or the
      value of a number assume it ([JSON.exact_numbers]).  A string is a
      sequence of bytes, read as UTF-8; its indices and its length count
      UTF-16 code units ([utf16]).
    - [JSON.parse] and [JSON.stringify] are platform services.  They are
      modelled by an executable codec ([JSON_parse], [JSON_stringify]) for
      that fragment, with the round trip proved ([JSON_parse_stringify]).
      The printer copies a surrogate that is not part of a pair, where
      [JSON.stringify] writes its escape; both texts parse to the same
      string, and the properties state a written text by what it parses
      to.
    - Serializers and deserializers are total functions of the types the
      interface declares: a serializer returns a string.
    - The module is an ES module, so its code runs in strict mode: creating a
      property on a primitive throws.  An operation the model does not cover
      (a property assignment on an array snapshot) completes with [Outside]
      and leaves the event [OutsideModel]; nothing is stated about such runs.
    - Storage backends implement the [PersistStorage] interface and may
      answer immediately or with a promise.  A promise is modelled by the way
      it settles; a chain of continuations on it runs as one task of the
      microtask queue.
    - The effect runs against a [world]: the contents of the backends, the
      count of key-function invocations, the microtask queue, and a trace of
      every call that crosses the module boundary ([getItem], [setItem],
      [setSelf], [onSet], [console.error]) and of every promise that rejects
      without a handler.

    After the properties of the specification come further properties of
    the code: what an initialisation pushes and when it throws, what a set
    writes on any backend, sets that overlap or follow one another, the
    round trip of a value without a serializer, the invariants of whole
    sessions, and the construction without a storage option. *)

From Stdlib Require Import String Ascii List ZArith NArith Lia Bool.
From Stdlib Require Import DecimalN DecimalFacts.
Import ListNotations.

Set Warnings "-register-all".

Local Open Scope char_scope.
Local Open Scope list_scope.

(** ** JavaScript values *)

(** The exponent part of a number literal: none, or [e], an optional sign
    ([Some true] for [-], [Some false] for [+]) and digits. *)
Inductive exponent :=
| NoExp
| Exp (sign : option bool) (digits : Decimal.uint).

(** Numbers are kept as their decimal literals: an integer as [VNum], a
    literal with a fraction or an exponent as [VReal] with its sign, whole
    part, fraction digits and exponent.  The effect does no arithmetic.
    The literal stands for the number exactly only for an integer that a
    double holds exactly ([exact_numbers] below); the properties that depend
    on the text or the value of a number assume it. *)
Inductive value : Type :=
| VUndefined
| VNull
| VBool (b : bool)
| VNum (z : Z)
| VReal (neg : bool) (whole : N) (frac : Decimal.uint) (e : exponent)
| VStr (s : string)
| VArr (xs : list value)
| VObj (ps : list (string * value))
| VDefault    (* an instance of Recoil's [DefaultValue] class *)
| VBigInt (z : Z).
    (* a BigInt, on which [JSON.stringify] throws; a value that contains
       itself behaves in the same way *)

Definition props := list (string * value).

(** Own properties of a plain object. *)

Fixpoint obj_get (k : string) (ps : props) : option value :=
  match ps with
  | [] => None
  | (k', v) :: r => if String.eqb k k' then Some v else obj_get k r
  end.

Definition obj_has (k : string) (ps : props) : bool :=
  match obj_get k ps with Some _ => true | None => false end.

(** An array index: the canonical decimal text of a number below
    [2^32 - 1]. *)
Definition digit_of (c : ascii) : option N :=
  let n := N_of_ascii c in
  if (48 <=? n)%N && (n <=? 57)%N then Some (n - 48)%N else None.

Fixpoint decimal (acc : N) (s : string) : option N :=
  match s with
  | EmptyString => Some acc
  | String c r =>
      match digit_of c with
      | Some d => decimal (10 * acc + d) r
      | None => None
      end
  end.

Definition array_index (k : string) : option N :=
  match k with
  | EmptyString => None
  | String c r =>
      if Ascii.eqb c "0" && negb (String.eqb r EmptyString) then None
      else match decimal 0 k with
           | Some n => if (n <=? 4294967294)%N then Some n else None
           | None => None
           end
  end.

(** The own properties of an object are listed with the array indices
    first, in ascending order, and the other names after them in the order
    of their creation. *)

Fixpoint obj_replace (k : string) (v : value) (ps : props) : props :=
  match ps with
  | [] => []
  | (k', v') :: r =>
      if String.eqb k k' then (k, v) :: r else (k', v') :: obj_replace k v r
  end.

(** A new property named by the index [n] goes after the indices that are
    not greater. *)
Fixpoint obj_add_index (n : N) (k : string) (v : value) (ps : props) : props :=
  match ps with
  | [] => [(k, v)]
  | (k', v') :: r =>
      match array_index k' with
      | Some m =>
          if (m <=? n)%N then (k', v') :: obj_add_index n k v r
          else (k, v) :: ps
      | None => (k, v) :: ps
      end
  end.

(** [CreateDataProperty]: an existing property keeps its place, a new one
    takes the place of its name. *)
Definition obj_set (k : string) (v : value) (ps : props) : props :=
  if obj_has k ps then obj_replace k v ps
  else match array_index k with
       | Some n => obj_add_index n k v ps
       | None => ps ++ [(k, v)]
       end.

(** [delete o[k]]. *)
Definition obj_delete (k : string) (ps : props) : props :=
  filter (fun p => negb (String.eqb k (fst p))) ps.

(** ** The JSON codec *)

Module JSON.

Definition chars := list ascii.

(** *** Numbers *)

Fixpoint print_uint (d : Decimal.uint) : chars :=
  match d with
  | Decimal.Nil => []
  | Decimal.D0 d => "0" :: print_uint d
  | Decimal.D1 d => "1" :: print_uint d
  | Decimal.D2 d => "2" :: print_uint d
  | Decimal.D3 d => "3" :: print_uint d
  | Decimal.D4 d => "4" :: print_uint d
  | Decimal.D5 d => "5" :: print_uint d
  | Decimal.D6 d => "6" :: print_uint d
  | Decimal.D7 d => "7" :: print_uint d
  | Decimal.D8 d => "8" :: print_uint d
  | Decimal.D9 d => "9" :: print_uint d
  end.

Definition digit (c : ascii) : option (Decimal.uint -> Decimal.uint) :=
  if Ascii.eqb c "0" then Some Decimal.D0
  else if Ascii.eqb c "1" then Some Decimal.D1
  else if Ascii.eqb c "2" then Some Decimal.D2
  else if Ascii.eqb c "3" then Some Decimal.D3
  else if Ascii.eqb c "4" then Some Decimal.D4
  else if Ascii.eqb c "5" then Some Decimal.D5
  else if Ascii.eqb c "6" then Some Decimal.D6
  else if Ascii.eqb c "7" then Some Decimal.D7
  else if Ascii.eqb c "8" then Some Decimal.D8
  else if Ascii.eqb c "9" then Some Decimal.D9
  else None.

Definition is_digit (c : ascii) : bool :=
  match digit c with Some _ => true | None => false end.

(** The longest prefix of digits. *)
Fixpoint read_uint (cs : chars) : Decimal.uint * chars :=
  match cs with
  | [] => (Decimal.Nil, [])
  | c :: r =>
      match digit c with
      | Some D => let (d, r') := read_uint r in (D d, r')
      | None => (Decimal.Nil, cs)
      end
  end.

Definition print_N (n : N) : chars := print_uint (N.to_uint n).

(** A literal needs a digit where it has digits. *)
Definition nonnil (d : Decimal.uint) : Decimal.uint :=
  match d with Decimal.Nil => Decimal.D0 Decimal.Nil | _ => d end.

Definition normal_exp (e : exponent) : exponent :=
  match e with
  | NoExp => NoExp
  | Exp sg d => Exp sg (nonnil d)
  end.

Definition print_frac (f : Decimal.uint) : chars :=
  match f with
  | Decimal.Nil => []
  | _ => "." :: print_uint f
  end.

Definition print_sign (sg : option bool) : chars :=
  match sg with
  | None => []
  | Some false => ["+"]
  | Some true => ["-"]
  end.

Definition print_exp (e : exponent) : chars :=
  match e with
  | NoExp => []
  | Exp sg d => "e" :: print_sign sg ++ print_uint (nonnil d)
  end.

Definition print_real (neg : bool) (w : N) (f : Decimal.uint) (e : exponent) :
  chars :=
  (if neg then ["-"] else []) ++ print_N w ++ print_frac f ++ print_exp e.

Definition print_num (z : Z) : chars :=
  print_real (z <? 0)%Z (Z.abs_N z) Decimal.Nil NoExp.

(** The next character does not continue a number. *)
Definition ends_number (cs : chars) : bool :=
  match cs with
  | [] => true
  | c :: _ =>
      negb (is_digit c || Ascii.eqb c "." || Ascii.eqb c "e" || Ascii.eqb c "E")
  end.

Fixpoint uint_eqb (a b : Decimal.uint) : bool :=
  match a, b with
  | Decimal.Nil, Decimal.Nil => true
  | Decimal.D0 a, Decimal.D0 b | Decimal.D1 a, Decimal.D1 b
  | Decimal.D2 a, Decimal.D2 b | Decimal.D3 a, Decimal.D3 b
  | Decimal.D4 a, Decimal.D4 b | Decimal.D5 a, Decimal.D5 b
  | Decimal.D6 a, Decimal.D6 b | Decimal.D7 a, Decimal.D7 b
  | Decimal.D8 a, Decimal.D8 b | Decimal.D9 a, Decimal.D9 b => uint_eqb a b
  | _, _ => false
  end.

(** The whole part of a literal: digits without a leading zero. *)
Definition parse_N (cs : chars) : option (N * chars) :=
  let (d, r) := read_uint cs in
  if uint_eqb (Decimal.unorm d) d then Some (N.of_uint d, r) else None.

(** An optional fraction: a point and at least one digit. *)
Definition parse_frac (cs : chars) : option (Decimal.uint * chars) :=
  match cs with
  | c :: r =>
      if Ascii.eqb c "." then
        match read_uint r with
        | (Decimal.Nil, _) => None
        | (f, r') => Some (f, r')
        end
      else Some (Decimal.Nil, cs)
  | [] => Some (Decimal.Nil, [])
  end.

Definition parse_sign (cs : chars) : option bool * chars :=
  match cs with
  | c :: r =>
      if Ascii.eqb c "+" then (Some false, r)
      else if Ascii.eqb c "-" then (Some true, r)
      else (None, cs)
  | [] => (None, [])
  end.

(** An optional exponent: [e] or [E], an optional sign and at least one
    digit. *)
Definition parse_exp (cs : chars) : option (exponent * chars) :=
  match cs with
  | c :: r =>
      if Ascii.eqb c "e" || Ascii.eqb c "E" then
        let (sg, r1) := parse_sign r in
        match read_uint r1 with
        | (Decimal.Nil, _) => None
        | (d, r2) => Some (Exp sg d, r2)
        end
      else Some (NoExp, cs)
  | [] => Some (NoExp, [])
  end.

(** The value of a literal: an integer when it has neither fraction nor
    exponent.  The literal [-0] is the negative zero, which is no integer:
    it stays a literal. *)
Definition number (neg : bool) (w : N) (f : Decimal.uint) (e : exponent) :
  value :=
  match f, e with
  | Decimal.Nil, NoExp =>
      if neg && (w =? 0)%N then VReal true 0 Decimal.Nil NoExp
      else VNum (if neg then Z.opp (Z.of_N w) else Z.of_N w)
  | _, _ => VReal neg w f e
  end.

Definition parse_number (cs : chars) : option (value * chars) :=
  match cs with
  | [] => None
  | c :: r =>
      let neg := Ascii.eqb c "-" in
      match parse_N (if neg then r else cs) with
      | Some (w, r1) =>
          match parse_frac r1 with
          | Some (f, r2) =>
              match parse_exp r2 with
              | Some (e, r3) => Some (number neg w f e, r3)
              | None => None
              end
          | None => None
          end
      | None => None
      end
  end.

(** *** Strings *)

Definition hex_char (n : N) : ascii :=
  ascii_of_N (if (n <? 10)%N then 48 + n else 87 + n).

Definition hex_val (c : ascii) : option N :=
  let n := N_of_ascii c in
  if (48 <=? n)%N && (n <=? 57)%N then Some (n - 48)%N
  else if (97 <=? n)%N && (n <=? 102)%N then Some (n - 87)%N
  else if (65 <=? n)%N && (n <=? 70)%N then Some (n - 55)%N
  else None.

(** [JSON.stringify] quotes the quote, the backslash and the control
    characters, and copies every other character. *)
Definition escape (c : ascii) : chars :=
  if Ascii.eqb c "034" then ["\"; "034"]
  else if Ascii.eqb c "\" then ["\"; "\"]
  else if Ascii.eqb c "008" then ["\"; "b"]
  else if Ascii.eqb c "009" then ["\"; "t"]
  else if Ascii.eqb c "010" then ["\"; "n"]
  else if Ascii.eqb c "012" then ["\"; "f"]
  else if Ascii.eqb c "013" then ["\"; "r"]
  else if (N_of_ascii c <? 32)%N
       then ["\"; "u"; "0"; "0";
             hex_char (N_of_ascii c / 16); hex_char (N_of_ascii c mod 16)]
       else [c].

Fixpoint escape_all (s : string) : chars :=
  match s with
  | EmptyString => []
  | String c s' => escape c ++ escape_all s'
  end.

Definition print_string (s : string) : chars :=
  "034" :: escape_all s ++ ["034"].

Definition cons_char (c : ascii) (r : option (string * chars)) :
  option (string * chars) :=
  match r with
  | Some (s, rest) => Some (String c s, rest)
  | None => None
  end.

(** The UTF-8 bytes of a code point.  A surrogate that is not part of a
    pair is kept as the three bytes of its code unit. *)
Definition utf8 (n : N) : list ascii :=
  if (n <? 128)%N then [ascii_of_N n]
  else if (n <? 2048)%N
       then [ascii_of_N (192 + n / 64); ascii_of_N (128 + n mod 64)]
       else if (n <? 65536)%N
            then [ascii_of_N (224 + n / 4096);
                  ascii_of_N (128 + (n / 64) mod 64);
                  ascii_of_N (128 + n mod 64)]
            else [ascii_of_N (240 + n / 262144);
                  ascii_of_N (128 + (n / 4096) mod 64);
                  ascii_of_N (128 + (n / 64) mod 64);
                  ascii_of_N (128 + n mod 64)].

(** The code unit of four hexadecimal digits. *)
Definition hex4 (h1 h2 h3 h4 : ascii) : option N :=
  match hex_val h1, hex_val h2, hex_val h3, hex_val h4 with
  | Some a, Some b, Some c, Some d => Some (4096 * a + 256 * b + 16 * c + d)%N
  | _, _, _, _ => None
  end.

Definition is_high_surrogate (n : N) : bool :=
  (55296 <=? n)%N && (n <=? 56319)%N.

Definition is_low_surrogate (n : N) : bool :=
  (56320 <=? n)%N && (n <=? 57343)%N.

(** The code point of a surrogate pair. *)
Definition pair_point (hi lo : N) : N :=
  (65536 + (hi - 55296) * 1024 + (lo - 56320))%N.

Definition cons_chars (cs : list ascii) (r : option (string * chars)) :
  option (string * chars) :=
  fold_right cons_char r cs.

(** The characters of a string literal after its opening quote, up to and
    including the closing quote.  Strings are byte sequences read as UTF-8:
    a [\uXXXX] escape stands for the bytes of its code unit, and the
    escapes of a high and a low surrogate in a row for the bytes of the
    code point of the pair. *)
Fixpoint parse_string_body (cs : chars) : option (string * chars) :=
  match cs with
  | [] => None
  | c :: r =>
      if Ascii.eqb c "034" then Some (EmptyString, r)
      else if Ascii.eqb c "\" then
        match r with
        | [] => None
        | e :: r1 =>
            if Ascii.eqb e "034" then cons_char "034" (parse_string_body r1)
            else if Ascii.eqb e "\" then cons_char "\" (parse_string_body r1)
            else if Ascii.eqb e "/" then cons_char "/" (parse_string_body r1)
            else if Ascii.eqb e "b" then cons_char "008" (parse_string_body r1)
            else if Ascii.eqb e "t" then cons_char "009" (parse_string_body r1)
            else if Ascii.eqb e "n" then cons_char "010" (parse_string_body r1)
            else if Ascii.eqb e "f" then cons_char "012" (parse_string_body r1)
            else if Ascii.eqb e "r" then cons_char "013" (parse_string_body r1)
            else if Ascii.eqb e "u" then
              match r1 with
              | h1 :: h2 :: h3 :: h4 :: r2 =>
                  match hex4 h1 h2 h3 h4 with
                  | Some n =>
                      if is_high_surrogate n then
                        match r2 with
                        | b :: u :: l1 :: l2 :: l3 :: l4 :: r3 =>
                            match (if Ascii.eqb b "\" && Ascii.eqb u "u"
                                   then hex4 l1 l2 l3 l4 else None)
                            with
                            | Some lo =>
                                if is_low_surrogate lo
                                then cons_chars (utf8 (pair_point n lo))
                                                (parse_string_body r3)
                                else cons_chars (utf8 n)
                                                (parse_string_body r2)
                            | None =>
                                cons_chars (utf8 n) (parse_string_body r2)
                            end
                        | _ => cons_chars (utf8 n) (parse_string_body r2)
                        end
                      else cons_chars (utf8 n) (parse_string_body r2)
                  | None => None
                  end
              | _ => None
              end
            else None
        end
      else if (N_of_ascii c <? 32)%N then None
      else cons_char c (parse_string_body r)
  end.

(** *** Values *)

Definition is_ws (c : ascii) : bool :=
  Ascii.eqb c " " || Ascii.eqb c "009" || Ascii.eqb c "010"
  || Ascii.eqb c "013".

Fixpoint skip_ws (cs : chars) : chars :=
  match cs with
  | c :: r => if is_ws c then skip_ws r else cs
  | [] => []
  end.

Definition lit (s : string) : chars := list_ascii_of_string s.

(** [JSON.stringify] leaves out a property whose value is [undefined]. *)
Definition is_undefined (v : value) : bool :=
  match v with VUndefined => true | _ => false end.

(** [JSON.stringify] throws a [TypeError] when it meets a BigInt. *)
Fixpoint stringify_throws (v : value) : bool :=
  match v with
  | VBigInt _ => true
  | VArr xs =>
      (fix any (l : list value) : bool :=
         match l with
         | [] => false
         | x :: l' => stringify_throws x || any l'
         end) xs
  | VObj ps =>
      (fix any (l : props) : bool :=
         match l with
         | [] => false
         | (_, x) :: l' => stringify_throws x || any l'
         end) ps
  | _ => false
  end.

(** The numbers of the value are integers that a double holds exactly, so
    that the literal kept here is the text [JSON.stringify] prints and the
    number [JSON.parse] reads. *)
Fixpoint exact_numbers (v : value) : bool :=
  match v with
  | VNum z => (Z.abs z <=? 9007199254740991)%Z
  | VReal _ _ _ _ => false
  | VArr xs =>
      (fix all (l : list value) : bool :=
         match l with
         | [] => true
         | x :: l' => exact_numbers x && all l'
         end) xs
  | VObj ps =>
      (fix all (l : props) : bool :=
         match l with
         | [] => true
         | (_, x) :: l' => exact_numbers x && all l'
         end) ps
  | _ => true
  end.

(** The text of a value.  An [undefined] array element is printed as
    [null]; an instance of [DefaultValue] has no own properties and is
    printed as an empty object.  Members and elements are printed with a
    leading comma each, and the first comma is dropped. *)
Fixpoint print (v : value) : chars :=
  match v with
  | VUndefined => lit "null"
  | VNull => lit "null"
  | VBool true => lit "true"
  | VBool false => lit "false"
  | VNum z => print_num z
  | VReal neg w f e => print_real neg w f e
  | VStr s => print_string s
  | VArr xs =>
      "[" :: tl ((fix elems (l : list value) : chars :=
                    match l with
                    | [] => []
                    | x :: l' => "," :: print x ++ elems l'
                    end) xs) ++ ["]"]
  | VObj ps =>
      "{" :: tl ((fix members (l : props) : chars :=
                    match l with
                    | [] => []
                    | (k, x) :: l' =>
                        if is_undefined x then members l'
                        else "," :: print_string k ++ ":" :: print x
                                 ++ members l'
                    end) ps) ++ ["}"]
  | VDefault => lit "{}"
  | VBigInt _ => lit "null"   (* not used: see [stringify_throws] *)
  end.

Fixpoint print_elems (l : list value) : chars :=
  match l with
  | [] => []
  | x :: l' => "," :: print x ++ print_elems l'
  end.

Fixpoint print_members (l : props) : chars :=
  match l with
  | [] => []
  | (k, x) :: l' =>
      if is_undefined x then print_members l'
      else "," :: print_string k ++ ":" :: print x ++ print_members l'
  end.

(** What [JSON.parse (JSON.stringify v)] is for a value [v]. *)
Fixpoint jsonify (v : value) : value :=
  match v with
  | VUndefined => VNull
  | VBigInt _ => VNull
  | VDefault => VObj []
  | VReal neg w f e => number neg w f (normal_exp e)
  | VArr xs => VArr (map jsonify xs)
  | VObj ps =>
      VObj (fold_left
              (fun acc p =>
                 match p with
                 | (k, x) => if is_undefined x then acc
                             else obj_set k (jsonify x) acc
                 end) ps [])
  | _ => v
  end.

Fixpoint starts (p cs : chars) : option chars :=
  match p with
  | [] => Some cs
  | a :: p' =>
      match cs with
      | c :: r => if Ascii.eqb a c then starts p' r else None
      | [] => None
      end
  end.

(** Recursive descent; [fuel] bounds the depth of the calls.  A call that
    nests consumes a bracket and a call that continues a list consumes an
    element and a comma, so twice the length of the text is enough fuel. *)
Fixpoint parse_value (fuel : nat) (cs : chars) : option (value * chars) :=
  match fuel with
  | O => None
  | S fuel' =>
      match skip_ws cs with
      | [] => None
      | c :: r =>
          if Ascii.eqb c "{" then
            match skip_ws r with
            | c' :: r' =>
                if Ascii.eqb c' "}" then Some (VObj [], r')
                else parse_members fuel' [] r
            | [] => None
            end
          else if Ascii.eqb c "[" then
            match skip_ws r with
            | c' :: r' =>
                if Ascii.eqb c' "]" then Some (VArr [], r')
                else parse_elements fuel' [] r
            | [] => None
            end
          else if Ascii.eqb c "034" then
            match parse_string_body r with
            | Some (s, r') => Some (VStr s, r')
            | None => None
            end
          else if Ascii.eqb c "n" then
            match starts (lit "ull") r with
            | Some r' => Some (VNull, r')
            | None => None
            end
          else if Ascii.eqb c "t" then
            match starts (lit "rue") r with
            | Some r' => Some (VBool true, r')
            | None => None
            end
          else if Ascii.eqb c "f" then
            match starts (lit "alse") r with
            | Some r' => Some (VBool false, r')
            | None => None
            end
          else
            parse_number (c :: r)
      end
  end

(** After [[] or a comma: a value, then a comma or the closing bracket. *)
with parse_elements (fuel : nat) (acc : list value) (cs : chars) :
  option (value * chars) :=
  match fuel with
  | O => None
  | S fuel' =>
      match parse_value fuel' cs with
      | Some (v, r) =>
          match skip_ws r with
          | c :: r' =>
              if Ascii.eqb c "," then parse_elements fuel' (acc ++ [v]) r'
              else if Ascii.eqb c "]" then Some (VArr (acc ++ [v]), r')
              else None
          | [] => None
          end
      | None => None
      end
  end

(** After [{] or a comma: a member, then a comma or the closing brace.  A
    repeated name overwrites the earlier member, as [obj_set] does. *)
with parse_members (fuel : nat) (acc : props) (cs : chars) :
  option (value * chars) :=
  match fuel with
  | O => None
  | S fuel' =>
      match skip_ws cs with
      | q :: r0 =>
          if Ascii.eqb q "034" then
            match parse_string_body r0 with
            | Some (k, r1) =>
                match skip_ws r1 with
                | c1 :: r2 =>
                    if Ascii.eqb c1 ":" then
                      match parse_value fuel' r2 with
                      | Some (v, r3) =>
                          match skip_ws r3 with
                          | c :: r' =>
                              if Ascii.eqb c ","
                              then parse_members fuel' (obj_set k v acc) r'
                              else if Ascii.eqb c "}"
                              then Some (VObj (obj_set k v acc), r')
                              else None
                          | [] => None
                          end
                      | None => None
                      end
                    else None
                | [] => None
                end
            | None => None
            end
          else None
      | [] => None
      end
  end.

(** *** Auxiliary notions for the round trip *)

Section ValueInduction.
Variable P : value -> Prop.
Hypothesis Hundef : P VUndefined.
Hypothesis Hnull : P VNull.
Hypothesis Hbool : forall b, P (VBool b).
Hypothesis Hnum : forall z, P (VNum z).
Hypothesis Hreal : forall neg w f e, P (VReal neg w f e).
Hypothesis Hstr : forall s, P (VStr s).
Hypothesis Harr : forall xs, Forall P xs -> P (VArr xs).
Hypothesis Hobj : forall ps, Forall (fun p => P (snd p)) ps -> P (VObj ps).
Hypothesis Hdefault : P VDefault.
Hypothesis Hbigint : forall z, P (VBigInt z).

Fixpoint value_rect' (v : value) : P v :=
  match v with
  | VUndefined => Hundef
  | VNull => Hnull
  | VBool b => Hbool b
  | VNum z => Hnum z
  | VReal neg w f e => Hreal neg w f e
  | VStr s => Hstr s
  | VArr xs =>
      Harr xs ((fix all (l : list value) : Forall P l :=
                  match l with
                  | [] => Forall_nil P
                  | x :: l' => Forall_cons x (value_rect' x) (all l')
                  end) xs)
  | VObj ps =>
      Hobj ps ((fix all (l : props) : Forall (fun p => P (snd p)) l :=
                  match l with
                  | [] => Forall_nil _
                  | p :: l' =>
                      Forall_cons p (value_rect' (snd p)) (all l')
                  end) ps)
  | VDefault => Hdefault
  | VBigInt z => Hbigint z
  end.
End ValueInduction.

(** A printed value starts with a character that is neither white space nor
    a closing bracket. *)
Definition opens_value (cs : chars) : Prop :=
  exists c t, cs = c :: t /\ is_ws c = false /\
              Ascii.eqb c "]" = false /\ Ascii.eqb c "}" = false.

(** The round trip at one value, for every continuation of the text. *)
Definition roundtrip_at (v : value) : Prop :=
  forall fuel rest,
    length (print v) <= fuel ->
    ends_number rest = true ->
    parse_value fuel (print v ++ rest) = Some (jsonify v, rest).

Definition jsonify_step (acc : props) (p : string * value) : props :=
  match p with
  | (k, x) => if is_undefined x then acc else obj_set k (jsonify x) acc
  end.

Definition defined (ps : props) : props :=
  filter (fun p => negb (is_undefined (snd p))) ps.

(** The names of an object are distinct. *)
Definition distinct_names (ps : props) : Prop := NoDup (map fst ps).

(** No digit comes next. *)
Definition stops (rest : chars) : Prop :=
  match rest with c :: _ => is_digit c = false | [] => True end.

End JSON.

(** [JSON.parse]: [None] stands for the [SyntaxError] it throws. *)
Definition JSON_parse (s : string) : option value :=
  let cs := list_ascii_of_string s in
  match JSON.parse_value (2 * length cs + 2) cs with
  | Some (v, r) =>
      match JSON.skip_ws r with
      | [] => Some v
      | _ :: _ => None
      end
  | None => None
  end.

(** [JSON.stringify] of a value other than [undefined]. *)
Definition JSON_stringify (v : value) : string :=
  string_of_list_ascii (JSON.print v).

(** ** Completions and property access

    A JavaScript operation completes normally or throws.  [Outside] marks an
    operation the model does not cover: nothing is stated about an execution
    that reaches one. *)

Local Open Scope string_scope.
Local Open Scope list_scope.

Inductive error := TypeError | ReferenceError | StorageError.

Inductive completion (A : Type) : Type :=
| Normal (a : A)
| Throw (e : error)
| Outside.
Arguments Normal {A} a.
Arguments Throw {A} e.
Arguments Outside {A}.

(** The UTF-16 code units of a string, which is kept here as UTF-8 bytes:
    a character of up to three bytes is one unit, a character of four bytes
    is a pair of surrogates. *)
Definition unit_size (c : ascii) : nat :=
  let n := N_of_ascii c in
  if (n <? 192)%N then 1 else if (n <? 224)%N then 2
  else if (n <? 240)%N then 3 else 4.

Fixpoint split_at (n : nat) (s : string) : string * string :=
  match n, s with
  | S n', String c r => let (u, r') := split_at n' r in (String c u, r')
  | _, _ => (EmptyString, s)
  end.

Definition surrogates (u : string) : list string :=
  match list_ascii_of_string u with
  | [b0; b1; b2; b3] =>
      let p := (N_of_ascii b0 mod 8 * 262144 + N_of_ascii b1 mod 64 * 4096 +
                N_of_ascii b2 mod 64 * 64 + N_of_ascii b3 mod 64 - 65536)%N in
      [string_of_list_ascii (JSON.utf8 (55296 + p / 1024));
       string_of_list_ascii (JSON.utf8 (56320 + p mod 1024))]
  | _ => [u]
  end.

Fixpoint code_units (fuel : nat) (s : string) : list string :=
  match fuel, s with
  | S f, String c _ =>
      let (u, r) := split_at (unit_size c) s in
      (if Nat.eqb (unit_size c) 4 then surrogates u else [u]) ++
      code_units f r
  | _, _ => []
  end.

Definition utf16 (s : string) : list string :=
  code_units (String.length s) s.

(** The own names of a string or an array of length [len]: its indices and
    [length]. *)
Definition indexed (k : string) (len : nat) : bool :=
  String.eqb k "length" ||
  match array_index k with
  | Some i => (i <? N.of_nat len)%N
  | None => false
  end.

(** [state.hasOwnProperty(k)].  Reading a property of [null] or [undefined]
    throws; numbers and booleans have no own property; strings and arrays own
    their indices (of UTF-16 code units, for a string) and [length].  On a plain object the method is looked up
    first: an own property named [hasOwnProperty] hides the method of
    [Object.prototype], and calling it throws, since no stored value is a
    function. *)
Definition hasOwnProperty (state : value) (k : string) : completion bool :=
  match state with
  | VUndefined | VNull => Throw TypeError
  | VBool _ | VNum _ | VReal _ _ _ _ | VDefault | VBigInt _ => Normal false
  | VStr s => Normal (indexed k (List.length (utf16 s)))
  | VArr xs => Normal (indexed k (List.length xs))
  | VObj ps =>
      if obj_has "hasOwnProperty" ps then Throw TypeError
      else Normal (obj_has k ps)
  end.

(** [state[k]], which the effect reads only after [hasOwnProperty]
    answered [true]. *)
Definition get_property (state : value) (k : string) : value :=
  match state with
  | VObj ps => match obj_get k ps with Some v => v | None => VUndefined end
  | VArr xs =>
      if String.eqb k "length" then VNum (Z.of_nat (List.length xs))
      else match array_index k with
           | Some i =>
               if (i <? N.of_nat (List.length xs))%N
               then nth (N.to_nat i) xs VUndefined else VUndefined
           | None => VUndefined
           end
  | VStr s =>
      if String.eqb k "length" then VNum (Z.of_nat (List.length (utf16 s)))
      else match array_index k with
           | Some i =>
               match nth_error (utf16 s) (N.to_nat i) with
               | Some u => VStr u
               | None => VUndefined
               end
           | None => VUndefined
           end
  | _ => VUndefined
  end.

(** [o[k] = x] on a plain object.  The name [__proto__], when it is not an
    own property, reaches the setter of [Object.prototype]: no property is
    created (the prototype may change, which nothing the effect does
    afterwards observes).  Every other name is created or overwritten. *)
Definition obj_assign (k : string) (x : value) (ps : props) : props :=
  if String.eqb k "__proto__" && negb (obj_has k ps) then ps
  else obj_set k x ps.

(** [state[k] = x] in strict mode (the module is an ES module): creating a
    property on a primitive throws, while the setter of [__proto__] ignores
    a primitive and leaves it as it is.  Assignment to an array is not
    modelled. *)
Definition set_property (state : value) (k : string) (x : value) :
  completion value :=
  match state with
  | VObj ps => Normal (VObj (obj_assign k x ps))
  | VArr _ | VDefault => Outside
  | VUndefined | VNull => Throw TypeError
  | VBool _ | VNum _ | VReal _ _ _ _ | VStr _ | VBigInt _ =>
      if String.eqb k "__proto__" then Normal state else Throw TypeError
  end.

(** [delete state[k]] in strict mode; the effect deletes only a property
    that [hasOwnProperty] reported.  The own properties of a string cannot
    be deleted. *)
Definition delete_property (state : value) (k : string) : completion value :=
  match state with
  | VObj ps => Normal (VObj (obj_delete k ps))
  | VArr _ => Outside
  | VStr s =>
      if indexed k (List.length (utf16 s)) then Throw TypeError
      else Normal state
  | VUndefined | VNull => Throw TypeError
  | VBool _ | VNum _ | VReal _ _ _ _ | VDefault | VBigInt _ => Normal state
  end.

(** [typeof state.then === 'function'] on a value that is not a promise: the
    property read throws on [null] and [undefined]; no JSON value holds a
    function. *)
Definition then_is_function (state : value) : completion bool :=
  match state with
  | VUndefined | VNull => Throw TypeError
  | _ => Normal false
  end.

(** [newValue !== null && newValue !== undefined &&
     newValue instanceof DefaultValue] *)
Definition is_DefaultValue (newValue : value) : bool :=
  match newValue with VDefault => true | _ => false end.

(** ** The interfaces of [index.ts] *)

(** A storage key: the configured string, or [undefined] ([None]). *)
Definition jskey := option string.

Definition jskey_eqb (a b : jskey) : bool :=
  match a, b with
  | Some x, Some y => String.eqb x y
  | None, None => true
  | _, _ => false
  end.

(** A promise, by the way it settles. *)
Inductive settled (A : Type) : Type :=
| Fulfilled (a : A)
| Rejected
| Unsettled.
Arguments Fulfilled {A} a.
Arguments Rejected {A}.
Arguments Unsettled {A}.

(** What a read yields: [null], [undefined] or a string. *)
Inductive item := INull | IUndefined | IString (s : string).

(** The shapes [getState] tells apart in the result of [getItem]. *)
Inductive getItemResult :=
| GItem (i : item)             (* an immediate result *)
| GPromise (p : settled item)  (* a result with a [then] method *)
| GOther                       (* any other value *)
| GThrow.                      (* [getItem] throws *)

Inductive setItemResult :=
| SVoid
| SPromise (p : settled unit)
| SThrow.

(** The contents of a backend. *)
Definition store := jskey -> option string.

Definition store_set (k : jskey) (v : string) (st : store) : store :=
  fun k' => if jskey_eqb k' k then Some v else st k'.

Definition empty_store : store := fun _ => None.

(** [interface PersistStorage] *)
Record PersistStorage := {
  getItem : jskey -> store -> getItemResult;
  setItem : jskey -> string -> store -> setItemResult * store
}.

Inductive key_option :=
| KeyString (s : string)
| KeyFunction (f : nat -> string).
  (* a key function may depend on state of its own, as in
     [() => "k-" + counter++]: [f n] is what its call number [n] returns *)

(** [interface PersistConfiguration] *)
Record PersistConfiguration := {
  key : option key_option;
  storage : option PersistStorage
}.

(** [interface PersistSetting] *)
Record PersistSetting := {
  serialize : option (value -> string);
  deserialize : option (value -> value)
}.

(** The globals the module consults. *)
Record environment := {
  window : bool;
    (* [typeof window !== 'undefined'] *)
  localStorage : option PersistStorage
    (* the global [localStorage], if it is bound *)
}.

(** A backend that keeps what it is given, answering at once (as
    [localStorage] does) or through fulfilled promises (as React Native's
    [AsyncStorage] does, whose promise fulfils with [null] for a key that is
    not stored). *)
Definition memoryStorage (async : bool) : PersistStorage := {|
  getItem := fun k st =>
    let i := match st k with Some s => IString s | None => INull end in
    if async then GPromise (Fulfilled i) else GItem i;
  setItem := fun k v st =>
    (if async then SPromise (Fulfilled tt) else SVoid, store_set k v st)
|}.

(** ** The world the effect runs in *)

(** Which storage object a call goes to. *)
Inductive backend := Supplied | Platform.

Inductive origin := InInit | InOnSet | InSetItem.

Inductive event :=
| GetItem (b : backend) (k : jskey)
| SetItem (b : backend) (k : jskey) (v : string)
| SetSelf (node : string) (v : value)
| OnSet (node : string)        (* a callback was subscribed *)
| ConsoleError
| Unhandled (o : origin)       (* a promise rejected without a handler *)
| OutsideModel.

(** What the closure built by [recoilPersist] captures. *)
Record closure := {
  c_backend : backend;
  c_storage : PersistStorage;
  c_serialize : option (value -> string);
  c_deserialize : option (value -> value);
  c_key : jskey
}.

(** What [getState] returns: a value, or the promise
    [toParse.then(parseState)]. *)
Inductive snapshot :=
| Now (state : value)
| Later (toParse : settled item).

(** Continuations waiting in the microtask queue. *)
Inductive task :=
| InitThen (c : closure) (node : string) (toParse : settled item)
    (* the callback of [state.then(...)] in [persistAtom] *)
| SetResume (c : closure) (node : string) (newValue : value) (state : snapshot).
    (* the [onSet] callback after [await getState()] *)

Record world := {
  supplied : store;    (* behind [config.storage] *)
  platform : store;    (* behind the global [localStorage] *)
  key_calls : nat;     (* invocations of the key function so far *)
  trace : list event;  (* oldest first *)
  queue : list task
}.

(** Computations on the world that may throw. *)
Definition M (A : Type) : Type := world -> completion A * world.

Definition ret {A} (a : A) : M A := fun w => (Normal a, w).

Definition bind {A B} (m : M A) (f : A -> M B) : M B :=
  fun w =>
    match m w with
    | (Normal a, w') => f a w'
    | (Throw e, w') => (Throw e, w')
    | (Outside, w') => (Outside, w')
    end.

Notation "x <- m ;; f" := (bind m (fun x => f))
  (at level 61, m at next level, right associativity).
Notation "m ;;; f" := (bind m (fun _ => f))
  (at level 61, right associativity).

Definition lift {A} (c : completion A) : M A := fun w => (c, w).

Definition add_event (e : event) (w : world) : world :=
  {| supplied := supplied w; platform := platform w;
     key_calls := key_calls w; trace := trace w ++ [e]; queue := queue w |}.

Definition enqueue (t : task) (w : world) : world :=
  {| supplied := supplied w; platform := platform w;
     key_calls := key_calls w; trace := trace w; queue := queue w ++ [t] |}.

Definition contents (b : backend) (w : world) : store :=
  match b with Supplied => supplied w | Platform => platform w end.

Definition with_contents (b : backend) (st : store) (w : world) : world :=
  match b with
  | Supplied =>
      {| supplied := st; platform := platform w;
         key_calls := key_calls w; trace := trace w; queue := queue w |}
  | Platform =>
      {| supplied := supplied w; platform := st;
         key_calls := key_calls w; trace := trace w; queue := queue w |}
  end.

Definition count_key_call (w : world) : world :=
  {| supplied := supplied w; platform := platform w;
     key_calls := S (key_calls w); trace := trace w; queue := queue w |}.

Definition with_queue (q : list task) (w : world) : world :=
  {| supplied := supplied w; platform := platform w;
     key_calls := key_calls w; trace := trace w; queue := q |}.

Definition log (e : event) : M unit := fun w => (Normal tt, add_event e w).

Definition defer (t : task) : M unit := fun w => (Normal tt, enqueue t w).

Definition put_contents (b : backend) (st : store) : M unit :=
  fun w => (Normal tt, with_contents b st w).

(** ** [index.ts] *)

(** [getKey]: a key function is called; anything else is returned as it is,
    [undefined] included. *)
Definition getKey (config : PersistConfiguration) : M jskey :=
  match key config with
  | Some (KeyFunction f) =>
      fun w => (Normal (Some (f (key_calls w))), count_key_call w)
  | Some (KeyString s) => ret (Some s)
  | None => ret None
  end.

(** [parseState]; [JSON.parse(null)] parses the text [null]. *)
Definition parseState (state : item) : M value :=
  match state with
  | IUndefined => ret (VObj [])
  | INull =>
      match JSON_parse "null" with
      | Some v => ret v
      | None => log ConsoleError ;;; ret (VObj [])
      end
  | IString s =>
      match JSON_parse s with
      | Some v => ret v
      | None => log ConsoleError ;;; ret (VObj [])
      end
  end.

(** [getState] *)
Definition getState (c : closure) : M snapshot :=
  log (GetItem (c_backend c) (c_key c)) ;;;
  fun w =>
    match getItem (c_storage c) (c_key c) (contents (c_backend c) w) with
    | GThrow => (Throw StorageError, w)
    | GItem INull | GItem IUndefined => (Normal (Now (VObj [])), w)
    | GItem (IString s) => (v <- parseState (IString s) ;; ret (Now v)) w
    | GPromise p => (Normal (Later p), w)
    | GOther => (Normal (Now (VObj [])), w)
    end.

(** [setState]: the exception of a throwing [JSON.stringify] or [setItem]
    is caught and logged; a promise [setItem] returns is dropped. *)
Definition setState (c : closure) (state : value) : M unit :=
  match state with
  | VUndefined => log OutsideModel   (* [JSON.stringify] gives no string *)
  | _ =>
      if JSON.stringify_throws state then log ConsoleError else
      let text := JSON_stringify state in
      log (SetItem (c_backend c) (c_key c) text) ;;;
      fun w =>
        let (r, st) := setItem (c_storage c) (c_key c) text
                               (contents (c_backend c) w) in
        (put_contents (c_backend c) st ;;;
         match r with
         | SVoid => ret tt
         | SThrow => log ConsoleError
         | SPromise Rejected => log (Unhandled InSetItem)
         | SPromise _ => ret tt
         end) w
  end.

Definition apply_deserialize (c : closure) (v : value) : value :=
  match c_deserialize c with Some d => d v | None => v end.

Definition apply_serialize (c : closure) (v : value) : value :=
  match c_serialize c with Some s => VStr (s v) | None => v end.

(** The two places where [persistAtom] pushes a stored value into the atom. *)
Definition push_stored (c : closure) (node : string) (s : value) : M unit :=
  has <- lift (hasOwnProperty s node) ;;
  if has then log (SetSelf node (apply_deserialize c (get_property s node)))
  else ret tt.

Inductive trigger := TriggerGet | TriggerSet.

Inductive AtomEffect :=
| NoEffect               (* [() => { }] *)
| Persist (c : closure).

(** [persistAtom] *)
Definition persistAtom (eff : AtomEffect) (node : string) (t : trigger) :
  M unit :=
  match eff with
  | NoEffect => ret tt
  | Persist c =>
      match t with
      | TriggerGet =>
          state <- getState c ;;
          match state with
          | Later p =>
              (* [state.then] is a function; a promise has no own
                 property, so the second test fails *)
              defer (InitThen c node p)
          | Now s =>
              _ <- lift (then_is_function s) ;;
              push_stored c node s
          end
      | TriggerSet => ret tt
      end ;;;
      log (OnSet node)
  end.

(** The callback given to [onSet], up to its [await]: [getState] is called
    at once, the rest runs from the microtask queue. *)
Definition onSet_callback (c : closure) (node : string) (newValue : value) :
  M unit :=
  fun w =>
    match getState c w with
    | (Normal state, w') => defer (SetResume c node newValue state) w'
    | (Throw _, w') => log (Unhandled InOnSet) w'
    | (Outside, w') => log OutsideModel w'
    end.

(** The value a snapshot is awaited to. *)
Definition await (state : snapshot) : M (option value) :=
  match state with
  | Now s => ret (Some s)
  | Later (Fulfilled i) => s <- parseState i ;; ret (Some s)
  | Later Rejected => lift (Throw StorageError)
  | Later Unsettled => ret None
  end.

(** The body of the [onSet] callback after the [await]. *)
Definition onSet_body (c : closure) (node : string) (newValue state : value) :
  M unit :=
  has <- (if is_DefaultValue newValue then lift (hasOwnProperty state node)
          else ret false) ;;
  state' <- lift (if has then delete_property state node
                  else set_property state node (apply_serialize c newValue)) ;;
  setState c state'.

(** A rejection or exception inside a continuation rejects a promise that
    has no handler. *)
Definition run_async (o : origin) (m : M unit) : world -> world :=
  fun w =>
    match m w with
    | (Normal _, w') => w'
    | (Throw _, w') => add_event (Unhandled o) w'
    | (Outside, w') => add_event OutsideModel w'
    end.

Definition run_task (t : task) : world -> world :=
  match t with
  | InitThen c node p =>
      run_async InInit
        (s <- await (Later p) ;;
         match s with
         | Some s => push_stored c node s
         | None => ret tt
         end)
  | SetResume c node newValue state =>
      run_async InOnSet
        (s <- await state ;;
         match s with
         | Some s => onSet_body c node newValue s
         | None => ret tt
         end)
  end.

(** Run the microtask queue to the end. *)
Definition drain (w : world) : world :=
  fold_left (fun w t => run_task t w) (queue w) (with_queue [] w).

(** A read followed to its value: what [await getState()] is. *)
Definition read (c : closure) : M (option value) :=
  state <- getState c ;; await state.

(** [recoilPersist]: the second stage runs the body. *)
Definition recoilPersist (env : environment)
  (config : option PersistConfiguration) (settings : option PersistSetting) :
  M AtomEffect :=
  let config := match config with
                | Some c => c
                | None => {| key := None; storage := None |}
                end in
  if negb (window env) then ret NoEffect
  else
    st <- lift (match storage config with
                | Some s => Normal (Supplied, s)
                | None =>
                    match localStorage env with
                    | Some s => Normal (Platform, s)
                    | None => Throw ReferenceError
                    end
                end) ;;
    let settings := match settings with
                    | Some s => s
                    | None => {| serialize := None; deserialize := None |}
                    end in
    k <- getKey config ;;
    ret (Persist {| c_backend := fst st; c_storage := snd st;
                    c_serialize := serialize settings;
                    c_deserialize := deserialize settings;
                    c_key := k |}).

(** ** Sessions

    What the engine does with an effect: it attaches it to atoms, calls the
    callbacks the effect subscribed, and lets the microtask queue run. *)

Inductive action :=
| Attach (node : string) (t : trigger)
| External (node : string) (newValue : value)   (* an external set or reset *)
| Drain.

Definition step (eff : AtomEffect) (a : action) (w : world) : world :=
  match a with
  | Attach node t => snd (persistAtom eff node t w)
  | External node newValue =>
      match eff with
      | Persist c => snd (onSet_callback c node newValue w)
      | NoEffect => w   (* nothing was subscribed *)
      end
  | Drain => drain w
  end.

Definition run (eff : AtomEffect) (actions : list action) (w : world) : world :=
  fold_left (fun w a => step eff a w) actions w.

(** A storage call goes to backend [b] under key [k]. *)
Definition addressed (b : backend) (k : jskey) (e : event) : Prop :=
  match e with
  | GetItem b' k' | SetItem b' k' _ => b' = b /\ k' = k
  | _ => True
  end.

Definition task_closure (t : task) : closure :=
  match t with
  | InitThen c _ _ | SetResume c _ _ _ => c
  end.

(** Every waiting continuation belongs to the closure [c]. *)
Definition owned (c : closure) (w : world) : Prop :=
  Forall (fun t => task_closure t = c) (queue w).

Definition other_backend (b : backend) : backend :=
  match b with Supplied => Platform | Platform => Supplied end.

(** [w'] comes after [w] by work of the closure [c] alone: the new storage
    calls go to its backend under its key, the key function is not called,
    and the other backend is left alone. *)
Record extends (c : closure) (w w' : world) : Prop := {
  ext_trace : exists evs, trace w' = trace w ++ evs /\
                          Forall (addressed (c_backend c) (c_key c)) evs;
  ext_calls : key_calls w' = key_calls w;
  ext_other : contents (other_backend (c_backend c)) w' =
              contents (other_backend (c_backend c)) w;
  ext_queue : owned c w -> owned c w'
}.

Definition preserves {A} (c : closure) (m : M A) : Prop :=
  forall w, extends c w (snd (m w)).

Definition is_SetSelf (e : event) : bool :=
  match e with SetSelf _ _ => true | _ => false end.

(** The [setSelf] calls of a trace. *)
Definition setSelf_calls (evs : list event) : list event :=
  filter is_SetSelf evs.

Definition is_mapping (v : value) : bool :=
  match v with VObj _ => true | _ => false end.

Arguments JSON_parse : simpl never.
Arguments JSON_stringify : simpl never.

(** The storage key a call passes. *)
Definition passes_key (k : jskey) (e : event) : Prop :=
  match e with
  | GetItem _ k' | SetItem _ k' _ => k' = k
  | _ => True
  end.

(** The [key] field of an optional configuration. *)
Definition configured_key (config : option PersistConfiguration) :
  option key_option :=
  match config with Some cfg => key cfg | None => None end.

(** The continuations waiting in the world are the effect's own. *)
Definition effect_owned (eff : AtomEffect) (w : world) : Prop :=
  match eff with
  | Persist c => owned c w
  | NoEffect => queue w = []
  end.

(** The backend delivers the item [i]: at once, or, for a string, through a
    promise that fulfils with it. *)
Definition delivers (r : getItemResult) (i : item) : Prop :=
  match r with
  | GItem j => j = i
  | GPromise (Fulfilled (IString s)) => i = IString s
  | _ => False
  end.

(** The snapshot a delivered item stands for. *)
Definition snapshot_of (i : item) : value :=
  match i with
  | INull | IUndefined => VObj []
  | IString s => match JSON_parse s with Some v => v | None => VObj [] end
  end.

(** What a read adds to the world. *)
Definition after_read (c : closure) (i : item) (w : world) : world :=
  (if match i with
      | IString s => match JSON_parse s with Some _ => false | None => true end
      | _ => false
      end
   then add_event ConsoleError else fun w => w)
    (add_event (GetItem (c_backend c) (c_key c)) w).

(** What [parseState] makes of an item, and whether it logs a failure. *)
Definition parsed (i : item) : value :=
  match i with
  | IUndefined => VObj []
  | INull => VNull
  | IString s => match JSON_parse s with Some v => v | None => VObj [] end
  end.

Definition malformed (i : item) : bool :=
  match i with
  | IString s => match JSON_parse s with Some _ => false | None => true end
  | _ => false
  end.

Definition log_if (b : bool) (e : event) (w : world) : world :=
  if b then add_event e w else w.

(** What the initialisation pushes into the atom, given what the read
    came to. *)
Definition init_push (c : closure) (node : string)
  (r : completion (option value)) : list event :=
  match r with
  | Normal (Some s) =>
      match hasOwnProperty s node with
      | Normal true =>
          [SetSelf node (apply_deserialize c (get_property s node))]
      | _ => []
      end
  | _ => []
  end.

(** The properties the [onSet] callback leaves in a mapping snapshot, when
    its test of [hasOwnProperty] does not throw. *)
Definition next_props (c : closure) (node : string) (newValue : value)
  (ps : props) : props :=
  if is_DefaultValue newValue && obj_has node ps
  then obj_delete node ps
  else obj_assign node (apply_serialize c newValue) ps.

(** The callback's test calls [hasOwnProperty] on a mapping that hides the
    method. *)
Definition test_throws (newValue : value) (ps : props) : bool :=
  is_DefaultValue newValue && obj_has "hasOwnProperty" ps.

(** The world after a write of [text] through a backend that keeps it. *)
Definition after_write (c : closure) (text : string) (w : world) : world :=
  with_contents (c_backend c)
    (store_set (c_key c) text (contents (c_backend c) w))
    (add_event (SetItem (c_backend c) (c_key c) text) w).

(** The world is quiet and the stored blob is the text of a mapping that
    holds [x] under [k] and does not hide the method [hasOwnProperty]. *)
Definition holds (c : closure) (k : string) (x : value) (w : world) : Prop :=
  queue w = [] /\
  exists text ps,
    contents (c_backend c) w (c_key c) = Some text /\
    JSON_parse text = Some (VObj ps) /\
    obj_has "hasOwnProperty" ps = false /\
    obj_get k ps = Some x.

(** External sets on several atoms, each run to its end before the next. *)
Definition sets (c : closure) (l : list (string * value)) (w : world) : world :=
  fold_left (fun w p => drain (snd (onSet_callback c (fst p) (snd p) w))) l w.

(** *** Worlds and environments of the examples *)

Definition initial : world :=
  {| supplied := empty_store; platform := empty_store;
     key_calls := 0; trace := []; queue := [] |}.

(** JSON text of the examples, written with ['] for the double quote. *)
Fixpoint json (s : string) : string :=
  match s with
  | EmptyString => EmptyString
  | String c r => String (if Ascii.eqb c "'" then "034"%char else c) (json r)
  end.

(** The initial world with [text] stored under [k] in the supplied backend. *)
Definition stored (k : string) (text : string) : world :=
  {| supplied := store_set (Some k) text empty_store;
     platform := empty_store; key_calls := 0; trace := []; queue := [] |}.

(** A closure on the supplied backend under the key [demo]. *)
Definition demo (st : PersistStorage) (s : option (value -> string))
  (d : option (value -> value)) : closure :=
  {| c_backend := Supplied; c_storage := st; c_serialize := s;
     c_deserialize := d; c_key := Some "demo" |}.

(** A backend whose promises reject. *)
Definition rejectingStorage : PersistStorage :=
  {| getItem := fun _ _ => GPromise Rejected;
     setItem := fun _ _ st => (SPromise Rejected, st) |}.

(** A backend whose [setItem] throws. *)
Definition throwingStorage : PersistStorage :=
  {| getItem := fun _ _ => GItem INull;
     setItem := fun _ _ st => (SThrow, st) |}.

(** A browser: [window] and [localStorage] exist. *)
Definition browser : environment :=
  {| window := true; localStorage := Some (memoryStorage false) |}.

(** A server-side renderer: neither exists. *)
Definition server : environment :=
  {| window := false; localStorage := None |}.

(** [() => "k-" + counter++] *)
Definition counter_key (n : nat) : string :=
  "k-" ++ string_of_list_ascii (JSON.print_N (N.of_nat n)).

(** *** Notions for the further properties of the effect *)

(** The name [k] may come after the array index [n] among the own
    properties of an object. *)
Definition not_before (n : N) (k : string) : Prop :=
  match array_index k with Some m => (n <= m)%N | None => True end.

(** The names in the order of the own properties of an object: the array
    indices first, in ascending order. *)
Fixpoint names_ordered (ks : list string) : Prop :=
  match ks with
  | [] => True
  | k :: r =>
      match array_index k with
      | Some n => Forall (not_before n) r
      | None => Forall (fun k' => array_index k' = None) r
      end /\ names_ordered r
  end.

(** A value [JSON.stringify] accepts and the codec leaves as it is. *)
Definition json_entry (x : value) : Prop :=
  JSON.is_undefined x = false /\ JSON.jsonify x = x /\
  JSON.stringify_throws x = false.

(** The properties of an object [JSON.parse] returns: the names are
    distinct and in the order of own properties, and every value is one the
    codec leaves as it is. *)
Definition json_props (ps : props) : Prop :=
  JSON.distinct_names ps /\ names_ordered (map fst ps) /\
  Forall (fun p => json_entry (snd p)) ps.

(** A value [JSON.parse] returns. *)
Definition json_value (v : value) : Prop :=
  json_entry v /\ match v with VObj ps => json_props ps | _ => True end.

(** A snapshot on which no property can be created. *)
Definition is_primitive (v : value) : bool :=
  match v with
  | VNull | VBool _ | VNum _ | VReal _ _ _ _ | VStr _ => true
  | _ => false
  end.

(** What [setState] logs after the call of [setItem], by its result. *)
Definition write_outcome (r : setItemResult) : list event :=
  match r with
  | SThrow => [ConsoleError]
  | SPromise Rejected => [Unhandled InSetItem]
  | _ => []
  end.

(** What an initialisation pushes for the atom [node], given the mapping it
    read. *)
Definition entry_push (c : closure) (node : string) (ps : props) :
  list event :=
  match obj_get node ps with
  | Some x => [SetSelf node (apply_deserialize c x)]
  | None => []
  end.

(** What an initialisation pushes for the atom [node] after [setState] wrote
    the mapping [ps]: [JSON.stringify] drops an entry that is [undefined]. *)
Definition written_push (c : closure) (node : string) (ps : props) :
  list event :=
  match obj_get node ps with
  | Some x =>
      if JSON.is_undefined x then []
      else [SetSelf node (apply_deserialize c (JSON.jsonify x))]
  | None => []
  end.

(** The value a snapshot is awaited to, and whether the await logs a parse
    failure, for a snapshot that is a value or a fulfilled promise. *)
Definition awaited (state : snapshot) : value :=
  match state with
  | Now v => v
  | Later (Fulfilled i) => parsed i
  | Later _ => VUndefined
  end.

Definition await_logs (state : snapshot) : bool :=
  match state with
  | Later (Fulfilled i) => malformed i
  | _ => false
  end.

Definition is_settled (state : snapshot) : bool :=
  match state with
  | Now _ | Later (Fulfilled _) => true
  | Later _ => false
  end.

(** The snapshot [getState] returns for what [getItem] returned. *)
Definition state_of (r : getItemResult) : snapshot :=
  match r with
  | GItem (IString s) => Now (parsed (IString s))
  | GPromise p => Later p
  | _ => Now (VObj [])
  end.

(** A mapping that does not hide the method [hasOwnProperty]. *)
Definition plain_mapping (v : value) : bool :=
  match v with
  | VObj ps => negb (obj_has "hasOwnProperty" ps)
  | _ => false
  end.

(** The text is read as such a mapping: it is the text of an object
    without an entry named [hasOwnProperty], or it does not parse. *)
Definition mapping_text (t : string) : bool :=
  plain_mapping (snapshot_of (IString t)).

(** A continuation that will find such a mapping when it runs. *)
Definition steady_task (c : closure) (t : task) : Prop :=
  task_closure t = c /\
  match t with
  | InitThen _ _ p => is_settled (Later p) = true /\
                      plain_mapping (awaited (Later p)) = true
  | SetResume _ node _ state => is_settled state = true /\
                                plain_mapping (awaited state) = true /\
                                node <> "hasOwnProperty"
  end.

(** A step of a session that does not create an entry named
    [hasOwnProperty]. *)
Definition plain_action (a : action) : Prop :=
  match a with
  | External node _ => node <> "hasOwnProperty"
  | _ => True
  end.

(** The stored content is read as such a mapping; a synchronous backend may
    also hold nothing. *)
Definition stored_mapping (c : closure) (async : bool) (w : world) : Prop :=
  match contents (c_backend c) w (c_key c) with
  | Some t => mapping_text t = true
  | None => async = false
  end.

(** The stored content is read as a mapping that does not hide
    [hasOwnProperty], and so is the snapshot of every waiting
    continuation. *)
Definition steady (c : closure) (async : bool) (w : world) : Prop :=
  stored_mapping c async w /\ Forall (steady_task c) (queue w).

(** An unhandled rejection, or a step outside the model. *)
Definition is_failure (e : event) : bool :=
  match e with
  | Unhandled _ | OutsideModel => true
  | _ => false
  end.

Definition is_SetItem (e : event) : bool :=
  match e with SetItem _ _ _ => true | _ => false end.

(** What the world keeps of the writes made so far: the two stores, the
    calls of the key function and the calls of [setItem]. *)
Definition written (w : world) : store * store * nat * list event :=
  (supplied w, platform w, key_calls w, filter is_SetItem (trace w)).

Definition add_events (evs : list event) (w : world) : world :=
  fold_left (fun w e => add_event e w) evs w.

(** The world after [setState] wrote [text], whatever the backend does. *)
Definition after_setItem (c : closure) (text : string) (w : world) : world :=
  let out := setItem (c_storage c) (c_key c) text (contents (c_backend c) w) in
  add_events (write_outcome (fst out))
    (with_contents (c_backend c) (snd out)
       (add_event (SetItem (c_backend c) (c_key c) text) w)).

(** [w'] comes after [w] by events that all satisfy [P]. *)
Definition adds (P : event -> Prop) (w w' : world) : Prop :=
  exists evs, trace w' = trace w ++ evs /\ Forall P evs.

(** A continuation that waits for a promise fulfilled with [null]. *)
Definition barren_task (c : closure) (t : task) : Prop :=
  task_closure t = c /\
  match t with
  | InitThen _ _ p => p = Fulfilled INull
  | SetResume _ _ _ state => state = Later (Fulfilled INull)
  end.

(** The backend answers a read with a promise fulfilled with [null], and
    every waiting continuation waits for such a promise. *)
Definition barren (c : closure) (w : world) : Prop :=
  getItem (c_storage c) (c_key c) (contents (c_backend c) w) =
    GPromise (Fulfilled INull) /\
  Forall (barren_task c) (queue w).

(** Neither a write nor a value pushed into an atom. *)
Definition is_idle (e : event) : bool :=
  negb (is_SetItem e) && negb (is_SetSelf e).

(** The world after the body of the [onSet] callback ran on the mapping
    [ps]: the test throws, or [JSON.stringify] throws inside [setState], or
    the updated mapping is written. *)
Definition after_set (c : closure) (node : string) (v : value) (ps : props)
  (w : world) : world :=
  if test_throws v ps then add_event (Unhandled InOnSet) w
  else if JSON.stringify_throws (VObj (next_props c node v ps))
       then add_event ConsoleError w
       else after_setItem c (JSON_stringify (VObj (next_props c node v ps))) w.

(** A set on the atom [node], run to its end. *)
Definition set_atom (c : closure) (node : string) (v : value) (w : world) :
  world :=
  drain (snd (onSet_callback c node v w)).

(** An initialisation of the atom [node], run to its end. *)
Definition init_atom (c : closure) (node : string) (w : world) : world :=
  drain (snd (persistAtom (Persist c) node TriggerGet w)).

(** ** The codec round trip *)

Module JSONFacts.
Import JSON.
Local Open Scope list_scope.

(** *** Numbers *)

Lemma digit_print_uint (d : Decimal.uint) (rest : chars) :
  match rest with c :: _ => is_digit c = false | [] => True end ->
  read_uint (print_uint d ++ rest) = (d, rest).
Proof.
  intros Hrest.
  induction d; simpl; try (rewrite IHd; reflexivity).
  destruct rest as [|c r]; [reflexivity|].
  unfold is_digit in Hrest. simpl.
  destruct (digit c); [discriminate|reflexivity].
Qed.

Lemma uint_eqb_refl (d : Decimal.uint) : uint_eqb d d = true.
Proof. induction d; simpl; auto. Qed.

Lemma to_uint_normal (n : N) : Decimal.unorm (N.to_uint n) = N.to_uint n.
Proof.
  rewrite <- (DecimalN.Unsigned.to_of (N.to_uint n)).
  now rewrite DecimalN.Unsigned.of_to.
Qed.

Lemma ends_number_stops (rest : chars) :
  ends_number rest = true -> stops rest.
Proof.
  destruct rest as [|c r]; simpl; [trivial|].
  intros H. apply negb_true_iff in H.
  repeat (apply orb_false_iff in H; destruct H as [H ?]). exact H.
Qed.

Lemma parse_print_N (n : N) (rest : chars) :
  stops rest -> parse_N (print_N n ++ rest) = Some (n, rest).
Proof.
  intros Hrest. unfold parse_N, print_N.
  rewrite digit_print_uint by exact Hrest.
  rewrite to_uint_normal, uint_eqb_refl.
  now rewrite DecimalN.Unsigned.of_to.
Qed.

(** The first character of a printed natural number is a digit. *)
Lemma print_N_head (n : N) :
  exists c t, print_N n = c :: t /\ is_digit c = true.
Proof.
  unfold print_N.
  assert (Hnn : N.to_uint n <> Decimal.Nil).
  { destruct n; simpl; [discriminate|].
    apply DecimalPos.Unsigned.to_uint_nonnil. }
  destruct (N.to_uint n); try congruence; simpl; eauto.
Qed.

Lemma print_uint_head (d : Decimal.uint) :
  d <> Decimal.Nil -> exists c t, print_uint d = c :: t /\ is_digit c = true.
Proof. destruct d; try congruence; simpl; eauto. Qed.

Lemma nonnil_not_nil (d : Decimal.uint) : nonnil d <> Decimal.Nil.
Proof. destruct d; discriminate. Qed.

Lemma digit_not_sign (c : ascii) :
  is_digit c = true ->
  Ascii.eqb c "-" = false /\ Ascii.eqb c "+" = false.
Proof.
  destruct c as [[] [] [] [] [] [] [] []]; cbv; intros; split; congruence.
Qed.

Lemma stops_frac (f : Decimal.uint) (rest : chars) :
  stops rest -> stops (print_frac f ++ rest).
Proof. destruct f; simpl; auto. Qed.

Lemma stops_exp (e : exponent) (rest : chars) :
  stops rest -> stops (print_exp e ++ rest).
Proof. destruct e; simpl; auto. Qed.

Lemma parse_print_frac (f : Decimal.uint) (rest : chars) :
  stops rest ->
  match rest with c :: _ => Ascii.eqb c "." = false | [] => True end ->
  parse_frac (print_frac f ++ rest) = Some (f, rest).
Proof.
  intros Hs Hp.
  assert (Hnil : parse_frac rest = Some (Decimal.Nil, rest)).
  { destruct rest as [|c r]; simpl; [reflexivity|]. now rewrite Hp. }
  destruct f; try exact Hnil;
    unfold print_frac, parse_frac; cbn [app Ascii.eqb Bool.eqb];
    rewrite digit_print_uint by exact Hs; reflexivity.
Qed.

Lemma parse_exp_e (cs : chars) :
  parse_exp ("e"%char :: cs) =
  let (sg, r1) := parse_sign cs in
  match read_uint r1 with
  | (Decimal.Nil, _) => None
  | (d, r2) => Some (Exp sg d, r2)
  end.
Proof. reflexivity. Qed.

Lemma parse_print_sign (sg : option bool) (d : Decimal.uint) (rest : chars) :
  d <> Decimal.Nil ->
  parse_sign (print_sign sg ++ print_uint d ++ rest) =
  (sg, print_uint d ++ rest).
Proof.
  intros Hd. destruct sg as [[|]|]; try reflexivity.
  destruct (print_uint_head d Hd) as (c & t & Heq & Hc).
  destruct (digit_not_sign c Hc) as [Hm Hp].
  rewrite Heq. simpl. now rewrite Hp, Hm.
Qed.

Lemma parse_print_exp (e : exponent) (rest : chars) :
  ends_number rest = true ->
  parse_exp (print_exp e ++ rest) = Some (normal_exp e, rest).
Proof.
  intros Hrest. pose proof (ends_number_stops rest Hrest) as Hs.
  destruct e as [|sg d].
  - destruct rest as [|c r]; simpl; [reflexivity|].
    simpl in Hrest. apply negb_true_iff in Hrest.
    repeat (apply orb_false_iff in Hrest; destruct Hrest as [Hrest ?]).
    now replace (Ascii.eqb c "e" || Ascii.eqb c "E") with false
      by (symmetry; apply orb_false_iff; now split).
  - pose proof (nonnil_not_nil d) as Hnn.
    unfold print_exp. cbn [app]. rewrite <- app_assoc, parse_exp_e.
    rewrite parse_print_sign by exact Hnn.
    rewrite digit_print_uint by exact Hs.
    cbn [normal_exp]. destruct (nonnil d); congruence.
Qed.

Lemma ends_number_point (rest : chars) :
  ends_number rest = true ->
  match rest with c :: _ => Ascii.eqb c "." = false | [] => True end.
Proof.
  destruct rest as [|c r]; simpl; [trivial|].
  intros H. apply negb_true_iff in H.
  repeat (apply orb_false_iff in H; destruct H as [H ?]). assumption.
Qed.

Lemma exp_not_point (e : exponent) (rest : chars) :
  match rest with c :: _ => Ascii.eqb c "." = false | [] => True end ->
  match print_exp e ++ rest with
  | c :: _ => Ascii.eqb c "." = false
  | [] => True
  end.
Proof. destruct e; simpl; auto. Qed.

(** The round trip of a number literal. *)
Lemma parse_print_real (neg : bool) (w : N) (f : Decimal.uint) (e : exponent)
  (rest : chars) :
  ends_number rest = true ->
  parse_number (print_real neg w f e ++ rest) =
  Some (number neg w f (normal_exp e), rest).
Proof.
  intros Hrest. pose proof (ends_number_stops rest Hrest) as Hs.
  assert (Hbody : forall neg',
    match parse_N (print_N w ++ print_frac f ++ print_exp e ++ rest) with
    | Some (w', r1) =>
        match parse_frac r1 with
        | Some (f', r2) =>
            match parse_exp r2 with
            | Some (e', r3) => Some (number neg' w' f' e', r3)
            | None => None
            end
        | None => None
        end
    | None => None
    end = Some (number neg' w f (normal_exp e), rest)).
  { intros neg'.
    rewrite parse_print_N by (apply stops_frac, stops_exp, Hs).
    rewrite parse_print_frac;
      [|apply stops_exp, Hs|apply exp_not_point, ends_number_point, Hrest].
    now rewrite parse_print_exp. }
  unfold print_real. rewrite <- !app_assoc.
  destruct neg.
  - simpl. apply Hbody.
  - destruct (print_N_head w) as (c & t & Heq & Hc).
    destruct (digit_not_sign c Hc) as [Hm _].
    specialize (Hbody false). cbn [app]. rewrite Heq in *. cbn [app] in *.
    unfold parse_number. rewrite Hm. exact Hbody.
Qed.

Lemma number_integer (z : Z) :
  number (z <? 0)%Z (Z.abs_N z) Decimal.Nil NoExp = VNum z.
Proof.
  unfold number.
  destruct (Z.ltb_spec z 0); cbn [andb].
  - destruct (N.eqb_spec (Z.abs_N z) 0) as [E|_]; [lia|].
    f_equal. rewrite N2Z.inj_abs_N. lia.
  - f_equal. rewrite N2Z.inj_abs_N. lia.
Qed.

(** *** Strings *)

Lemma parse_escape (c : ascii) (cs : chars) :
  parse_string_body (escape c ++ cs) = cons_char c (parse_string_body cs).
Proof.
  destruct c as [[] [] [] [] [] [] [] []]; reflexivity.
Qed.

Lemma parse_print_string_body (s : string) (rest : chars) :
  parse_string_body (escape_all s ++ "034"%char :: rest) = Some (s, rest).
Proof.
  induction s as [|c s IH]; simpl.
  - reflexivity.
  - rewrite <- app_assoc, parse_escape, IH. reflexivity.
Qed.

(** *** Values *)

Lemma digit_opens (c : ascii) :
  is_digit c = true ->
  is_ws c = false /\ Ascii.eqb c "]" = false /\ Ascii.eqb c "}" = false.
Proof.
  destruct c as [[] [] [] [] [] [] [] []]; cbv; intros; auto; congruence.
Qed.

Lemma print_real_head (neg : bool) (w : N) (f : Decimal.uint) (e : exponent) :
  exists c t, print_real neg w f e = c :: t /\
              (is_digit c = true \/ c = "-"%char).
Proof.
  unfold print_real. destruct neg.
  - simpl. eauto.
  - destruct (print_N_head w) as (c & t & -> & Hc). simpl. eauto.
Qed.

Lemma number_opens (cs : chars) :
  (exists c t, cs = c :: t /\ (is_digit c = true \/ c = "-"%char)) ->
  opens_value cs.
Proof.
  intros (c & t & -> & [Hc| ->]); unfold opens_value.
  - destruct (digit_opens c Hc) as (? & ? & ?). eauto 10.
  - do 2 eexists; repeat split; reflexivity.
Qed.

Lemma print_opens (v : value) : opens_value (print v).
Proof.
  destruct v as [| |[]|z|neg w f e|s|xs|ps| |z]; simpl;
    try (unfold opens_value; do 2 eexists; repeat split; reflexivity).
  - apply number_opens, print_real_head.
  - apply number_opens, print_real_head.
Qed.

Lemma skip_ws_opens (cs : chars) : opens_value cs -> skip_ws cs = cs.
Proof. intros (c & t & -> & Hws & _). simpl. now rewrite Hws. Qed.

Lemma parse_value_num (f : nat) (c : ascii) (t : chars) :
  is_digit c = true \/ c = "-"%char ->
  parse_value (S f) (c :: t) = parse_number (c :: t).
Proof.
  intros H.
  destruct c as [[] [] [] [] [] [] [] []];
    try reflexivity; exfalso; destruct H as [H|H]; cbv in H; congruence.
Qed.

Lemma print_elems_ends (xs : list value) (rest : chars) :
  ends_number (print_elems xs ++ "]"%char :: rest) = true.
Proof. destruct xs; reflexivity. Qed.

Lemma parse_print_elems (xs : list value) :
  Forall roundtrip_at xs ->
  forall x, roundtrip_at x ->
  forall acc fuel rest,
    length (print x ++ print_elems xs) < fuel ->
    parse_elements fuel acc (print x ++ print_elems xs ++ "]"%char :: rest)
    = Some (VArr (acc ++ jsonify x :: map jsonify xs), rest).
Proof.
  induction 1 as [|y ys Hy Hys IH]; intros x Hx acc fuel rest Hlen;
    (destruct fuel as [|f]; [lia|]); rewrite length_app in Hlen;
    simpl parse_elements.
  - rewrite Hx; [reflexivity|lia|apply (print_elems_ends [] rest)].
  - rewrite Hx; [|lia|apply (print_elems_ends (y :: ys) rest)].
    simpl. simpl in Hlen. rewrite <- (app_assoc (print y)).
    rewrite IH; [|assumption|lia].
    now rewrite <- app_assoc.
Qed.

Lemma print_members_defined (ps : props) :
  print_members ps = print_members (defined ps).
Proof.
  induction ps as [|[k x] ps IH]; simpl; [reflexivity|].
  destruct (is_undefined x) eqn:Hx; simpl; rewrite ?Hx; [assumption|].
  now rewrite IH.
Qed.

Lemma jsonify_defined (ps : props) (acc : props) :
  fold_left jsonify_step ps acc = fold_left jsonify_step (defined ps) acc.
Proof.
  revert acc. induction ps as [|[k x] ps IH]; intros acc; simpl; [reflexivity|].
  destruct (is_undefined x) eqn:Hx; simpl; rewrite ?Hx; apply IH.
Qed.

Lemma print_members_ends (ps : props) (rest : chars) :
  ends_number (print_members ps ++ "}"%char :: rest) = true.
Proof.
  rewrite print_members_defined.
  destruct (defined ps) as [|[k x] l] eqn:E; [reflexivity|].
  assert (Hin : In (k, x) (defined ps)) by (rewrite E; now left).
  apply filter_In in Hin. destruct Hin as [_ Hx]. simpl in *.
  apply negb_true_iff in Hx. now rewrite Hx.
Qed.

Lemma parse_print_members (ps : props) :
  Forall (fun p => roundtrip_at (snd p)) ps ->
  Forall (fun p => is_undefined (snd p) = false) ps ->
  forall k x, roundtrip_at x ->
  forall acc fuel rest,
    length (print_string k ++ ":"%char :: print x ++ print_members ps) < fuel ->
    parse_members fuel acc
      (print_string k ++ ":"%char :: print x ++ print_members ps
         ++ "}"%char :: rest)
    = Some (VObj (fold_left jsonify_step ps (obj_set k (jsonify x) acc)), rest).
Proof.
  induction 1 as [|[k' y] ys Hy Hys IH]; intros Hdef k x Hx acc fuel rest Hlen;
    (destruct fuel as [|f]; [lia|]);
    unfold print_string in *;
    repeat (rewrite ?length_app in Hlen; simpl in Hlen);
    simpl parse_members; rewrite <- app_assoc; simpl app;
    rewrite parse_print_string_body; simpl skip_ws; simpl.
  - rewrite Hx; [reflexivity|lia|reflexivity].
  - inversion Hdef as [|? ? Hy' Hdef']; subst. simpl in Hy'.
    rewrite Hy' in *.
    repeat (rewrite ?length_app in Hlen; simpl in Hlen).
    rewrite Hx; [|lia|reflexivity].
    specialize (IH Hdef' k' y Hy (obj_set k (jsonify x) acc) f rest).
    unfold print_string in IH.
    repeat (rewrite <- ?app_assoc in IH; simpl in IH).
    repeat (rewrite <- ?app_assoc; simpl).
    rewrite IH; [reflexivity|].
    repeat (rewrite ?length_app; simpl). lia.
Qed.

Lemma defined_all (ps : props) :
  Forall (fun p => is_undefined (snd p) = false) (defined ps).
Proof.
  apply Forall_forall. intros p Hin. apply filter_In in Hin.
  destruct Hin as [_ H]. now apply negb_true_iff in H.
Qed.

Lemma defined_Forall (Q : string * value -> Prop) (ps : props) :
  Forall Q ps -> Forall Q (defined ps).
Proof.
  rewrite !Forall_forall. intros H p Hin. apply H.
  apply filter_In in Hin. tauto.
Qed.

Lemma jsonify_obj (ps : props) :
  jsonify (VObj ps) = VObj (fold_left jsonify_step ps []).
Proof. reflexivity. Qed.

Lemma print_obj (ps : props) :
  print (VObj ps) = "{"%char :: tl (print_members ps) ++ ["}"%char].
Proof. reflexivity. Qed.

Lemma print_arr (xs : list value) :
  print (VArr xs) = "["%char :: tl (print_elems xs) ++ ["]"%char].
Proof. reflexivity. Qed.

Theorem parse_print (v : value) : roundtrip_at v.
Proof.
  induction v using value_rect'; unfold roundtrip_at; intros fuel rest Hlen Hrest.
  - destruct fuel; [simpl in Hlen; lia|reflexivity].
  - destruct fuel; [simpl in Hlen; lia|reflexivity].
  - destruct b; (destruct fuel; [simpl in Hlen; lia|reflexivity]).
  - cbn [print jsonify] in *. unfold print_num in *.
    destruct (print_real_head (z <? 0)%Z (Z.abs_N z) Decimal.Nil NoExp)
      as (c & t & Heq & Hc).
    destruct fuel; [rewrite Heq in Hlen; simpl in Hlen; lia|].
    pose proof (parse_print_real (z <? 0)%Z (Z.abs_N z) Decimal.Nil NoExp
                  rest Hrest) as Hp.
    rewrite Heq in *. cbn [app] in *.
    rewrite parse_value_num by exact Hc. rewrite Hp.
    cbn [normal_exp]. now rewrite number_integer.
  - cbn [print jsonify] in *.
    destruct (print_real_head neg w f e) as (c & t & Heq & Hc).
    destruct fuel; [rewrite Heq in Hlen; simpl in Hlen; lia|].
    pose proof (parse_print_real neg w f e rest Hrest) as Hp.
    rewrite Heq in *. cbn [app] in *.
    now rewrite parse_value_num by exact Hc.
  - destruct fuel; [simpl in Hlen; lia|].
    simpl. rewrite <- app_assoc. simpl.
    now rewrite parse_print_string_body.
  - rewrite print_arr in *. destruct fuel; [simpl in Hlen; lia|].
    destruct xs as [|x xs]; [reflexivity|].
    inversion H as [|? ? Hx Hxs]; subst.
    simpl tl in *. simpl in Hlen. rewrite !length_app in Hlen. simpl in Hlen.
    destruct (print_opens x) as (c & t & Heq & Hws & Hb & _).
    simpl app. rewrite <- !app_assoc.
    pose proof (parse_print_elems xs Hxs x Hx [] fuel rest) as Hp.
    simpl in Hp.
    rewrite Heq in *. simpl. rewrite Hws. simpl. rewrite Hb.
    apply Hp. simpl. rewrite !length_app. simpl in *. lia.
  - rewrite print_obj, jsonify_obj in *.
    rewrite print_members_defined in *. rewrite jsonify_defined.
    pose proof (defined_all ps) as Hdef.
    pose proof (defined_Forall _ ps H) as Hrt.
    destruct fuel; [simpl in Hlen; lia|].
    destruct (defined ps) as [|[k x] l]; [reflexivity|].
    inversion Hdef as [|? ? Hx Hdef']; inversion Hrt as [|? ? Hrx Hrt']; subst.
    simpl in Hx, Hrx.
    pose proof (parse_print_members l Hrt' Hdef' k x Hrx [] fuel rest) as Hp.
    simpl print_members in *. rewrite Hx in *. simpl tl in *.
    simpl in Hlen. rewrite !length_app in Hlen. simpl in Hlen.
    unfold print_string in *.
    repeat (rewrite <- ?app_assoc in Hp; simpl in Hp).
    repeat (rewrite <- ?app_assoc; simpl). rewrite Hx.
    apply Hp.
    repeat (rewrite ?length_app in Hlen; simpl in Hlen).
    repeat (rewrite ?length_app; simpl). lia.
  - destruct fuel; [simpl in Hlen; lia|reflexivity].
  - destruct fuel; [simpl in Hlen; lia|reflexivity].
Qed.

(** *** Own properties *)

Lemma obj_has_get (k : string) (ps : props) :
  obj_has k ps = false <-> obj_get k ps = None.
Proof. unfold obj_has. destruct (obj_get k ps); split; congruence. Qed.

Lemma obj_get_replace_same (k : string) (v : value) (ps : props) :
  obj_has k ps = true -> obj_get k (obj_replace k v ps) = Some v.
Proof.
  unfold obj_has. induction ps as [|[k' v'] ps IH]; simpl; [discriminate|].
  destruct (String.eqb k k') eqn:E; simpl; rewrite ?String.eqb_refl, ?E; auto.
Qed.

Lemma obj_get_replace_other (k k' : string) (v : value) (ps : props) :
  k <> k' -> obj_get k' (obj_replace k v ps) = obj_get k' ps.
Proof.
  intros Hne. induction ps as [|[k1 v1] ps IH]; simpl; [reflexivity|].
  destruct (String.eqb_spec k k1); simpl.
  - subst. destruct (String.eqb_spec k' k1); congruence.
  - now rewrite IH.
Qed.

Lemma obj_replace_names (k : string) (v : value) (ps : props) :
  map fst (obj_replace k v ps) = map fst ps.
Proof.
  induction ps as [|[k1 v1] ps IH]; simpl; [reflexivity|].
  destruct (String.eqb_spec k k1); simpl; [now subst|now rewrite IH].
Qed.

Lemma obj_get_add_same (n : N) (k : string) (v : value) (ps : props) :
  obj_get k ps = None -> obj_get k (obj_add_index n k v ps) = Some v.
Proof.
  induction ps as [|[k1 v1] ps IH]; simpl.
  - now rewrite String.eqb_refl.
  - destruct (String.eqb k k1) eqn:E; [discriminate|]. intros H.
    destruct (array_index k1) as [m|]; [destruct (m <=? n)%N|]; simpl;
      rewrite ?String.eqb_refl, ?E; auto.
Qed.

Lemma obj_get_add_other (n : N) (k k' : string) (v : value) (ps : props) :
  k <> k' -> obj_get k' (obj_add_index n k v ps) = obj_get k' ps.
Proof.
  intros Hne.
  assert (Hk : String.eqb k' k = false)
    by (destruct (String.eqb_spec k' k); congruence).
  induction ps as [|[k1 v1] ps IH]; simpl; [now rewrite Hk|].
  destruct (array_index k1) as [m|]; [destruct (m <=? n)%N|]; simpl;
    rewrite ?Hk, ?IH; reflexivity.
Qed.

Lemma obj_get_app (k : string) (ps qs : props) :
  obj_get k (ps ++ qs) =
  match obj_get k ps with Some x => Some x | None => obj_get k qs end.
Proof.
  induction ps as [|[k1 v1] ps IH]; simpl; [reflexivity|].
  destruct (String.eqb k k1); [reflexivity|exact IH].
Qed.

Lemma obj_get_set_same (k : string) (v : value) (ps : props) :
  obj_get k (obj_set k v ps) = Some v.
Proof.
  unfold obj_set. destruct (obj_has k ps) eqn:E.
  - now apply obj_get_replace_same.
  - apply obj_has_get in E. destruct (array_index k).
    + now apply obj_get_add_same.
    + rewrite obj_get_app, E. simpl. now rewrite String.eqb_refl.
Qed.

Lemma obj_get_set_other (k k' : string) (v : value) (ps : props) :
  k <> k' -> obj_get k' (obj_set k v ps) = obj_get k' ps.
Proof.
  intros Hne. unfold obj_set. destruct (obj_has k ps).
  - now apply obj_get_replace_other.
  - destruct (array_index k).
    + now apply obj_get_add_other.
    + rewrite obj_get_app. destruct (obj_get k' ps); [reflexivity|].
      simpl. destruct (String.eqb_spec k' k); congruence.
Qed.

Lemma obj_get_delete_same (k : string) (ps : props) :
  obj_get k (obj_delete k ps) = None.
Proof.
  induction ps as [|[k1 v1] ps IH]; simpl; [reflexivity|].
  destruct (String.eqb k k1) eqn:E; simpl; rewrite ?E; assumption.
Qed.

Lemma obj_get_delete_other (k k' : string) (ps : props) :
  k <> k' -> obj_get k' (obj_delete k ps) = obj_get k' ps.
Proof.
  intros Hne. induction ps as [|[k1 v1] ps IH]; simpl; [reflexivity|].
  destruct (String.eqb_spec k k1); simpl.
  - subst. destruct (String.eqb_spec k' k1); congruence.
  - now rewrite IH.
Qed.

Lemma obj_get_absent (k : string) (ps : props) :
  ~ In k (map fst ps) -> obj_get k ps = None.
Proof.
  induction ps as [|[k1 v1] ps IH]; simpl; [reflexivity|].
  intros Hnin. destruct (String.eqb_spec k k1) as [->|Hne].
  - exfalso. apply Hnin. now left.
  - apply IH. intros Hin. apply Hnin. now right.
Qed.

Lemma obj_get_present (k : string) (ps : props) :
  In k (map fst ps) -> obj_get k ps <> None.
Proof.
  induction ps as [|[k1 v1] ps IH]; simpl; [tauto|].
  intros [->|Hin]; [now rewrite String.eqb_refl|].
  destruct (String.eqb k k1); [discriminate|auto].
Qed.

Lemma obj_add_index_names (n : N) (k : string) (v : value) (ps : props) :
  Add k (map fst ps) (map fst (obj_add_index n k v ps)).
Proof.
  induction ps as [|[k1 v1] ps IH]; simpl; [constructor|].
  destruct (array_index k1) as [m|]; [destruct (m <=? n)%N|]; simpl;
    constructor. exact IH.
Qed.

(** A new name is added to the names of the object. *)
Lemma obj_set_names (k : string) (v : value) (ps : props) :
  obj_has k ps = false ->
  Add k (map fst ps) (map fst (obj_set k v ps)).
Proof.
  intros H. unfold obj_set. rewrite H. destruct (array_index k).
  - apply obj_add_index_names.
  - rewrite map_app. simpl.
    rewrite <- (List.app_nil_r (map fst ps)) at 1. apply Add_app.
Qed.

Lemma obj_set_keys (k k' : string) (v : value) (ps : props) :
  In k' (map fst (obj_set k v ps)) -> k' = k \/ In k' (map fst ps).
Proof.
  destruct (obj_has k ps) eqn:E.
  - unfold obj_set. rewrite E, obj_replace_names. tauto.
  - intros Hin. apply (Add_in (obj_set_names k v ps E)) in Hin.
    destruct Hin; auto.
Qed.

Lemma obj_set_distinct (k : string) (v : value) (ps : props) :
  distinct_names ps -> distinct_names (obj_set k v ps).
Proof.
  unfold distinct_names. intros Hnd. destruct (obj_has k ps) eqn:E.
  - unfold obj_set. now rewrite E, obj_replace_names.
  - apply (NoDup_Add (obj_set_names k v ps E)). split; [exact Hnd|].
    intros Hin. apply obj_get_present in Hin. apply obj_has_get in E.
    congruence.
Qed.

Lemma obj_delete_distinct (k : string) (ps : props) :
  distinct_names ps -> distinct_names (obj_delete k ps).
Proof.
  unfold distinct_names, obj_delete.
  induction ps as [|[k1 v1] ps IH]; simpl; intros Hnd; [constructor|].
  inversion Hnd as [|? ? Hnin Hnd']; subst.
  destruct (String.eqb k k1); simpl; [auto|].
  constructor; [|auto].
  intros Hin. apply Hnin. apply in_map_iff in Hin.
  destruct Hin as (p & <- & Hp). apply filter_In in Hp.
  apply in_map. tauto.
Qed.

(** A property of an object with distinct names, after the round trip. *)
Lemma obj_get_jsonify (k : string) (ps acc : props) :
  distinct_names ps ->
  obj_get k (fold_left jsonify_step ps acc) =
  match obj_get k ps with
  | Some x => if is_undefined x then obj_get k acc else Some (jsonify x)
  | None => obj_get k acc
  end.
Proof.
  unfold distinct_names. revert acc.
  induction ps as [|[k1 x1] ps IH]; intros acc Hnd; simpl; [reflexivity|].
  inversion Hnd as [|? ? Hnin Hnd']; subst.
  rewrite IH by assumption.
  destruct (String.eqb_spec k k1) as [->|Hne].
  - rewrite (obj_get_absent k1 ps Hnin).
    destruct (is_undefined x1); [reflexivity|apply obj_get_set_same].
  - destruct (is_undefined x1); [reflexivity|].
    rewrite obj_get_set_other by congruence. reflexivity.
Qed.

(** *** What the parser builds *)

Ltac break_match H :=
  match type of H with
  | context [match ?x with _ => _ end] => destruct x eqn:?
  | context [if ?x then _ else _] => destruct x eqn:?
  end.

Lemma parse_elements_array (fuel : nat) :
  forall acc cs v r,
    parse_elements fuel acc cs = Some (v, r) -> exists xs, v = VArr xs.
Proof.
  induction fuel as [|f IH]; intros acc cs v r H; [discriminate|].
  simpl in H. repeat break_match H; try discriminate.
  - eapply IH; eassumption.
  - inversion H; eauto.
Qed.

Lemma parse_members_distinct (fuel : nat) :
  forall acc cs v r,
    distinct_names acc ->
    parse_members fuel acc cs = Some (v, r) ->
    exists ps, v = VObj ps /\ distinct_names ps.
Proof.
  induction fuel as [|f IH]; intros acc cs v r Hacc H; [discriminate|].
  simpl in H. repeat break_match H; try discriminate.
  - eapply IH; [|eassumption]. now apply obj_set_distinct.
  - inversion H; subst. eexists; split; [reflexivity|].
    now apply obj_set_distinct.
Qed.

Lemma parse_value_distinct (fuel : nat) (cs r : chars) (ps : props) :
  parse_value fuel cs = Some (VObj ps, r) -> distinct_names ps.
Proof.
  destruct fuel as [|f]; intros H; [discriminate|].
  simpl in H. repeat break_match H; try discriminate;
    try (inversion H; subst; constructor).
  - apply parse_members_distinct in H; [|constructor].
    destruct H as (ps' & Heq & Hd). now inversion Heq; subst.
  - apply parse_elements_array in H. destruct H as (xs & Heq). discriminate.
  - unfold number in H. repeat break_match H; discriminate.
Qed.

End JSONFacts.

(** [JSON.parse (JSON.stringify v)] is [jsonify v]. *)
Lemma JSON_parse_stringify (v : value) :
  JSON_parse (JSON_stringify v) = Some (JSON.jsonify v).
Proof.
  unfold JSON_parse, JSON_stringify.
  rewrite list_ascii_of_string_of_list_ascii.
  pose proof (JSONFacts.parse_print v
                (2 * List.length (JSON.print v) + 2) [] ) as H.
  rewrite List.app_nil_r in H. rewrite H; [reflexivity|lia|reflexivity].
Qed.

(** The object [JSON.parse] returns has distinct names. *)
Lemma JSON_parse_distinct (s : string) (ps : props) :
  JSON_parse s = Some (VObj ps) -> JSON.distinct_names ps.
Proof.
  unfold JSON_parse. intros H.
  destruct (JSON.parse_value _ _) as [[v r]|] eqn:E; [|discriminate].
  destruct (JSON.skip_ws r); [|discriminate].
  inversion H; subst. eapply JSONFacts.parse_value_distinct; eassumption.
Qed.

(** ** The effect: what every step of a closure preserves *)

Module Frame.

Lemma extends_refl (c : closure) (w : world) : extends c w w.
Proof.
  constructor; auto. exists []. now rewrite List.app_nil_r.
Qed.

Lemma extends_trans (c : closure) (w1 w2 w3 : world) :
  extends c w1 w2 -> extends c w2 w3 -> extends c w1 w3.
Proof.
  intros [(e1 & T1 & A1) C1 O1 Q1] [(e2 & T2 & A2) C2 O2 Q2].
  constructor; try congruence; auto.
  exists (e1 ++ e2). split.
  - now rewrite T2, T1, List.app_assoc.
  - apply Forall_app. now split.
Qed.

Lemma extends_add_event (c : closure) (e : event) (w : world) :
  addressed (c_backend c) (c_key c) e -> extends c w (add_event e w).
Proof.
  intros He. constructor.
  - exists [e]. split; [reflexivity|]. now constructor.
  - reflexivity.
  - now destruct (c_backend c).
  - trivial.
Qed.

Lemma extends_enqueue (c : closure) (t : task) (w : world) :
  task_closure t = c -> extends c w (enqueue t w).
Proof.
  intros Ht. constructor.
  - exists []. simpl. now rewrite List.app_nil_r.
  - reflexivity.
  - now destruct (c_backend c).
  - unfold owned. simpl. intros H. apply Forall_app. split; [assumption|].
    now constructor.
Qed.

Lemma extends_with_contents (c : closure) (st : store) (w : world) :
  extends c w (with_contents (c_backend c) st w).
Proof.
  constructor.
  - exists []. destruct (c_backend c); simpl; now rewrite List.app_nil_r.
  - now destruct (c_backend c).
  - now destruct (c_backend c).
  - now destruct (c_backend c).
Qed.

Lemma extends_with_queue (c : closure) (w : world) :
  extends c w (with_queue [] w).
Proof.
  constructor.
  - exists []. simpl. now rewrite List.app_nil_r.
  - reflexivity.
  - now destruct (c_backend c).
  - intros _. constructor.
Qed.

Lemma preserves_ret {A} (c : closure) (a : A) : preserves c (ret a).
Proof. intros w. apply extends_refl. Qed.

Lemma preserves_lift {A} (c : closure) (r : completion A) :
  preserves c (lift r).
Proof. intros w. apply extends_refl. Qed.

Lemma preserves_bind {A B} (c : closure) (m : M A) (f : A -> M B) :
  preserves c m -> (forall a, preserves c (f a)) -> preserves c (bind m f).
Proof.
  intros Hm Hf w. unfold bind. specialize (Hm w).
  destruct (m w) as [[a|e|] w']; simpl in *; auto.
  eapply extends_trans; [exact Hm|apply Hf].
Qed.

Lemma preserves_log (c : closure) (e : event) :
  addressed (c_backend c) (c_key c) e -> preserves c (log e).
Proof. intros He w. now apply extends_add_event. Qed.

Lemma preserves_defer (c : closure) (t : task) :
  task_closure t = c -> preserves c (defer t).
Proof. intros Ht w. now apply extends_enqueue. Qed.

Lemma preserves_put_contents (c : closure) (st : store) :
  preserves c (put_contents (c_backend c) st).
Proof. intros w. apply extends_with_contents. Qed.

Ltac frame :=
  repeat first
    [ apply preserves_bind; [|intros ?]
    | apply preserves_ret | apply preserves_lift
    | apply preserves_log; simpl; now auto
    | apply preserves_defer; reflexivity
    | apply preserves_put_contents ].

Lemma preserves_parseState (c : closure) (i : item) :
  preserves c (parseState i).
Proof.
  destruct i as [| |s]; simpl.
  - destruct (JSON_parse "null"); frame.
  - frame.
  - destruct (JSON_parse s); frame.
Qed.

Lemma preserves_getState (c : closure) : preserves c (getState c).
Proof.
  unfold getState. apply preserves_bind; [frame|]. intros _ w.
  destruct (getItem _ _ _) as [[| |s]|p| |];
    try apply extends_refl.
  apply (preserves_bind c (parseState (IString s))); [|intros ?; frame].
  apply preserves_parseState.
Qed.

Lemma preserves_setState (c : closure) (state : value) :
  preserves c (setState c state).
Proof.
  assert (H : preserves c
    (log (SetItem (c_backend c) (c_key c) (JSON_stringify state)) ;;;
     fun w =>
       let (r, st) := setItem (c_storage c) (c_key c) (JSON_stringify state)
                              (contents (c_backend c) w) in
       (put_contents (c_backend c) st ;;;
        match r with
        | SVoid => ret tt
        | SThrow => log ConsoleError
        | SPromise Rejected => log (Unhandled InSetItem)
        | SPromise _ => ret tt
        end) w)).
  { apply preserves_bind; [frame|]. intros _ w.
    destruct (setItem _ _ _ _) as [r st].
    apply (preserves_bind c (put_contents (c_backend c) st)); [frame|].
    intros _. destruct r as [|[| |]|]; frame. }
  unfold setState.
  destruct state; try (destruct (JSON.stringify_throws _); [frame|exact H]).
  frame.
Qed.

Lemma preserves_push_stored (c : closure) (node : string) (s : value) :
  preserves c (push_stored c node s).
Proof. unfold push_stored. frame. destruct a; frame. Qed.

Lemma preserves_await (c : closure) (state : snapshot) :
  preserves c (await state).
Proof.
  destruct state as [s|[i| |]]; simpl; frame.
  apply preserves_parseState.
Qed.

Lemma preserves_onSet_body (c : closure) (node : string) (v s : value) :
  preserves c (onSet_body c node v s).
Proof.
  unfold onSet_body. apply preserves_bind.
  - destruct (is_DefaultValue v); frame.
  - intros has. apply preserves_bind; [frame|].
    intros ?. apply preserves_setState.
Qed.

Lemma preserves_persistAtom (c : closure) (node : string) (t : trigger) :
  preserves c (persistAtom (Persist c) node t).
Proof.
  simpl. apply preserves_bind; [|intros ?; frame].
  destruct t; [|frame].
  apply preserves_bind; [apply preserves_getState|].
  intros [s|p]; [|frame].
  apply preserves_bind; [frame|]. intros _. apply preserves_push_stored.
Qed.

Lemma preserves_onSet_callback (c : closure) (node : string) (v : value) :
  preserves c (onSet_callback c node v).
Proof.
  intros w. unfold onSet_callback.
  pose proof (preserves_getState c w) as H.
  destruct (getState c w) as [[s|e|] w']; simpl in *;
    (eapply extends_trans; [exact H|]).
  - now apply extends_enqueue.
  - now apply extends_add_event.
  - now apply extends_add_event.
Qed.

Lemma extends_run_async (c : closure) (o : origin) (m : M unit) (w : world) :
  preserves c m -> extends c w (run_async o m w).
Proof.
  intros Hm. unfold run_async. specialize (Hm w).
  destruct (m w) as [[[]|e|] w']; simpl in *; auto;
    (eapply extends_trans; [exact Hm|]); now apply extends_add_event.
Qed.

Lemma extends_run_task (c : closure) (t : task) (w : world) :
  task_closure t = c -> extends c w (run_task t w).
Proof.
  intros Ht. destruct t as [c' node p|c' node v st]; simpl in Ht; subst c';
    unfold run_task; apply extends_run_async.
  - apply preserves_bind; [apply (preserves_await c (Later p))|].
    intros [s|]; [apply preserves_push_stored|frame].
  - apply preserves_bind; [apply preserves_await|].
    intros [s|]; [apply preserves_onSet_body|frame].
Qed.

Lemma extends_tasks (c : closure) (ts : list task) :
  Forall (fun t => task_closure t = c) ts ->
  forall w, extends c w (fold_left (fun w t => run_task t w) ts w).
Proof.
  induction 1 as [|t ts Ht Hts IH]; intros w; simpl.
  - apply extends_refl.
  - eapply extends_trans; [apply extends_run_task; exact Ht|apply IH].
Qed.

Lemma extends_drain (c : closure) (w : world) :
  owned c w -> extends c w (drain w).
Proof.
  intros Ho. unfold drain.
  eapply extends_trans; [apply extends_with_queue|].
  now apply extends_tasks.
Qed.

Lemma extends_step (c : closure) (a : action) (w : world) :
  owned c w -> extends c w (step (Persist c) a w).
Proof.
  intros Ho. destruct a as [node t|node v|].
  - apply preserves_persistAtom.
  - apply preserves_onSet_callback.
  - now apply extends_drain.
Qed.

Lemma extends_run (c : closure) (actions : list action) :
  forall w, owned c w -> extends c w (run (Persist c) actions w).
Proof.
  induction actions as [|a l IH]; intros w Ho; simpl.
  - apply extends_refl.
  - pose proof (extends_step c a w Ho) as Hs.
    eapply extends_trans; [exact Hs|].
    apply IH. now apply (ext_queue _ _ _ Hs).
Qed.

End Frame.

(** ** Construction *)

Lemma recoilPersist_degraded (env : environment)
  (config : option PersistConfiguration) (settings : option PersistSetting)
  (w : world) :
  window env = false ->
  recoilPersist env config settings w = (Normal NoEffect, w).
Proof. intros H. unfold recoilPersist. now rewrite H. Qed.

Lemma recoilPersist_effect (env : environment)
  (config : option PersistConfiguration) (settings : option PersistSetting)
  (w w' : world) (c : closure) :
  recoilPersist env config settings w = (Normal (Persist c), w') ->
  window env = true /\
  (c_key c, w') =
    match configured_key config with
    | Some (KeyFunction f) => (Some (f (key_calls w)), count_key_call w)
    | Some (KeyString s) => (Some s, w)
    | None => (None, w)
    end /\
  (c_backend c, c_storage c) =
    match config with
    | Some {| storage := Some st |} => (Supplied, st)
    | _ => match localStorage env with
           | Some st => (Platform, st)
           | None => (c_backend c, c_storage c)
           end
    end.
Proof.
  unfold recoilPersist. destruct (window env); simpl; [|discriminate].
  intros H. split; [reflexivity|].
  destruct config as [[k [st|]]|]; simpl in *;
    try (destruct (localStorage env) as [ls|]; simpl in *; [|discriminate]);
    unfold bind, getKey in H; simpl in H;
    try (destruct k as [[s|f]|]; simpl in H);
    inversion H; subst; simpl; auto.
Qed.

Lemma run_NoEffect (actions : list action) :
  forall w, queue w = [] ->
    trace (run NoEffect actions w) = trace w /\
    queue (run NoEffect actions w) = [].
Proof.
  induction actions as [|a l IH]; intros w Hq; simpl; [auto|].
  destruct a as [node t|node v|]; simpl; try now apply IH.
  unfold drain. rewrite Hq. simpl.
  destruct (IH (with_queue [] w) eq_refl) as [Ht Hq']. now rewrite Ht, Hq'.
Qed.

(** C3, as the specification states it, fails: the module does not test
    whether a storage is available.  With a [window] global, no [storage]
    in the configuration and no global [localStorage], the construction
    throws a [ReferenceError] and returns no effect at all. *)
Lemma construction_throws_without_any_storage :
  recoilPersist {| window := true; localStorage := None |} None None initial
  = (Throw ReferenceError, initial).
Proof. reflexivity. Qed.

(** C3, amended.  In the degraded mode, which the module enters exactly
    when there is no [window] global, building the effect returns normally
    and attaching it to any atom, under any trigger, returns normally and
    leaves the world as it was: no [getItem], no [setItem], no [setSelf], no
    subscription, no exception.  Nothing the engine does afterwards adds an
    event. *)
Theorem degraded_mode_is_inert (env : environment)
  (config : option PersistConfiguration) (settings : option PersistSetting)
  (w : world) :
  window env = false ->
  exists eff,
    recoilPersist env config settings w = (Normal eff, w) /\
    (forall node t w', persistAtom eff node t w' = (Normal tt, w')) /\
    (forall actions w',
       queue w' = [] -> trace (run eff actions w') = trace w').
Proof.
  intros Hw. exists NoEffect. split; [|split].
  - now apply recoilPersist_degraded.
  - reflexivity.
  - intros actions w' Hq. now apply run_NoEffect.
Qed.

Lemma degraded_mode_is_inert_witness :
  exists eff,
    recoilPersist server None None initial = (Normal eff, initial) /\
    (forall node t w', persistAtom eff node t w' = (Normal tt, w')) /\
    (forall actions w',
       queue w' = [] -> trace (run eff actions w') = trace w').
Proof.
  apply (degraded_mode_is_inert server None None initial). reflexivity.
Defined.

(** C10. When the configuration has no [key] field, the key the effect is
    built with is [undefined]: no default is put in its place.  Whatever the
    engine then does with the effect, every [getItem] and every [setItem]
    call is passed [undefined] as its key. *)
Theorem omitted_key_is_undefined (env : environment)
  (config : option PersistConfiguration) (settings : option PersistSetting)
  (w w' : world) (eff : AtomEffect) :
  configured_key config = None ->
  recoilPersist env config settings w = (Normal eff, w') ->
  match eff with Persist c => c_key c = None | NoEffect => True end /\
  forall actions w1,
    effect_owned eff w1 ->
    exists evs,
      trace (run eff actions w1) = trace w1 ++ evs /\
      Forall (passes_key None) evs.
Proof.
  intros Hk Hr. destruct eff as [|c].
  - split; [trivial|]. intros actions w1 Hq. exists [].
    destruct (run_NoEffect actions w1 Hq) as [Ht _].
    rewrite Ht, List.app_nil_r. auto.
  - apply recoilPersist_effect in Hr. destruct Hr as (_ & Hkey & _).
    rewrite Hk in Hkey. inversion Hkey as [[Hc Hw]].
    split; [reflexivity|]. intros actions w1 Ho.
    destruct (Frame.extends_run c actions w1 Ho) as [(evs & Ht & Ha) _ _ _].
    exists evs. split; [assumption|].
    eapply Forall_impl; [|exact Ha].
    intros [] He; simpl in *; try tauto; destruct He; congruence.
Qed.

Lemma omitted_key_is_undefined_witness :
  match Persist {| c_backend := Platform; c_storage := memoryStorage false;
                   c_serialize := None; c_deserialize := None;
                   c_key := None |}
  with Persist c => c_key c = None | NoEffect => True end /\
  forall actions w1,
    effect_owned
      (Persist {| c_backend := Platform; c_storage := memoryStorage false;
                  c_serialize := None; c_deserialize := None;
                  c_key := None |}) w1 ->
    exists evs,
      trace (run (Persist {| c_backend := Platform;
                             c_storage := memoryStorage false;
                             c_serialize := None; c_deserialize := None;
                             c_key := None |}) actions w1) = trace w1 ++ evs /\
      Forall (passes_key None) evs.
Proof.
  apply (omitted_key_is_undefined browser None None initial initial);
    reflexivity.
Defined.

(** C8, as the specification states it, fails in the degraded mode: with no
    [window] global the construction returns before [getKey] is reached, and
    a configured key function is not called at all. *)
Lemma key_function_not_called_in_degraded_mode :
  recoilPersist server
    (Some {| key := Some (KeyFunction counter_key);
             storage := Some (memoryStorage false) |})
    None initial = (Normal NoEffect, initial) /\
  key_calls initial = 0.
Proof. split; reflexivity. Qed.

(** C8, amended.  When the configured key is a function, a construction
    [recoilPersist config settings] that yields a persisting effect (which
    needs a [window] global) calls it exactly once and keeps what it
    returned; a construction that yields the no-op effect or throws does not
    call it.  Attaching the effect to atoms, the [onSet] callbacks and the
    storage accesses never call it again, and every storage call made
    through that effect passes the one resolved key. *)
Theorem key_function_called_once_by_construction (env : environment)
  (cfg : PersistConfiguration) (settings : option PersistSetting)
  (f : nat -> string) (w w' : world) (r : completion AtomEffect) :
  key cfg = Some (KeyFunction f) ->
  recoilPersist env (Some cfg) settings w = (r, w') ->
  match r with
  | Normal (Persist c) =>
      window env = true /\
      key_calls w' = S (key_calls w) /\
      c_key c = Some (f (key_calls w)) /\
      forall actions w1,
        owned c w1 ->
        key_calls (run (Persist c) actions w1) = key_calls w1 /\
        exists evs,
          trace (run (Persist c) actions w1) = trace w1 ++ evs /\
          Forall (passes_key (Some (f (key_calls w)))) evs
  | _ => key_calls w' = key_calls w
  end.
Proof.
  intros Hk Hr. destruct r as [[|c]|e|].
  - unfold recoilPersist in Hr. destruct (window env); simpl in Hr.
    + destruct (storage cfg); [|destruct (localStorage env)];
        unfold bind, lift, getKey in Hr; simpl in Hr;
        rewrite ?Hk in Hr; simpl in Hr; inversion Hr.
    + now inversion Hr.
  - apply recoilPersist_effect in Hr. destruct Hr as (Hw & Hkey & _).
    simpl in Hkey. rewrite Hk in Hkey. inversion Hkey as [[Hc Hw']].
    split; [assumption|]. split; [reflexivity|]. split; [reflexivity|].
    intros actions w1 Hown.
    destruct (Frame.extends_run c actions w1 Hown)
      as [(evs & Ht & Ha) Hcalls _ _].
    split; [exact Hcalls|]. exists evs. split; [assumption|].
    eapply Forall_impl; [|exact Ha].
    intros [] He; simpl in *; try tauto; destruct He; congruence.
  - unfold recoilPersist in Hr. destruct (window env); simpl in Hr.
    + destruct (storage cfg); [|destruct (localStorage env)];
        unfold bind, lift, getKey in Hr; simpl in Hr;
        rewrite ?Hk in Hr; simpl in Hr; inversion Hr; reflexivity.
    + inversion Hr.
  - unfold recoilPersist in Hr. destruct (window env); simpl in Hr.
    + destruct (storage cfg); [|destruct (localStorage env)];
        unfold bind, lift, getKey in Hr; simpl in Hr;
        rewrite ?Hk in Hr; simpl in Hr; inversion Hr.
    + inversion Hr.
Qed.

Lemma key_function_called_once_by_construction_witness :
  let c := {| c_backend := Supplied; c_storage := memoryStorage false;
              c_serialize := None; c_deserialize := None;
              c_key := Some (counter_key 0) |} in
  window browser = true /\
  key_calls (count_key_call initial) = S (key_calls initial) /\
  c_key c = Some (counter_key (key_calls initial)) /\
  forall actions w1,
    owned c w1 ->
    key_calls (run (Persist c) actions w1) = key_calls w1 /\
    exists evs,
      trace (run (Persist c) actions w1) = trace w1 ++ evs /\
      Forall (passes_key (Some (counter_key (key_calls initial)))) evs.
Proof.
  exact (key_function_called_once_by_construction browser
           {| key := Some (KeyFunction counter_key);
              storage := Some (memoryStorage false) |}
           None counter_key initial _ _ eq_refl eq_refl).
Defined.

(** C4, as the specification states it, fails: with no [window] global the
    module enters the degraded mode although the configuration supplies a
    storage backend, and attaching the effect reads nothing from it. *)
Lemma supplied_storage_ignored_without_window :
  let config := Some {| key := Some (KeyString "demo");
                        storage := Some (memoryStorage false) |} in
  recoilPersist server config None initial = (Normal NoEffect, initial) /\
  trace (drain (snd (persistAtom NoEffect "count" TriggerGet initial))) = [].
Proof. split; reflexivity. Qed.

(** C4, amended.  The no-op degraded mode is entered exactly when there is
    no [window] global, whatever the configuration says about storage.  When
    a [window] global exists and the configuration supplies a storage
    backend, the effect is built on that backend whether or not a global
    [localStorage] exists: every read and write it makes goes to the
    supplied backend, and the contents of the platform's store are never
    touched. *)
Theorem degraded_iff_no_window (env : environment)
  (config : option PersistConfiguration) (settings : option PersistSetting)
  (w : world) :
  (fst (recoilPersist env config settings w) = Normal NoEffect <->
   window env = false) /\
  forall cfg st,
    config = Some cfg -> storage cfg = Some st -> window env = true ->
    exists c w',
      recoilPersist env config settings w = (Normal (Persist c), w') /\
      c_backend c = Supplied /\ c_storage c = st /\
      forall actions w1,
        owned c w1 ->
        platform (run (Persist c) actions w1) = platform w1 /\
        exists evs,
          trace (run (Persist c) actions w1) = trace w1 ++ evs /\
          Forall (addressed Supplied (c_key c)) evs.
Proof.
  split.
  - split.
    + intros H. unfold recoilPersist in H.
      destruct (window env); [|reflexivity]. exfalso. simpl in H.
      destruct config as [[k [st|]]|]; simpl in H;
        try (destruct (localStorage env); simpl in H);
        unfold bind, lift, getKey in H; simpl in H;
        try (destruct k as [[s|f]|]; simpl in H); discriminate.
    + intros H. now rewrite recoilPersist_degraded.
  - intros cfg st -> Hst Hw.
    destruct (recoilPersist env (Some cfg) settings w) as [r w'] eqn:E.
    assert (Hr : exists c, r = Normal (Persist c)).
    { unfold recoilPersist in E. rewrite Hw, Hst in E. simpl in E.
      unfold bind, lift, getKey in E. simpl in E.
      destruct (key cfg) as [[s|f]|]; simpl in E; inversion E; eauto. }
    destruct Hr as (c & ->). exists c, w'. split; [reflexivity|].
    apply recoilPersist_effect in E. destruct E as (_ & _ & Hb).
    destruct cfg as [k sto]. simpl in *. subst sto.
    inversion Hb as [[Hb1 Hb2]].
    split; [reflexivity|]. split; [reflexivity|].
    intros actions w1 Hown.
    destruct (Frame.extends_run c actions w1 Hown)
      as [(evs & Ht & Ha) _ Ho _].
    rewrite Hb1 in Ho, Ha. rewrite ?Hb1. split; [exact Ho|].
    exists evs. split; assumption.
Qed.

Lemma degraded_iff_no_window_witness :
  exists c w',
    recoilPersist browser
      (Some {| key := Some (KeyString "demo");
               storage := Some (memoryStorage true) |})
      None initial = (Normal (Persist c), w') /\
    c_backend c = Supplied /\ c_storage c = memoryStorage true /\
    forall actions w1,
      owned c w1 ->
      platform (run (Persist c) actions w1) = platform w1 /\
      exists evs,
        trace (run (Persist c) actions w1) = trace w1 ++ evs /\
        Forall (addressed Supplied (c_key c)) evs.
Proof.
  exact (proj2 (degraded_iff_no_window browser
                  (Some {| key := Some (KeyString "demo");
                           storage := Some (memoryStorage true) |})
                  None initial)
               _ (memoryStorage true) eq_refl eq_refl eq_refl).
Defined.

(** ** Running a callback to its end *)

Lemma with_queue_nil (w : world) : queue w = [] -> with_queue [] w = w.
Proof. destruct w; simpl; intros ->; reflexivity. Qed.

Lemma jskey_eqb_refl (k : jskey) : jskey_eqb k k = true.
Proof. destruct k; simpl; [apply String.eqb_refl|reflexivity]. Qed.

Lemma contents_add_event (b : backend) (e : event) (w : world) :
  contents b (add_event e w) = contents b w.
Proof. now destruct b. Qed.

Lemma contents_with_contents (b : backend) (st : store) (w : world) :
  contents b (with_contents b st w) = st.
Proof. now destruct b. Qed.

Lemma trace_with_contents (b : backend) (st : store) (w : world) :
  trace (with_contents b st w) = trace w.
Proof. now destruct b. Qed.

Lemma queue_with_contents (b : backend) (st : store) (w : world) :
  queue (with_contents b st w) = queue w.
Proof. now destruct b. Qed.

Lemma parseState_queue (i : item) (w : world) :
  queue (snd (parseState i w)) = queue w.
Proof.
  destruct i as [| |s]; simpl; try reflexivity.
  destruct (JSON_parse s); reflexivity.
Qed.

Lemma getState_queue (c : closure) (w : world) :
  queue (snd (getState c w)) = queue w.
Proof.
  unfold getState, bind, log. simpl.
  rewrite contents_add_event.
  destruct (getItem _ _ _) as [[| |s]|p| |]; try reflexivity.
  simpl. destruct (JSON_parse s); reflexivity.
Qed.

(** The callback of an external set, run to its end from a quiet world, is
    the read followed by the body. *)
Lemma onSet_callback_drain (c : closure) (node : string) (v : value)
  (w : world) :
  queue w = [] ->
  drain (snd (onSet_callback c node v w)) =
  run_async InOnSet
    (s <- read c ;;
     match s with
     | Some s => onSet_body c node v s
     | None => ret tt
     end) w.
Proof.
  intros Hq. pose proof (getState_queue c w) as Hq'. rewrite Hq in Hq'.
  unfold onSet_callback, read, run_async, bind at 1 2.
  destruct (getState c w) as [[state|e|] w']; simpl in Hq'.
  - unfold drain, defer. simpl. rewrite Hq'. simpl.
    change (with_queue [] (enqueue (SetResume c node v state) w'))
      with (with_queue [] w').
    rewrite (with_queue_nil w' Hq'). reflexivity.
  - unfold drain, log. simpl. rewrite Hq'. simpl.
    apply with_queue_nil. simpl. assumption.
  - unfold drain, log. simpl. rewrite Hq'. simpl.
    apply with_queue_nil. simpl. assumption.
Qed.

Lemma parseState_eval (i : item) (w : world) :
  parseState i w = (Normal (parsed i), log_if (malformed i) ConsoleError w).
Proof.
  destruct i as [| |s]; try reflexivity.
  simpl. destruct (JSON_parse s); reflexivity.
Qed.

Lemma getState_eval (c : closure) (w : world) :
  getState c w =
  let w1 := add_event (GetItem (c_backend c) (c_key c)) w in
  match getItem (c_storage c) (c_key c) (contents (c_backend c) w) with
  | GThrow => (Throw StorageError, w1)
  | GItem (IString s) =>
      (Normal (Now (parsed (IString s))),
       log_if (malformed (IString s)) ConsoleError w1)
  | GItem _ | GOther => (Normal (Now (VObj [])), w1)
  | GPromise p => (Normal (Later p), w1)
  end.
Proof.
  unfold getState, bind, log. simpl. rewrite contents_add_event.
  destruct (getItem _ _ _) as [[| |s]|p| |]; try reflexivity.
  simpl. destruct (JSON_parse s); reflexivity.
Qed.

Lemma push_stored_eval (c : closure) (node : string) (s : value) (w : world) :
  push_stored c node s w =
  match hasOwnProperty s node with
  | Normal true =>
      (Normal tt,
       add_event (SetSelf node (apply_deserialize c (get_property s node))) w)
  | Normal false => (Normal tt, w)
  | Throw e => (Throw e, w)
  | Outside => (Outside, w)
  end.
Proof.
  unfold push_stored, bind, lift.
  destruct (hasOwnProperty s node) as [[]| |]; reflexivity.
Qed.

Lemma read_delivered (c : closure) (w : world) (i : item) :
  delivers (getItem (c_storage c) (c_key c) (contents (c_backend c) w)) i ->
  read c w = (Normal (Some (snapshot_of i)), after_read c i w).
Proof.
  unfold delivers, read, bind, after_read. rewrite getState_eval. simpl.
  destruct (getItem _ _ _) as [[| |s]|[[| |s]| |]| |]; try tauto;
    intros H; subst i; simpl; try reflexivity.
  - destruct (JSON_parse s); reflexivity.
  - destruct (JSON_parse s); reflexivity.
Qed.

Lemma setSelf_calls_app (a b : list event) :
  setSelf_calls (a ++ b) = setSelf_calls a ++ setSelf_calls b.
Proof. apply filter_app. Qed.

Lemma setSelf_calls_log_if (e : event) (b : bool) (w : world) :
  is_SetSelf e = false ->
  setSelf_calls (trace (log_if b e w)) = setSelf_calls (trace w).
Proof.
  intros He. destruct b; simpl; [|reflexivity].
  rewrite setSelf_calls_app. simpl. rewrite He. apply List.app_nil_r.
Qed.

Lemma setSelf_calls_add_event (e : event) (w : world) :
  setSelf_calls (trace (add_event e w)) =
  setSelf_calls (trace w) ++ (if is_SetSelf e then [e] else []).
Proof. simpl. rewrite setSelf_calls_app. simpl. now destruct (is_SetSelf e). Qed.

Lemma queue_log_if (e : event) (b : bool) (w : world) :
  queue (log_if b e w) = queue w.
Proof. now destruct b. Qed.

(** What the push adds to the [setSelf] calls. *)
Lemma push_stored_setSelf (c : closure) (node : string) (s : value)
  (w : world) :
  setSelf_calls (trace (snd (push_stored c node s w))) =
  setSelf_calls (trace w) ++ init_push c node (Normal (Some s)).
Proof.
  rewrite push_stored_eval. unfold init_push.
  destruct (hasOwnProperty s node) as [[]| |]; simpl;
    rewrite ?setSelf_calls_app, ?List.app_nil_r; reflexivity.
Qed.

Lemma push_stored_queue (c : closure) (node : string) (s : value)
  (w : world) :
  queue (snd (push_stored c node s w)) = queue w.
Proof.
  rewrite push_stored_eval.
  destruct (hasOwnProperty s node) as [[]| |]; reflexivity.
Qed.

Lemma run_async_setSelf (o : origin) (m : M unit) (w : world) :
  setSelf_calls (trace (run_async o m w)) =
  setSelf_calls (trace (snd (m w))).
Proof.
  unfold run_async. destruct (m w) as [[[]|e|] w']; simpl;
    rewrite ?setSelf_calls_app; simpl; rewrite ?List.app_nil_r; reflexivity.
Qed.

Lemma getState_setSelf (c : closure) (w : world) :
  setSelf_calls (trace (snd (getState c w))) = setSelf_calls (trace w).
Proof.
  rewrite getState_eval. cbv zeta.
  destruct (getItem _ _ _) as [[| |s]|p| |]; cbn [snd];
    rewrite ?setSelf_calls_log_if by reflexivity;
    rewrite setSelf_calls_add_event; apply List.app_nil_r.
Qed.

Lemma persistAtom_eval (c : closure) (node : string) (w : world) :
  persistAtom (Persist c) node TriggerGet w =
  match getState c w with
  | (Normal (Now s), w1) =>
      match then_is_function s with
      | Normal _ =>
          match push_stored c node s w1 with
          | (Normal _, w2) => (Normal tt, add_event (OnSet node) w2)
          | (Throw e, w2) => (Throw e, w2)
          | (Outside, w2) => (Outside, w2)
          end
      | Throw e => (Throw e, w1)
      | Outside => (Outside, w1)
      end
  | (Normal (Later p), w1) =>
      (Normal tt, add_event (OnSet node) (enqueue (InitThen c node p) w1))
  | (Throw e, w1) => (Throw e, w1)
  | (Outside, w1) => (Outside, w1)
  end.
Proof.
  unfold persistAtom, bind, lift, defer, log.
  destruct (getState c w) as [[[s|p]|e|] w1]; try reflexivity.
  destruct (then_is_function s); reflexivity.
Qed.

Lemma drain_quiet (w : world) : queue w = [] -> drain w = w.
Proof. intros Hq. unfold drain. rewrite Hq. now apply with_queue_nil. Qed.

(** The [setSelf] calls of an initialisation run to its end depend only on
    what the read comes to. *)
Lemma attach_setSelf_calls (c : closure) (node : string) (w : world) :
  queue w = [] ->
  setSelf_calls
    (trace (drain (snd (persistAtom (Persist c) node TriggerGet w)))) =
  setSelf_calls (trace w) ++ init_push c node (fst (read c w)).
Proof.
  intros Hq. rewrite persistAtom_eval. unfold read, bind.
  pose proof (getState_queue c w) as Hq1. rewrite Hq in Hq1.
  pose proof (getState_setSelf c w) as Hs1.
  destruct (getState c w) as [[[s|p]|e|] w1]; cbn [fst snd] in *.
  - pose proof (push_stored_setSelf c node s w1) as Hp.
    pose proof (push_stored_queue c node s w1) as Hpq.
    rewrite Hq1 in Hpq. rewrite Hs1 in Hp.
    destruct s; cbn [then_is_function];
      try (rewrite drain_quiet by assumption; cbn [snd];
           rewrite Hs1, List.app_nil_r; reflexivity);
      destruct (push_stored c node _ w1) as [[[]|err|] w2]; cbn [fst snd] in *;
      rewrite drain_quiet by assumption; cbn [snd];
      rewrite ?setSelf_calls_add_event; cbn [is_SetSelf];
      rewrite ?List.app_nil_r; rewrite Hp; unfold init_push;
      cbn [hasOwnProperty]; rewrite ?List.app_nil_r; reflexivity.
  - unfold drain. cbn [snd queue add_event enqueue]. rewrite Hq1.
    cbn [app fold_left run_task].
    change (with_queue [] _) with (with_queue [] (add_event (OnSet node) w1)).
    rewrite run_async_setSelf. unfold bind.
    destruct p as [i| |]; cbn [await lift ret fst snd].
    + unfold bind. rewrite !parseState_eval. cbn [fst snd ret].
      rewrite push_stored_setSelf.
      rewrite setSelf_calls_log_if by reflexivity.
      cbn [with_queue trace add_event]. rewrite setSelf_calls_app.
      cbn [setSelf_calls filter is_SetSelf].
      now rewrite List.app_nil_r, Hs1.
    + cbn [with_queue trace add_event]. rewrite setSelf_calls_app.
      cbn [setSelf_calls filter is_SetSelf init_push].
      now rewrite !List.app_nil_r, Hs1.
    + cbn [with_queue trace add_event]. rewrite setSelf_calls_app.
      cbn [setSelf_calls filter is_SetSelf init_push].
      now rewrite !List.app_nil_r, Hs1.
  - rewrite drain_quiet by assumption. cbn [snd init_push].
    now rewrite List.app_nil_r.
  - rewrite drain_quiet by assumption. cbn [snd init_push].
    now rewrite List.app_nil_r.
Qed.

Lemma attach_set_setSelf_calls (c : closure) (node : string) (w : world) :
  queue w = [] ->
  setSelf_calls
    (trace (drain (snd (persistAtom (Persist c) node TriggerSet w)))) =
  setSelf_calls (trace w).
Proof.
  intros Hq.
  change (persistAtom (Persist c) node TriggerSet w)
    with (Normal tt, add_event (OnSet node) w).
  rewrite drain_quiet by exact Hq. cbn [snd].
  rewrite setSelf_calls_add_event. apply List.app_nil_r.
Qed.

Lemma init_push_deserialize (c1 c2 : closure) (node : string)
  (r : completion (option value)) :
  c_deserialize c1 = c_deserialize c2 ->
  init_push c1 node r = init_push c2 node r.
Proof.
  intros H. unfold init_push, apply_deserialize. now rewrite H.
Qed.

(** ** The snapshot reader *)

(** C2, as the specification states it, fails: a stored string that is the
    JSON text of a primitive is parsed to that primitive, and the reader
    returns it as the snapshot. *)
Lemma primitive_text_is_read_as_primitive :
  fst (getState (demo (memoryStorage false) None None) (stored "demo" "5"))
  = Normal (Now (VNum 5)) /\
  is_mapping (VNum 5) = false.
Proof. split; reflexivity. Qed.

(** C2, amended.  The snapshot of a read, by what [getItem] returns.
    Returned at once: [null], [undefined] and a value that is neither a
    string nor a promise give the empty mapping; a string that does not
    parse gives the empty mapping; a string that parses gives the parsed
    value, a mapping for the text of an object (which every blob written by
    [JSON.stringify] from an object is) and a primitive for the text of a
    primitive.  Returned through a promise: the awaited snapshot is what
    [parseState] makes of the value the promise fulfils with, which is as
    above for a string, the empty mapping for [undefined], and [null], not
    the empty mapping, for [null].  A [getItem] that throws and a promise
    that rejects make the read fail; a promise that never settles gives no
    snapshot. *)
Theorem snapshot_is_parsed_content (c : closure) (w : world) :
  match getItem (c_storage c) (c_key c) (contents (c_backend c) w) with
  | GItem INull | GItem IUndefined | GOther
  | GPromise (Fulfilled IUndefined) =>
      fst (read c w) = Normal (Some (VObj []))
  | GPromise (Fulfilled INull) =>
      fst (read c w) = Normal (Some VNull)
  | GItem (IString s) | GPromise (Fulfilled (IString s)) =>
      fst (read c w) =
        Normal (Some match JSON_parse s with
                     | Some x => x
                     | None => VObj []
                     end) /\
      forall ps, s = JSON_stringify (VObj ps) ->
                 exists ps', JSON_parse s = Some (VObj ps')
  | GPromise Unsettled => fst (read c w) = Normal None
  | GThrow | GPromise Rejected => fst (read c w) = Throw StorageError
  end.
Proof.
  unfold read, bind. rewrite getState_eval. cbn zeta.
  destruct (getItem _ _ _) as [[| |s]|[[| |s]| |]| |]; cbn [await];
    unfold bind, lift, ret; rewrite ?parseState_eval; try reflexivity.
  - split; [reflexivity|].
    intros ps ->. rewrite JSON_parse_stringify. eexists. reflexivity.
  - split; [reflexivity|].
    intros ps ->. rewrite JSON_parse_stringify. eexists. reflexivity.
Qed.

(** ** Synchronous and asynchronous backends *)

(** C7. Let one backend hand the stored string over at once and another
    hand the same string over through a promise.  Every snapshot read comes
    to the same value on both, and an initialisation run to its end makes
    the same [setSelf] calls on both. *)
Theorem sync_async_equivalence (c1 c2 : closure) (w : world) (s : string)
  (node : string) (t : trigger) :
  queue w = [] ->
  getItem (c_storage c1) (c_key c1) (contents (c_backend c1) w)
    = GItem (IString s) ->
  getItem (c_storage c2) (c_key c2) (contents (c_backend c2) w)
    = GPromise (Fulfilled (IString s)) ->
  c_deserialize c1 = c_deserialize c2 ->
  fst (read c1 w) = Normal (Some (snapshot_of (IString s))) /\
  fst (read c2 w) = Normal (Some (snapshot_of (IString s))) /\
  setSelf_calls (trace (drain (snd (persistAtom (Persist c1) node t w)))) =
  setSelf_calls (trace (drain (snd (persistAtom (Persist c2) node t w)))).
Proof.
  intros Hq H1 H2 Hd.
  assert (R1 : read c1 w = (Normal (Some (snapshot_of (IString s))),
                            after_read c1 (IString s) w)).
  { apply read_delivered. now rewrite H1. }
  assert (R2 : read c2 w = (Normal (Some (snapshot_of (IString s))),
                            after_read c2 (IString s) w)).
  { apply read_delivered. now rewrite H2. }
  split; [now rewrite R1|]. split; [now rewrite R2|].
  destruct t.
  - rewrite !attach_setSelf_calls by exact Hq.
    rewrite R1, R2. cbn [fst]. f_equal. now apply init_push_deserialize.
  - now rewrite !attach_set_setSelf_calls by exact Hq.
Qed.

Lemma sync_async_equivalence_witness :
  let w := stored "demo" (json "{'count':5}") in
  let c1 := demo (memoryStorage false) None None in
  let c2 := demo (memoryStorage true) None None in
  let v := snapshot_of (IString (json "{'count':5}")) in
  fst (read c1 w) = Normal (Some v) /\
  fst (read c2 w) = Normal (Some v) /\
  setSelf_calls
    (trace (drain (snd (persistAtom (Persist c1) "count" TriggerGet w)))) =
  setSelf_calls
    (trace (drain (snd (persistAtom (Persist c2) "count" TriggerGet w)))).
Proof.
  apply (sync_async_equivalence
           (demo (memoryStorage false) None None)
           (demo (memoryStorage true) None None)
           (stored "demo" (json "{'count':5}")) (json "{'count':5}")
           "count" TriggerGet); reflexivity.
Defined.

(** ** What [JSON.parse] returns *)

Module JSONValues.

Import JSON JSONFacts.

(** *** The order of own properties *)

Lemma not_before_trans (n m : N) (k : string) :
  (n <= m)%N -> not_before m k -> not_before n k.
Proof. unfold not_before. destruct (array_index k); [lia|trivial]. Qed.

Lemma names_ordered_app_name (ks : list string) (k : string) :
  array_index k = None -> names_ordered ks -> names_ordered (ks ++ [k]).
Proof.
  intros Hk. induction ks as [|k1 ks IH]; simpl.
  - intros _. rewrite Hk. repeat constructor.
  - intros [H1 H2]. split; [|auto].
    destruct (array_index k1); apply Forall_app; split; try assumption;
      repeat constructor; [unfold not_before; now rewrite Hk|exact Hk].
Qed.

Lemma names_ordered_add_index (n : N) (k : string) (v : value) (ps : props) :
  array_index k = Some n ->
  names_ordered (map fst ps) ->
  names_ordered (map fst (obj_add_index n k v ps)).
Proof.
  intros Hk. induction ps as [|[k1 v1] ps IH]; simpl.
  - intros _. rewrite Hk. repeat constructor.
  - intros [H1 H2]. destruct (array_index k1) as [m|] eqn:E1.
    + destruct (N.leb_spec m n) as [Hle|Hlt]; simpl; rewrite ?E1, ?Hk.
      * split; [|auto].
        apply Forall_forall. intros x Hx.
        apply (Add_in (obj_add_index_names n k v ps)) in Hx.
        destruct Hx as [<-|Hx].
        -- unfold not_before. now rewrite Hk.
        -- rewrite Forall_forall in H1. auto.
      * repeat split; try assumption. constructor.
        -- unfold not_before. rewrite E1. lia.
        -- eapply Forall_impl; [|exact H1].
           intros x. apply not_before_trans. lia.
    + simpl. rewrite Hk, E1. repeat split; try assumption. constructor.
      * unfold not_before. now rewrite E1.
      * eapply Forall_impl; [|exact H1].
        intros x Hx. unfold not_before. now rewrite Hx.
Qed.

Lemma names_ordered_set (k : string) (v : value) (ps : props) :
  names_ordered (map fst ps) -> names_ordered (map fst (obj_set k v ps)).
Proof.
  intros H. unfold obj_set. destruct (obj_has k ps).
  - now rewrite obj_replace_names.
  - destruct (array_index k) eqn:E.
    + now apply names_ordered_add_index.
    + rewrite map_app. now apply names_ordered_app_name.
Qed.

Lemma names_ordered_prefix (ks ls : list string) :
  names_ordered (ks ++ ls) -> names_ordered ks.
Proof.
  induction ks as [|k ks IH]; simpl; [trivial|].
  intros [H1 H2]. split; [|auto].
  destruct (array_index k); apply Forall_app in H1; tauto.
Qed.

(** A name that may come last is put last. *)
Lemma obj_set_last (k : string) (v : value) (ps : props) :
  obj_get k ps = None ->
  names_ordered (map fst ps ++ [k]) ->
  obj_set k v ps = ps ++ [(k, v)].
Proof.
  intros Hg Ho. unfold obj_set.
  rewrite (proj2 (obj_has_get k ps) Hg).
  destruct (array_index k) as [n|] eqn:Hk; [|reflexivity].
  clear Hg. induction ps as [|[k1 v1] ps IH]; simpl in *; [reflexivity|].
  destruct Ho as [H1 H2].
  destruct (array_index k1) as [m|].
  - apply Forall_app in H1. destruct H1 as [_ H1].
    inversion H1 as [|? ? Hm _]; subst. unfold not_before in Hm.
    rewrite Hk in Hm. apply N.leb_le in Hm. rewrite Hm.
    now rewrite IH.
  - apply Forall_app in H1. destruct H1 as [_ H1].
    inversion H1 as [|? ? Hm _]; subst. congruence.
Qed.

(** *** The entries of an object *)

Lemma obj_replace_entries (k : string) (v : value) (ps : props)
  (p : string * value) :
  In p (obj_replace k v ps) -> p = (k, v) \/ In p ps.
Proof.
  induction ps as [|[k1 v1] ps IH]; simpl; [tauto|].
  destruct (String.eqb k k1); simpl; intuition auto.
Qed.

Lemma obj_add_index_entries (n : N) (k : string) (v : value) (ps : props)
  (p : string * value) :
  In p (obj_add_index n k v ps) -> p = (k, v) \/ In p ps.
Proof.
  induction ps as [|[k1 v1] ps IH]; simpl; [intuition auto|].
  destruct (array_index k1) as [m|]; [destruct (m <=? n)%N|]; simpl;
    intuition auto.
Qed.

Lemma obj_set_entries (k : string) (v : value) (ps : props)
  (p : string * value) :
  In p (obj_set k v ps) -> p = (k, v) \/ In p ps.
Proof.
  unfold obj_set. destruct (obj_has k ps).
  - apply obj_replace_entries.
  - destruct (array_index k).
    + apply obj_add_index_entries.
    + intros H. apply in_app_or in H. simpl in H. intuition auto.
Qed.

(** What holds of the values of an object holds after an assignment of a
    value of which it holds, and after a deletion. *)
Lemma obj_set_Forall (P : value -> Prop) (k : string) (v : value)
  (ps : props) :
  P v -> Forall (fun p => P (snd p)) ps ->
  Forall (fun p => P (snd p)) (obj_set k v ps).
Proof.
  intros Hv Hps. apply Forall_forall. intros p Hp.
  apply obj_set_entries in Hp. destruct Hp as [->|Hp]; [exact Hv|].
  rewrite Forall_forall in Hps. auto.
Qed.

Lemma obj_assign_Forall (P : value -> Prop) (k : string) (v : value)
  (ps : props) :
  P v -> Forall (fun p => P (snd p)) ps ->
  Forall (fun p => P (snd p)) (obj_assign k v ps).
Proof.
  intros Hv Hps. unfold obj_assign.
  destruct (_ && _); [exact Hps|now apply obj_set_Forall].
Qed.

Lemma obj_delete_Forall (P : value -> Prop) (k : string) (ps : props) :
  Forall (fun p => P (snd p)) ps ->
  Forall (fun p => P (snd p)) (obj_delete k ps).
Proof.
  intros Hps. apply Forall_forall. intros p Hp.
  unfold obj_delete in Hp. apply filter_In in Hp.
  rewrite Forall_forall in Hps. apply Hps. tauto.
Qed.

Lemma names_ordered_filter (f : string -> bool) (ks : list string) :
  names_ordered ks -> names_ordered (filter f ks).
Proof.
  assert (Hf : forall (P : string -> Prop) l,
             Forall P l -> Forall P (filter f l)).
  { intros P l H. apply Forall_forall. intros x Hx.
    apply filter_In in Hx. rewrite Forall_forall in H. apply H. tauto. }
  induction ks as [|k r IH]; intros H; [exact I|].
  destruct H as [H1 H2]. cbn [filter].
  destruct (f k); [|now apply IH].
  split; [|now apply IH].
  destruct (array_index k); now apply Hf.
Qed.

Lemma json_props_delete (k : string) (ps : props) :
  json_props ps -> json_props (obj_delete k ps).
Proof.
  intros (Hd & Ho & Hall). split; [|split].
  - now apply obj_delete_distinct.
  - unfold obj_delete.
    replace (map fst (filter (fun p => negb (String.eqb k (fst p))) ps))
      with (filter (fun n => negb (String.eqb k n)) (map fst ps)).
    + now apply names_ordered_filter.
    + clear. induction ps as [|[n x] ps IH]; [reflexivity|].
      simpl. destruct (negb (String.eqb k n)); simpl; now rewrite IH.
  - now apply (obj_delete_Forall json_entry).
Qed.

Lemma obj_get_Forall (P : value -> Prop) (k : string) (x : value)
  (ps : props) :
  Forall (fun p => P (snd p)) ps -> obj_get k ps = Some x -> P x.
Proof.
  induction ps as [|[k1 v1] ps IH]; simpl; [discriminate|].
  intros H. inversion H as [|? ? Hp Hps]; subst.
  destruct (String.eqb k k1); [|auto].
  intros E; inversion E; subst. exact Hp.
Qed.

Lemma stringify_throws_props (ps : props) :
  stringify_throws (VObj ps) = false <->
  Forall (fun p => stringify_throws (snd p) = false) ps.
Proof.
  induction ps as [|[k x] ps IH]; simpl.
  - split; [constructor|reflexivity].
  - rewrite orb_false_iff. simpl in IH. rewrite IH. split.
    + intros [H1 H2]. now constructor.
    + intros H. inversion H. now split.
Qed.

Lemma stringify_throws_elems (xs : list value) :
  stringify_throws (VArr xs) = false <->
  Forall (fun x => stringify_throws x = false) xs.
Proof.
  induction xs as [|x xs IH]; simpl.
  - split; [constructor|reflexivity].
  - rewrite orb_false_iff. simpl in IH. rewrite IH. split.
    + intros [H1 H2]. now constructor.
    + intros H. inversion H. now split.
Qed.

(** *** The objects the codec leaves as they are *)

Lemma json_props_fold (ps : props) :
  forall acc,
    NoDup (map fst (acc ++ ps)) ->
    names_ordered (map fst (acc ++ ps)) ->
    Forall (fun p => json_entry (snd p)) ps ->
    fold_left jsonify_step ps acc = acc ++ ps.
Proof.
  induction ps as [|[k x] ps IH]; intros acc Hnd Ho Hall; simpl.
  - now rewrite List.app_nil_r.
  - inversion Hall as [|? ? (Hu & Hj & _) Hall']; subst. simpl in Hu, Hj.
    rewrite Hu, Hj.
    replace (acc ++ (k, x) :: ps) with ((acc ++ [(k, x)]) ++ ps) in Hnd, Ho
      by now rewrite <- List.app_assoc.
    rewrite obj_set_last.
    + rewrite IH by assumption. now rewrite <- List.app_assoc.
    + apply obj_get_absent. rewrite map_app in Hnd.
      apply NoDup_app_remove_r in Hnd. rewrite map_app in Hnd. simpl in Hnd.
      apply NoDup_remove_2 in Hnd. now rewrite List.app_nil_r in Hnd.
    + rewrite map_app in Ho. apply names_ordered_prefix in Ho.
      now rewrite map_app in Ho.
Qed.

Lemma json_props_jsonify (ps : props) :
  json_props ps -> jsonify (VObj ps) = VObj ps.
Proof.
  intros (Hd & Ho & Hall). rewrite jsonify_obj.
  now rewrite (json_props_fold ps [] Hd Ho Hall).
Qed.

Lemma json_props_set (k : string) (v : value) (ps : props) :
  json_props ps -> json_entry v -> json_props (obj_set k v ps).
Proof.
  intros (Hd & Ho & Hall) Hv. split; [now apply obj_set_distinct|].
  split; [now apply names_ordered_set|].
  now apply (obj_set_Forall json_entry).
Qed.

Lemma json_props_get (k : string) (x : value) (ps : props) :
  json_props ps -> obj_get k ps = Some x -> json_entry x.
Proof. intros (_ & _ & Hall). now apply (obj_get_Forall json_entry). Qed.

Lemma json_props_value (ps : props) : json_props ps -> json_value (VObj ps).
Proof.
  intros H. split; [|exact H]. split; [reflexivity|].
  split; [now apply json_props_jsonify|].
  apply stringify_throws_props. destruct H as (_ & _ & Hall).
  eapply Forall_impl; [|exact Hall]. now intros p (_ & _ & Ht).
Qed.

Lemma json_value_array (xs : list value) :
  Forall json_value xs -> json_value (VArr xs).
Proof.
  intros H. split; [|exact I]. split; [reflexivity|]. split.
  - simpl. f_equal.
    induction H as [|x xs ((_ & Hj & _) & _) _ IH]; simpl; [reflexivity|].
    now rewrite Hj, IH.
  - apply stringify_throws_elems. eapply Forall_impl; [|exact H].
    now intros x ((_ & _ & Ht) & _).
Qed.

Lemma parse_exp_normal (cs r : chars) (e : exponent) :
  parse_exp cs = Some (e, r) -> normal_exp e = e.
Proof.
  unfold parse_exp. intros H.
  repeat break_match H; try discriminate; inversion H; subst; reflexivity.
Qed.

Lemma parse_number_value (cs r : chars) (v : value) :
  parse_number cs = Some (v, r) -> json_value v.
Proof.
  unfold parse_number. intros H.
  destruct cs as [|c cs]; [discriminate|].
  destruct (parse_N _) as [[w r1]|]; [|discriminate].
  destruct (parse_frac r1) as [[f r2]|]; [|discriminate].
  destruct (parse_exp r2) as [[e r3]|] eqn:He; [|discriminate].
  inversion H; subst. apply parse_exp_normal in He.
  unfold number at 1.
  destruct f, e; try destruct (_ && _);
    (split; [|exact I]); (split; [reflexivity|]);
    (split; [|reflexivity]);
    try reflexivity; cbn [jsonify]; rewrite He; reflexivity.
Qed.

Local Opaque parse_number.

Lemma parse_values (fuel : nat) :
  (forall cs v r, parse_value fuel cs = Some (v, r) -> json_value v) /\
  (forall acc cs v r,
     Forall json_value acc ->
     parse_elements fuel acc cs = Some (v, r) -> json_value v) /\
  (forall acc cs v r,
     json_props acc ->
     parse_members fuel acc cs = Some (v, r) -> json_value v).
Proof.
  induction fuel as [|f (IHv & IHe & IHm)];
    [split; [|split]; intros; discriminate|].
  split; [|split].
  - intros cs v r H. simpl in H.
    repeat break_match H; try discriminate;
      try (inversion H; subst; repeat split; constructor).
    + eapply IHm; [|eassumption]. repeat split; constructor.
    + eapply IHe; [|eassumption]. constructor.
    + eapply parse_number_value; eassumption.
  - intros acc cs v r Hacc H. simpl in H.
    repeat break_match H; try discriminate.
    + eapply IHe; [|eassumption]. apply Forall_app. split; [assumption|].
      constructor; [|constructor]. eapply IHv; eassumption.
    + inversion H; subst. apply json_value_array. apply Forall_app.
      split; [assumption|]. constructor; [|constructor].
      eapply IHv; eassumption.
  - intros acc cs v r Hacc H. simpl in H.
    repeat break_match H; try discriminate.
    + eapply IHm; [|eassumption]. apply json_props_set; [assumption|].
      eapply IHv; eassumption.
    + inversion H; subst. apply json_props_value.
      apply json_props_set; [assumption|]. eapply IHv; eassumption.
Qed.

End JSONValues.

(** [JSON.parse] returns values the codec leaves as they are. *)
Lemma JSON_parse_value (s : string) (v : value) :
  JSON_parse s = Some v -> json_value v.
Proof.
  unfold JSON_parse. intros H.
  destruct (JSON.parse_value _ _) as [[x r]|] eqn:E; [|discriminate].
  destruct (JSON.skip_ws r); [|discriminate].
  inversion H; subst.
  eapply (proj1 (JSONValues.parse_values _)); eassumption.
Qed.

Lemma snapshot_of_value (i : item) : json_value (snapshot_of i).
Proof.
  assert (He : json_value (VObj [])) by (repeat split; constructor).
  destruct i as [| |s]; simpl; try exact He.
  destruct (JSON_parse s) eqn:E; [|exact He].
  eapply JSON_parse_value; eassumption.
Qed.

Lemma snapshot_of_props (i : item) (ps : props) :
  snapshot_of i = VObj ps -> json_props ps.
Proof.
  intros H. pose proof (snapshot_of_value i) as (_ & Hp).
  now rewrite H in Hp.
Qed.

Lemma snapshot_of_distinct (i : item) (ps : props) :
  snapshot_of i = VObj ps -> JSON.distinct_names ps.
Proof. intros H. now destruct (snapshot_of_props i ps H). Qed.

(** The snapshot read from storage holds no value on which
    [JSON.stringify] throws. *)
Lemma snapshot_of_accepted (i : item) (ps : props) :
  snapshot_of i = VObj ps ->
  Forall (fun p => JSON.stringify_throws (snd p) = false) ps.
Proof.
  intros H. destruct (snapshot_of_props i ps H) as (_ & _ & Hall).
  eapply Forall_impl; [|exact Hall]. now intros p (_ & _ & Ht).
Qed.

(** ** Reads and writes, whatever the backend *)

Lemma trace_add_events (evs : list event) (w : world) :
  trace (add_events evs w) = trace w ++ evs.
Proof.
  revert w. induction evs as [|e evs IH]; intros w; simpl.
  - now rewrite List.app_nil_r.
  - unfold add_events in *. simpl. rewrite IH. simpl.
    now rewrite <- List.app_assoc.
Qed.

Lemma contents_add_events (b : backend) (evs : list event) (w : world) :
  contents b (add_events evs w) = contents b w.
Proof.
  revert w. induction evs as [|e evs IH]; intros w; [reflexivity|].
  unfold add_events in *. simpl. rewrite IH. apply contents_add_event.
Qed.

Lemma queue_add_events (evs : list event) (w : world) :
  queue (add_events evs w) = queue w.
Proof.
  revert w. induction evs as [|e evs IH]; intros w; [reflexivity|].
  unfold add_events in *. simpl. now rewrite IH.
Qed.

Lemma trace_log_if (b : bool) (e : event) (w : world) :
  trace (log_if b e w) = trace w ++ (if b then [e] else []).
Proof. destruct b; simpl; [reflexivity|now rewrite List.app_nil_r]. Qed.

Lemma contents_log_if (k : backend) (b : bool) (e : event) (w : world) :
  contents k (log_if b e w) = contents k w.
Proof. destruct b; [apply contents_add_event|reflexivity]. Qed.

Lemma contents_enqueue (b : backend) (t : task) (w : world) :
  contents b (enqueue t w) = contents b w.
Proof. destruct b; reflexivity. Qed.

Lemma after_read_log (c : closure) (i : item) (w : world) :
  after_read c i w =
  log_if (malformed i) ConsoleError
    (add_event (GetItem (c_backend c) (c_key c)) w).
Proof.
  unfold after_read, malformed, log_if.
  destruct i as [| |s]; try reflexivity. destruct (JSON_parse s); reflexivity.
Qed.

Lemma trace_after_read (c : closure) (i : item) (w : world) :
  trace (after_read c i w) =
  trace w ++ GetItem (c_backend c) (c_key c) ::
             (if malformed i then [ConsoleError] else []).
Proof.
  rewrite after_read_log, trace_log_if. simpl.
  now rewrite <- List.app_assoc.
Qed.

Lemma queue_after_read (c : closure) (i : item) (w : world) :
  queue (after_read c i w) = queue w.
Proof. rewrite after_read_log. now rewrite queue_log_if. Qed.

Lemma contents_after_read (b : backend) (c : closure) (i : item) (w : world) :
  contents b (after_read c i w) = contents b w.
Proof.
  rewrite after_read_log. now rewrite contents_log_if, contents_add_event.
Qed.

Lemma setSelf_calls_after_read (c : closure) (i : item) (w : world) :
  setSelf_calls (trace (after_read c i w)) = setSelf_calls (trace w).
Proof.
  rewrite trace_after_read, setSelf_calls_app. simpl.
  destruct (malformed i); simpl; now rewrite List.app_nil_r.
Qed.

(** *** A write *)

Lemma contents_after_write (c : closure) (text : string) (w : world) :
  contents (c_backend c) (after_write c text w) (c_key c) = Some text.
Proof.
  unfold after_write. rewrite contents_with_contents.
  unfold store_set. now rewrite jskey_eqb_refl.
Qed.

Lemma queue_after_write (c : closure) (text : string) (w : world) :
  queue (after_write c text w) = queue w.
Proof. unfold after_write. now rewrite queue_with_contents. Qed.

Lemma trace_after_write (c : closure) (text : string) (w : world) :
  trace (after_write c text w) =
  trace w ++ [SetItem (c_backend c) (c_key c) text].
Proof. unfold after_write. now rewrite trace_with_contents. Qed.

Lemma after_setItem_memory (c : closure) (async : bool) (text : string)
  (w : world) :
  c_storage c = memoryStorage async ->
  after_setItem c text w = after_write c text w.
Proof.
  intros Hst. unfold after_setItem, after_write. rewrite Hst.
  destruct async; reflexivity.
Qed.

Lemma trace_after_setItem (c : closure) (text : string) (w : world) :
  trace (after_setItem c text w) =
  trace w ++ SetItem (c_backend c) (c_key c) text ::
    write_outcome (fst (setItem (c_storage c) (c_key c) text
                          (contents (c_backend c) w))).
Proof.
  unfold after_setItem. rewrite trace_add_events, trace_with_contents.
  simpl. now rewrite <- List.app_assoc.
Qed.

Lemma contents_after_setItem (c : closure) (text : string) (w : world) :
  contents (c_backend c) (after_setItem c text w) =
  snd (setItem (c_storage c) (c_key c) text (contents (c_backend c) w)).
Proof.
  unfold after_setItem.
  now rewrite contents_add_events, contents_with_contents.
Qed.

Lemma queue_after_setItem (c : closure) (text : string) (w : world) :
  queue (after_setItem c text w) = queue w.
Proof.
  unfold after_setItem. now rewrite queue_add_events, queue_with_contents.
Qed.

(** [setState] on a value other than [undefined]: an exception of
    [JSON.stringify] is logged, otherwise [setItem] is called once; in
    neither case does [setState] throw. *)
Lemma setState_eval (c : closure) (state : value) (w : world) :
  state <> VUndefined ->
  setState c state w =
  (Normal tt,
   if JSON.stringify_throws state then add_event ConsoleError w
   else after_setItem c (JSON_stringify state) w).
Proof.
  intros Hu.
  assert (H : (if JSON.stringify_throws state then log ConsoleError else
               log (SetItem (c_backend c) (c_key c) (JSON_stringify state)) ;;;
               fun w =>
                 let (r, st) := setItem (c_storage c) (c_key c)
                                  (JSON_stringify state)
                                  (contents (c_backend c) w) in
                 (put_contents (c_backend c) st ;;;
                  match r with
                  | SVoid => ret tt
                  | SThrow => log ConsoleError
                  | SPromise Rejected => log (Unhandled InSetItem)
                  | SPromise _ => ret tt
                  end) w) w =
              (Normal tt,
               if JSON.stringify_throws state then add_event ConsoleError w
               else after_setItem c (JSON_stringify state) w)).
  { destruct (JSON.stringify_throws state); [reflexivity|].
    unfold after_setItem, bind, log, put_contents.
    rewrite contents_add_event.
    destruct (setItem _ _ _ _) as [[|[[]| |]|] st]; reflexivity. }
  destruct state; try exact H. congruence.
Qed.

(** The body of the callback on a mapping. *)
Lemma onSet_body_mapping (c : closure) (node : string) (v : value)
  (ps : props) (w : world) :
  onSet_body c node v (VObj ps) w =
  if test_throws v ps then (Throw TypeError, w)
  else setState c (VObj (next_props c node v ps)) w.
Proof.
  unfold onSet_body, next_props, test_throws, bind, lift, ret.
  destruct (is_DefaultValue v); simpl; [|reflexivity].
  destruct (obj_has "hasOwnProperty" ps); [reflexivity|].
  destruct (obj_has node ps); reflexivity.
Qed.

Lemma run_body_mapping (c : closure) (node : string) (v : value)
  (ps : props) (w : world) :
  run_async InOnSet (onSet_body c node v (VObj ps)) w =
  after_set c node v ps w.
Proof.
  unfold run_async, after_set. rewrite onSet_body_mapping.
  destruct (test_throws v ps); [reflexivity|].
  rewrite setState_eval by discriminate. reflexivity.
Qed.

(** A set that reads a mapping, on any backend. *)
Lemma set_atom_mapping (c : closure) (node : string) (v : value) (w : world)
  (i : item) (ps : props) :
  queue w = [] ->
  delivers (getItem (c_storage c) (c_key c) (contents (c_backend c) w)) i ->
  snapshot_of i = VObj ps ->
  set_atom c node v w = after_set c node v ps (after_read c i w).
Proof.
  intros Hq Hd Hs. unfold set_atom. rewrite onSet_callback_drain by exact Hq.
  rewrite <- run_body_mapping.
  unfold run_async, bind at 1. now rewrite (read_delivered c w i Hd), Hs.
Qed.

(** *** The updated mapping *)

Lemma obj_get_assign_other (k k' : string) (v : value) (ps : props) :
  k <> k' -> obj_get k' (obj_assign k v ps) = obj_get k' ps.
Proof.
  intros Hne. unfold obj_assign.
  destruct (_ && _); [reflexivity|now apply JSONFacts.obj_get_set_other].
Qed.

Lemma obj_assign_set (k : string) (v : value) (ps : props) :
  k <> "__proto__" -> obj_assign k v ps = obj_set k v ps.
Proof.
  intros Hk. unfold obj_assign.
  destruct (String.eqb_spec k "__proto__"); [congruence|reflexivity].
Qed.

Lemma obj_assign_distinct (k : string) (v : value) (ps : props) :
  JSON.distinct_names ps -> JSON.distinct_names (obj_assign k v ps).
Proof.
  intros Hd. unfold obj_assign.
  destruct (_ && _); [exact Hd|now apply JSONFacts.obj_set_distinct].
Qed.

Lemma next_props_other (c : closure) (k k' : string) (v : value) (ps : props) :
  k' <> k -> obj_get k (next_props c k' v ps) = obj_get k ps.
Proof.
  intros Hne. unfold next_props.
  destruct (is_DefaultValue v && obj_has k' ps).
  - now apply JSONFacts.obj_get_delete_other.
  - now apply obj_get_assign_other.
Qed.

Lemma next_props_distinct (c : closure) (k : string) (v : value) (ps : props) :
  JSON.distinct_names ps -> JSON.distinct_names (next_props c k v ps).
Proof.
  intros Hd. unfold next_props.
  destruct (is_DefaultValue v && obj_has k ps).
  - now apply JSONFacts.obj_delete_distinct.
  - now apply obj_assign_distinct.
Qed.

Lemma next_props_Forall (P : value -> Prop) (c : closure) (k : string)
  (v : value) (ps : props) :
  P (apply_serialize c v) -> Forall (fun p => P (snd p)) ps ->
  Forall (fun p => P (snd p)) (next_props c k v ps).
Proof.
  intros Hv Hps. unfold next_props.
  destruct (is_DefaultValue v && obj_has k ps).
  - now apply JSONValues.obj_delete_Forall.
  - now apply JSONValues.obj_assign_Forall.
Qed.

(** A set of a value other than the sentinel on a name other than
    [__proto__] creates or overwrites the entry. *)
Lemma next_props_set (c : closure) (node : string) (v : value) (ps : props) :
  v <> VDefault -> node <> "__proto__" ->
  next_props c node v ps = obj_set node (apply_serialize c v) ps.
Proof.
  intros H Hn. unfold next_props.
  replace (is_DefaultValue v) with false
    by (destruct v; try reflexivity; congruence).
  now apply obj_assign_set.
Qed.

Lemma test_throws_value (v : value) (ps : props) :
  v <> VDefault -> test_throws v ps = false.
Proof.
  intros H. unfold test_throws. destruct v; try reflexivity. congruence.
Qed.

Lemma test_throws_plain (v : value) (ps : props) :
  obj_has "hasOwnProperty" ps = false -> test_throws v ps = false.
Proof. intros H. unfold test_throws. rewrite H. apply andb_false_r. Qed.

Lemma apply_serialize_defined (c : closure) (v : value) :
  v <> VUndefined -> JSON.is_undefined (apply_serialize c v) = false.
Proof.
  intros H. unfold apply_serialize. destruct (c_serialize c); [reflexivity|].
  destruct v; try reflexivity. congruence.
Qed.

(** [JSON.stringify] accepts the updated mapping when it accepts the
    value stored. *)
Lemma next_props_accepted (c : closure) (node : string) (v : value)
  (i : item) (ps : props) :
  snapshot_of i = VObj ps ->
  JSON.stringify_throws (apply_serialize c v) = false ->
  JSON.stringify_throws (VObj (next_props c node v ps)) = false.
Proof.
  intros Hs Hv. apply JSONValues.stringify_throws_props.
  apply (next_props_Forall (fun x => JSON.stringify_throws x = false));
    [exact Hv|now apply (snapshot_of_accepted i)].
Qed.

Lemma after_set_writes (c : closure) (node : string) (v : value)
  (ps : props) (w : world) :
  test_throws v ps = false ->
  JSON.stringify_throws (VObj (next_props c node v ps)) = false ->
  after_set c node v ps w =
  after_setItem c (JSON_stringify (VObj (next_props c node v ps))) w.
Proof. intros Ht Hs. unfold after_set. now rewrite Ht, Hs. Qed.

(** *** A backend that keeps what it is given *)

Lemma memory_delivers (c : closure) (async : bool) (w : world) (s : string) :
  c_storage c = memoryStorage async ->
  contents (c_backend c) w (c_key c) = Some s ->
  delivers (getItem (c_storage c) (c_key c) (contents (c_backend c) w))
           (IString s).
Proof.
  intros Hst Hc. rewrite Hst. simpl. rewrite Hc. now destruct async.
Qed.

(** A set that reads a mapping and reaches [setItem]. *)
Lemma set_on_mapping (c : closure) (async : bool) (node : string) (v : value)
  (w : world) (i : item) (ps : props) :
  c_storage c = memoryStorage async ->
  queue w = [] ->
  delivers (getItem (c_storage c) (c_key c) (contents (c_backend c) w)) i ->
  snapshot_of i = VObj ps ->
  test_throws v ps = false ->
  JSON.stringify_throws (VObj (next_props c node v ps)) = false ->
  set_atom c node v w =
  after_write c (JSON_stringify (VObj (next_props c node v ps)))
    (after_read c i w).
Proof.
  intros Hst Hq Hd Hs Ht Hv.
  rewrite (set_atom_mapping c node v w i ps Hq Hd Hs).
  rewrite after_set_writes by assumption.
  now apply (after_setItem_memory c async).
Qed.

Lemma set_setSelf_calls (c : closure) (text : string) (i : item) (w : world) :
  setSelf_calls (trace (after_write c text (after_read c i w))) =
  setSelf_calls (trace w).
Proof.
  rewrite trace_after_write, setSelf_calls_app, setSelf_calls_after_read.
  simpl. now rewrite List.app_nil_r.
Qed.

(** The lookup of a name after the round trip of a mapping. *)
Lemma obj_get_written (ps : props) :
  JSON.distinct_names ps ->
  exists ps',
    JSON_parse (JSON_stringify (VObj ps)) = Some (VObj ps') /\
    forall k,
      obj_get k ps' =
      match obj_get k ps with
      | Some x => if JSON.is_undefined x then None else Some (JSON.jsonify x)
      | None => None
      end.
Proof.
  intros Hd. rewrite JSON_parse_stringify, JSONFacts.jsonify_obj.
  eexists. split; [reflexivity|]. intros k.
  now rewrite JSONFacts.obj_get_jsonify by exact Hd.
Qed.

Lemma obj_has_written (k : string) (ps ps' : props) :
  (forall k,
     obj_get k ps' =
     match obj_get k ps with
     | Some x => if JSON.is_undefined x then None else Some (JSON.jsonify x)
     | None => None
     end) ->
  obj_has k ps = false -> obj_has k ps' = false.
Proof.
  intros H Hk. apply JSONFacts.obj_has_get in Hk.
  apply JSONFacts.obj_has_get. now rewrite H, Hk.
Qed.

(** What a set that reaches [setItem] leaves in the storage, as the next
    read is delivered it. *)
Lemma set_atom_leaves (c : closure) (async : bool) (node : string) (v : value)
  (w : world) (i : item) (ps : props) :
  c_storage c = memoryStorage async ->
  queue w = [] ->
  delivers (getItem (c_storage c) (c_key c) (contents (c_backend c) w)) i ->
  snapshot_of i = VObj ps ->
  test_throws v ps = false ->
  JSON.stringify_throws (VObj (next_props c node v ps)) = false ->
  queue (set_atom c node v w) = [] /\
  setSelf_calls (trace (set_atom c node v w)) = setSelf_calls (trace w) /\
  exists text ps',
    contents (c_backend c) (set_atom c node v w) (c_key c) = Some text /\
    JSON_parse text = Some (VObj ps') /\
    forall k,
      obj_get k ps' =
      match obj_get k (next_props c node v ps) with
      | Some x => if JSON.is_undefined x then None else Some (JSON.jsonify x)
      | None => None
      end.
Proof.
  intros Hst Hq Hd Hs Ht Hv.
  rewrite (set_on_mapping c async node v w i ps Hst Hq Hd Hs Ht Hv).
  split; [now rewrite queue_after_write, queue_after_read|].
  split; [apply set_setSelf_calls|].
  destruct (obj_get_written (next_props c node v ps)) as (ps' & Hp & Hg).
  { apply next_props_distinct. now apply (snapshot_of_distinct i). }
  exists (JSON_stringify (VObj (next_props c node v ps))), ps'.
  split; [apply contents_after_write|]. now split.
Qed.

(** *** Snapshots and continuations *)

Lemma await_eval (state : snapshot) (w : world) :
  is_settled state = true ->
  await state w =
  (Normal (Some (awaited state)), log_if (await_logs state) ConsoleError w).
Proof.
  destruct state as [v|[i| |]]; try discriminate; intros _; [reflexivity|].
  unfold await, bind. rewrite parseState_eval. reflexivity.
Qed.

(** What [getState] returns for a delivered item. *)
Lemma getState_delivered (c : closure) (w : world) (i : item) :
  let r := getItem (c_storage c) (c_key c) (contents (c_backend c) w) in
  delivers r i ->
  getState c w =
    (Normal (state_of r),
     log_if (malformed i && negb (await_logs (state_of r))) ConsoleError
       (add_event (GetItem (c_backend c) (c_key c)) w)) /\
  is_settled (state_of r) = true /\
  awaited (state_of r) = snapshot_of i.
Proof.
  intros r. rewrite getState_eval. fold r. unfold delivers.
  destruct r as [[| |s]|[[| |s]| |]| |]; try tauto; intros H; subst i;
    cbn -[JSON_parse]; repeat split; try reflexivity;
    destruct (JSON_parse s); reflexivity.
Qed.

Lemma delivered_logs (r : getItemResult) (i : item) (p : settled item) :
  delivers r i -> state_of r = Later p -> await_logs (Later p) = malformed i.
Proof.
  destruct r as [[| |s]|[[| |s]| |]| |]; simpl; try tauto;
    intros Hd He; try discriminate; inversion He; subst; reflexivity.
Qed.

Lemma onSet_callback_eval (c : closure) (node : string) (v : value)
  (w : world) (state : snapshot) (w1 : world) :
  getState c w = (Normal state, w1) ->
  onSet_callback c node v w =
  (Normal tt, enqueue (SetResume c node v state) w1).
Proof. intros H. unfold onSet_callback. now rewrite H. Qed.

(** The continuation of a set that finds a mapping. *)
Lemma run_SetResume (c : closure) (node : string) (v : value)
  (state : snapshot) (ps : props) (w : world) :
  is_settled state = true ->
  awaited state = VObj ps ->
  run_task (SetResume c node v state) w =
  after_set c node v ps (log_if (await_logs state) ConsoleError w).
Proof.
  intros Hs Ha. rewrite <- run_body_mapping.
  unfold run_task, run_async, bind at 1.
  now rewrite (await_eval state w Hs), Ha.
Qed.

(** The continuation of an initialisation that finds a mapping which does
    not hide [hasOwnProperty] pushes the entry of its atom. *)
Lemma run_InitThen (c : closure) (node : string) (p : settled item)
  (ps : props) (w : world) :
  is_settled (Later p) = true ->
  awaited (Later p) = VObj ps ->
  obj_has "hasOwnProperty" ps = false ->
  run_task (InitThen c node p) w =
  add_events (entry_push c node ps)
    (log_if (await_logs (Later p)) ConsoleError w).
Proof.
  intros Hs Ha Hh. unfold run_task, run_async, bind at 1.
  rewrite (await_eval (Later p) w Hs), Ha, push_stored_eval.
  unfold entry_push. cbn [hasOwnProperty get_property]. rewrite Hh.
  unfold obj_has. destruct (obj_get node ps); reflexivity.
Qed.

Lemma init_push_mapping (c : closure) (node : string) (ps : props) :
  obj_has "hasOwnProperty" ps = false ->
  init_push c node (Normal (Some (VObj ps))) = entry_push c node ps.
Proof.
  intros Hh. unfold init_push, entry_push. cbn [hasOwnProperty get_property].
  rewrite Hh. unfold obj_has. destruct (obj_get node ps); reflexivity.
Qed.

(** On a mapping that hides [hasOwnProperty] an initialisation pushes
    nothing. *)
Lemma init_push_hidden (c : closure) (node : string) (ps : props) :
  obj_has "hasOwnProperty" ps = true ->
  init_push c node (Normal (Some (VObj ps))) = [].
Proof.
  intros Hh. unfold init_push. cbn [hasOwnProperty]. now rewrite Hh.
Qed.

Lemma drain_one (t : task) (w : world) :
  queue w = [t] -> drain w = run_task t (with_queue [] w).
Proof. intros H. unfold drain. now rewrite H. Qed.

Lemma drain_two (t1 t2 : task) (w : world) :
  queue w = [t1; t2] ->
  drain w = run_task t2 (run_task t1 (with_queue [] w)).
Proof. intros H. unfold drain. now rewrite H. Qed.

(** ** The round trip *)

(** A set or reset of another atom, run to its end on a mapping that does
    not hide [hasOwnProperty], keeps a stored string. *)
Lemma set_preserves (c : closure) (async : bool) (s : value -> string)
  (k x k' : string) (v' : value) (w : world) :
  c_storage c = memoryStorage async ->
  c_serialize c = Some s ->
  k' <> k -> k' <> "hasOwnProperty" ->
  holds c k (VStr x) w ->
  holds c k (VStr x) (set_atom c k' v' w) /\
  setSelf_calls (trace (set_atom c k' v' w)) = setSelf_calls (trace w).
Proof.
  intros Hst Hser Hne Hnh (Hq & text & ps & Hc & Hp & Hh & Hg).
  assert (Hs : snapshot_of (IString text) = VObj ps) by (simpl; now rewrite Hp).
  destruct (set_atom_leaves c async k' v' w (IString text) ps Hst Hq
              (memory_delivers c async w text Hst Hc) Hs)
    as (Hq1 & Hs1 & text' & ps' & Hc' & Hp' & Hg').
  - now apply test_throws_plain.
  - apply (next_props_accepted c k' v' (IString text)); [exact Hs|].
    unfold apply_serialize. now rewrite Hser.
  - split; [|exact Hs1]. split; [exact Hq1|].
    exists text', ps'. repeat split; try assumption.
    + apply (obj_has_written "hasOwnProperty" (next_props c k' v' ps));
        [exact Hg'|].
      apply JSONFacts.obj_has_get. rewrite next_props_other by congruence.
      now apply JSONFacts.obj_has_get.
    + now rewrite Hg', next_props_other, Hg by congruence.
Qed.

Lemma sets_preserve (c : closure) (async : bool) (s : value -> string)
  (k x : string) (others : list (string * value)) :
  c_storage c = memoryStorage async ->
  c_serialize c = Some s ->
  Forall (fun p => fst p <> k /\ fst p <> "hasOwnProperty") others ->
  forall w,
    holds c k (VStr x) w ->
    holds c k (VStr x) (sets c others w) /\
    setSelf_calls (trace (sets c others w)) = setSelf_calls (trace w).
Proof.
  intros Hst Hser Hall.
  induction Hall as [|[k' v'] l [Hne Hnh] _ IH]; intros w Hw;
    [now split|].
  simpl in Hne, Hnh. unfold sets in *. simpl.
  change (drain (snd (onSet_callback c k' v' w))) with (set_atom c k' v' w).
  destruct (set_preserves c async s k x k' v' w Hst Hser Hne Hnh Hw)
    as [H1 S1].
  destruct (IH _ H1) as [H2 S2]. split; [exact H2|].
  now rewrite S2, S1.
Qed.

(** C9, as the specification states it, fails when the stored content is the
    JSON text of a primitive: the [onSet] callback then throws on the
    property assignment and writes nothing, and a fresh initialisation
    pushes nothing.  (It also fails for the reset sentinel as [v] when [k]
    is stored: the entry is deleted.) *)
Lemma no_round_trip_on_primitive_snapshot :
  let c := demo (memoryStorage false)
             (Some (fun _ => "five")) (Some (fun x => x)) in
  let w := stored "demo" "null" in
  let w1 := drain (snd (onSet_callback c "count" (VNum 5) w)) in
  let w2 := drain (snd (persistAtom (Persist c) "count" TriggerGet w1)) in
  supplied w1 (Some "demo") = Some "null" /\
  setSelf_calls (trace w2) = [].
Proof. split; reflexivity. Qed.

(** C9, amended.  Let the effect be configured with serializer [s] and
    deserializer [d] on a backend that keeps what it is given.  Let the
    atom [k] be named neither [__proto__] (an assignment to that name
    creates no property) nor [hasOwnProperty] (an entry of that name hides
    the method the effect calls), and let the snapshot delivered when the
    set is made be a mapping without an entry named [hasOwnProperty].
    After an external set of a value [v] other than the reset sentinel on
    the atom [k], run to its end, and any sets or resets of atoms other
    than [k] and [hasOwnProperty], each run to its end before the next
    starts, the initialisation of a fresh atom [k] calls [setSelf] exactly
    once, with [d (s v)]. *)
Theorem round_trip (c : closure) (async : bool)
  (s : value -> string) (d : value -> value)
  (k : string) (v : value) (others : list (string * value))
  (w : world) (i : item) (ps : props) :
  c_storage c = memoryStorage async ->
  c_serialize c = Some s ->
  c_deserialize c = Some d ->
  queue w = [] ->
  delivers (getItem (c_storage c) (c_key c) (contents (c_backend c) w)) i ->
  snapshot_of i = VObj ps ->
  obj_has "hasOwnProperty" ps = false ->
  v <> VDefault ->
  k <> "__proto__" -> k <> "hasOwnProperty" ->
  Forall (fun p => fst p <> k /\ fst p <> "hasOwnProperty") others ->
  let w1 := drain (snd (onSet_callback c k v w)) in
  let w2 := sets c others w1 in
  let w3 := drain (snd (persistAtom (Persist c) k TriggerGet w2)) in
  setSelf_calls (trace w3) =
  setSelf_calls (trace w) ++ [SetSelf k (d (VStr (s v)))].
Proof.
  intros Hst Hser Hdes Hq Hd Hs Hh Hv Hk1 Hk2 Hothers w1 w2 w3.
  assert (Hx : apply_serialize c v = VStr (s v))
    by (unfold apply_serialize; now rewrite Hser).
  assert (H1 : holds c k (VStr (s v)) w1 /\
               setSelf_calls (trace w1) = setSelf_calls (trace w)).
  { destruct (set_atom_leaves c async k v w i ps Hst Hq Hd Hs)
      as (Hq1 & Hs1 & text' & ps' & Hc' & Hp' & Hg').
    - now apply test_throws_value.
    - apply (next_props_accepted c k v i); [exact Hs|now rewrite Hx].
    - split; [|exact Hs1]. split; [exact Hq1|].
      exists text', ps'. repeat split; try assumption.
      + apply (obj_has_written "hasOwnProperty" (next_props c k v ps));
          [exact Hg'|].
        apply JSONFacts.obj_has_get. rewrite next_props_other by congruence.
        now apply JSONFacts.obj_has_get.
      + rewrite Hg', next_props_set, JSONFacts.obj_get_set_same by assumption.
        now rewrite Hx. }
  destruct H1 as [H1 S1].
  destruct (sets_preserve c async s k (s v) others Hst Hser Hothers w1 H1)
    as [(Hq2 & text & ps2 & Hc2 & Hp2 & Hh2 & Hg2) S2].
  unfold w3. rewrite attach_setSelf_calls by exact Hq2.
  rewrite (read_delivered c w2 (IString text)
             (memory_delivers c async w2 text Hst Hc2)).
  fold w2 in S2. rewrite S2, S1. f_equal.
  cbn [fst snapshot_of]. rewrite Hp2, init_push_mapping by exact Hh2.
  unfold entry_push, apply_deserialize. now rewrite Hg2, Hdes.
Qed.

Lemma round_trip_witness :
  let c := demo (memoryStorage true)
             (Some (fun _ => "five")) (Some (fun x => x)) in
  let w := stored "demo" (json "{'name':'a'}") in
  let w1 := drain (snd (onSet_callback c "count" (VNum 5) w)) in
  let w2 := sets c [("name", VDefault)] w1 in
  let w3 := drain (snd (persistAtom (Persist c) "count" TriggerGet w2)) in
  setSelf_calls (trace w3) =
  setSelf_calls (trace w) ++ [SetSelf "count" (VStr "five")].
Proof.
  apply (round_trip
           (demo (memoryStorage true) (Some (fun _ => "five"))
                 (Some (fun x => x)))
           true (fun _ => "five") (fun x => x) "count" (VNum 5)
           [("name", VDefault)] (stored "demo" (json "{'name':'a'}"))
           (IString (json "{'name':'a'}")) [("name", VStr "a")]);
    try reflexivity; try discriminate.
  repeat constructor; discriminate.
Defined.

(** ** Malformed content *)

(** C6, as the specification states it, fails for a value on which
    [JSON.stringify] throws, set without a serializer: [setState] catches
    the exception and logs it, [setItem] is not called, and the malformed
    content stays. *)
Lemma unaccepted_value_is_not_written :
  let c := demo (memoryStorage false) None None in
  let w := stored "demo" "not-json" in
  let w' := drain (snd (onSet_callback c "count" (VBigInt 5) w)) in
  supplied w' (Some "demo") = Some "not-json" /\
  trace w' = [GetItem Supplied (Some "demo"); ConsoleError; ConsoleError].
Proof. split; reflexivity. Qed.

(** C6, amended.  Let the backend keep what it is given and hold, under the
    configured key, a string that [JSON.parse] rejects.  A snapshot read
    returns the empty mapping and does not throw.  A set on any atom of a
    value that [JSON.stringify] accepts as it is stored (any value, when a
    serializer is configured) replaces the content by the text of a
    mapping, which holds no entry but that of the atom. *)
Theorem malformed_content_is_overwritten (c : closure) (async : bool)
  (s : string) (node : string) (v : value) (w : world) :
  c_storage c = memoryStorage async ->
  queue w = [] ->
  contents (c_backend c) w (c_key c) = Some s ->
  JSON_parse s = None ->
  JSON.stringify_throws (apply_serialize c v) = false ->
  fst (read c w) = Normal (Some (VObj [])) /\
  exists text ps,
    contents (c_backend c) (drain (snd (onSet_callback c node v w))) (c_key c)
      = Some text /\
    JSON_parse text = Some (VObj ps) /\
    forall k, k <> node -> obj_get k ps = None.
Proof.
  intros Hst Hq Hc Hp Hv.
  pose proof (memory_delivers c async w s Hst Hc) as Hd.
  assert (Hs : snapshot_of (IString s) = VObj [])
    by (simpl; now rewrite Hp).
  split; [now rewrite (read_delivered c w _ Hd), Hs|].
  destruct (set_atom_leaves c async node v w (IString s) [] Hst Hq Hd Hs)
    as (_ & _ & text & ps & Hc' & Hp' & Hg').
  - now apply test_throws_plain.
  - now apply (next_props_accepted c node v (IString s)).
  - exists text, ps. repeat split; try assumption.
    intros k Hk. now rewrite Hg', next_props_other by congruence.
Qed.

Lemma malformed_content_is_overwritten_witness :
  let c := demo (memoryStorage false) None None in
  let w := stored "demo" "not-json" in
  fst (read c w) = Normal (Some (VObj [])) /\
  exists text ps,
    contents (c_backend c) (drain (snd (onSet_callback c "count" (VNum 5) w)))
      (c_key c) = Some text /\
    JSON_parse text = Some (VObj ps) /\
    forall k, k <> "count" -> obj_get k ps = None.
Proof.
  exact (malformed_content_is_overwritten
           (demo (memoryStorage false) None None) false "not-json"
           "count" (VNum 5) (stored "demo" "not-json")
           eq_refl eq_refl eq_refl eq_refl eq_refl).
Defined.

(** ** Reset *)

(** The first half of C1: when the sentinel arrives and the atom has an
    entry in a snapshot that does not hide [hasOwnProperty], what is
    written back is the text of the snapshot without that entry. *)
Lemma reset_deletes_present_key (c : closure) (async : bool) (k : string)
  (w : world) (i : item) (ps : props) :
  c_storage c = memoryStorage async ->
  queue w = [] ->
  delivers (getItem (c_storage c) (c_key c) (contents (c_backend c) w)) i ->
  snapshot_of i = VObj ps ->
  obj_has "hasOwnProperty" ps = false ->
  obj_has k ps = true ->
  JSON.exact_numbers (VObj ps) = true ->
  exists text,
    drain (snd (onSet_callback c k VDefault w)) =
      after_write c text (after_read c i w) /\
    JSON_parse text = Some (VObj (obj_delete k ps)) /\
    obj_has k (obj_delete k ps) = false.
Proof.
  intros Hst Hq Hd Hs Hh Hk _.
  exists (JSON_stringify (VObj (obj_delete k ps))). split; [|split].
  - fold (set_atom c k VDefault w).
    rewrite (set_on_mapping c async k VDefault w i ps Hst Hq Hd Hs).
    + unfold next_props. simpl. now rewrite Hk.
    + now apply test_throws_plain.
    + apply (next_props_accepted c k VDefault i); [exact Hs|].
      unfold apply_serialize. now destruct (c_serialize c).
  - rewrite JSON_parse_stringify. f_equal.
    apply JSONValues.json_props_jsonify, JSONValues.json_props_delete.
    now apply (snapshot_of_props i).
  - unfold obj_has. now rewrite JSONFacts.obj_get_delete_same.
Qed.

(** The second half: when the atom has no entry, the callback takes the
    other branch and stores the sentinel: what is written is the text of
    the snapshot with one more entry, which holds what the codec makes of
    the (serialised) sentinel. *)
Lemma reset_stores_sentinel_for_absent_key (c : closure) (async : bool)
  (k : string) (w : world) (i : item) (ps : props) :
  c_storage c = memoryStorage async ->
  queue w = [] ->
  delivers (getItem (c_storage c) (c_key c) (contents (c_backend c) w)) i ->
  snapshot_of i = VObj ps ->
  obj_has "hasOwnProperty" ps = false ->
  k <> "__proto__" ->
  obj_has k ps = false ->
  JSON.exact_numbers (VObj ps) = true ->
  exists text ps',
    drain (snd (onSet_callback c k VDefault w)) =
      after_write c text (after_read c i w) /\
    JSON_parse text = Some (VObj ps') /\
    obj_get k ps' = Some (JSON.jsonify (apply_serialize c VDefault)) /\
    forall k', k' <> k -> obj_get k' ps' = obj_get k' ps.
Proof.
  intros Hst Hq Hd Hs Hh Hp Hk _.
  assert (Hn : next_props c k VDefault ps =
               obj_set k (apply_serialize c VDefault) ps).
  { unfold next_props. simpl. rewrite Hk. now rewrite obj_assign_set. }
  destruct (obj_get_written (next_props c k VDefault ps)) as (ps' & Hp' & Hg).
  { apply next_props_distinct. now apply (snapshot_of_distinct i). }
  exists (JSON_stringify (VObj (next_props c k VDefault ps))), ps'.
  split; [|split; [exact Hp'|split]].
  - fold (set_atom c k VDefault w).
    apply (set_on_mapping c async k VDefault w i ps Hst Hq Hd Hs).
    + now apply test_throws_plain.
    + apply (next_props_accepted c k VDefault i); [exact Hs|].
      unfold apply_serialize. now destruct (c_serialize c).
  - rewrite Hg, Hn, JSONFacts.obj_get_set_same.
    now rewrite apply_serialize_defined.
  - intros k' Hne. rewrite Hg, Hn, JSONFacts.obj_get_set_other by congruence.
    destruct (obj_get k' ps) as [x|] eqn:E; [|reflexivity].
    destruct (JSONValues.json_props_get k' x ps (snapshot_of_props i ps Hs) E)
      as (-> & -> & _).
    reflexivity.
Qed.

(** C1 at the input where the code departs from it.  The storage holds
    [{"name":"a"}]; the atom [count], which has no entry, is reset.  The
    claim says that the blob is left unchanged and that no entry for [count]
    is created.  The callback writes a blob with a new entry for [count]:
    the sentinel, which [JSON.stringify] prints as an empty object. *)
Theorem reset_of_absent_key_adds_entry :
  let c := demo (memoryStorage false) None None in
  let w := stored "demo" (json "{'name':'a'}") in
  let w' := drain (snd (onSet_callback c "count" VDefault w)) in
  supplied w' (Some "demo") = Some (json "{'name':'a','count':{}}") /\
  trace w' =
    [GetItem Supplied (Some "demo");
     SetItem Supplied (Some "demo") (json "{'name':'a','count':{}}")].
Proof. split; reflexivity. Qed.

(** ** Failures of the storage *)

(** C5, as the specification states it, fails: when the promise returned by
    [getItem] rejects, the promise [persistAtom] derives from it with
    [then] rejects and has no handler. *)
Lemma rejected_read_is_unhandled :
  let c := demo rejectingStorage None None in
  trace (drain (snd (persistAtom (Persist c) "count" TriggerGet initial))) =
    [GetItem Supplied (Some "demo"); OnSet "count"; Unhandled InInit].
Proof. reflexivity. Qed.

(** C5, amended.  The one storage failure the effect handles is an
    exception thrown inside [setState], by [setItem] or by
    [JSON.stringify]: it is caught, logged, and [setState] returns
    normally.  Nothing else is handled.  A rejection of the promise
    [setItem] returns is unhandled, since [setState] drops the promise.  An
    exception thrown by [getItem] leaves [persistAtom] before anything is
    pushed or subscribed, and on the [onSet] path rejects the promise of
    the callback, which has no handler.  A rejection of the promise
    [getItem] returns is not handled: on the initialisation path the atom is
    subscribed, [setSelf] is not called and the derived promise rejects
    without a handler; on the [onSet] path nothing is written and the
    promise of the callback rejects. *)
Theorem storage_failures (c : closure) (node : string) (v state : value)
  (w : world) :
  queue w = [] ->
  let b := c_backend c in
  let k := c_key c in
  (state <> VUndefined ->
   fst (setState c state w) = Normal tt /\
   (JSON.stringify_throws state = true ->
    trace (snd (setState c state w)) = trace w ++ [ConsoleError]) /\
   (JSON.stringify_throws state = false ->
    (forall t, fst (setItem (c_storage c) k t (contents b w)) = SThrow) ->
    exists text,
      trace (snd (setState c state w)) =
        trace w ++ [SetItem b k text; ConsoleError]) /\
   (JSON.stringify_throws state = false ->
    (forall t,
       fst (setItem (c_storage c) k t (contents b w)) = SPromise Rejected) ->
    exists text,
      trace (snd (setState c state w)) =
        trace w ++ [SetItem b k text; Unhandled InSetItem])) /\
  (getItem (c_storage c) k (contents b w) = GThrow ->
   persistAtom (Persist c) node TriggerGet w =
     (Throw StorageError, add_event (GetItem b k) w) /\
   trace (drain (snd (onSet_callback c node v w))) =
     trace w ++ [GetItem b k; Unhandled InOnSet]) /\
  (getItem (c_storage c) k (contents b w) = GPromise Rejected ->
   trace (drain (snd (persistAtom (Persist c) node TriggerGet w))) =
     trace w ++ [GetItem b k; OnSet node; Unhandled InInit] /\
   trace (drain (snd (onSet_callback c node v w))) =
     trace w ++ [GetItem b k; Unhandled InOnSet]).
Proof.
  intros Hq b k. split; [|split].
  - intros Hs. rewrite (setState_eval c state w Hs). cbn [fst snd].
    split; [reflexivity|]. split; [|split].
    + now intros ->.
    + intros -> Ht. exists (JSON_stringify state).
      rewrite trace_after_setItem. fold b k. now rewrite Ht.
    + intros -> Ht. exists (JSON_stringify state).
      rewrite trace_after_setItem. fold b k. now rewrite Ht.
  - intros Hg. split.
    + rewrite persistAtom_eval, getState_eval. fold b k. now rewrite Hg.
    + rewrite onSet_callback_drain by exact Hq.
      unfold run_async, read, bind. rewrite getState_eval. fold b k.
      rewrite Hg. cbv zeta. cbn [fst snd trace add_event].
      now rewrite <- !List.app_assoc.
  - intros Hg. split.
    + rewrite persistAtom_eval, getState_eval. fold b k. rewrite Hg.
      cbv zeta.
      unfold drain. cbn [snd queue add_event enqueue]. rewrite Hq.
      cbn [app fold_left run_task run_async await lift bind fst snd].
      cbn [trace add_event with_queue enqueue].
      now rewrite <- !List.app_assoc.
    + rewrite onSet_callback_drain by exact Hq.
      unfold run_async, read, bind. rewrite getState_eval. fold b k.
      rewrite Hg. cbv zeta.
      cbn [await lift fst snd trace add_event].
      now rewrite <- !List.app_assoc.
Qed.

Lemma storage_failures_witness :
  let c := demo rejectingStorage None None in
  trace (drain (snd (persistAtom (Persist c) "count" TriggerGet initial))) =
    trace initial ++ [GetItem (c_backend c) (c_key c); OnSet "count";
                      Unhandled InInit] /\
  trace (drain (snd (onSet_callback c "count" (VNum 5) initial))) =
    trace initial ++ [GetItem (c_backend c) (c_key c); Unhandled InOnSet].
Proof.
  exact (proj2 (proj2 (storage_failures (demo rejectingStorage None None)
                         "count" (VNum 5) VNull initial eq_refl))
               eq_refl).
Defined.

(** A [setItem] that throws is caught. *)
Lemma thrown_write_is_caught :
  let c := demo throwingStorage None None in
  fst (setState c (VObj [("count", VNum 5)]) initial) = Normal tt /\
  trace (snd (setState c (VObj [("count", VNum 5)]) initial)) =
    [SetItem Supplied (Some "demo") (json "{'count':5}"); ConsoleError].
Proof. split; reflexivity. Qed.

(** The rejection of a promise that [setItem] returns has no handler. *)
Lemma rejected_write_is_unhandled :
  let c := demo rejectingStorage None None in
  fst (setState c (VObj [("count", VNum 5)]) initial) = Normal tt /\
  trace (snd (setState c (VObj [("count", VNum 5)]) initial)) =
    [SetItem Supplied (Some "demo") (json "{'count':5}");
     Unhandled InSetItem].
Proof. split; reflexivity. Qed.

(** ** Initialisation on a stored mapping *)

(** The trace of an initialisation that reads a mapping which does not hide
    [hasOwnProperty]: a value handed over at once is pushed before the
    subscription, a promised one after it. *)
Lemma init_atom_trace (c : closure) (node : string) (w : world) (i : item)
  (ps : props) :
  let r := getItem (c_storage c) (c_key c) (contents (c_backend c) w) in
  queue w = [] ->
  delivers r i ->
  snapshot_of i = VObj ps ->
  obj_has "hasOwnProperty" ps = false ->
  fst (persistAtom (Persist c) node TriggerGet w) = Normal tt /\
  queue (init_atom c node w) = [] /\
  trace (init_atom c node w) =
    trace w ++
    GetItem (c_backend c) (c_key c) ::
    match state_of r with
    | Now _ => (if malformed i then [ConsoleError] else []) ++
               entry_push c node ps ++ [OnSet node]
    | Later _ => OnSet node :: (if malformed i then [ConsoleError] else []) ++
                 entry_push c node ps
    end.
Proof.
  intros r Hq Hd Hs Hh. unfold init_atom. rewrite persistAtom_eval.
  destruct (getState_delivered c w i Hd) as (Hg & Hset & Haw).
  fold r in Hg, Hset, Haw. rewrite Hg. rewrite Hs in Haw.
  destruct (state_of r) as [s|p] eqn:Est.
  - simpl in Haw. subst s. cbn [then_is_function].
    rewrite push_stored_eval. cbn [hasOwnProperty get_property await_logs].
    rewrite Hh, andb_true_r. unfold entry_push, obj_has.
    destruct (obj_get node ps) as [x|]; cbn [fst snd].
    + split; [reflexivity|]. rewrite drain_quiet by
        (simpl; now rewrite queue_log_if).
      split; [simpl; now rewrite queue_log_if|].
      simpl. rewrite trace_log_if. simpl.
      now rewrite <- !List.app_assoc.
    + split; [reflexivity|]. rewrite drain_quiet by
        (simpl; now rewrite queue_log_if).
      split; [simpl; now rewrite queue_log_if|].
      simpl. rewrite trace_log_if. simpl.
      now rewrite <- !List.app_assoc.
  - cbn [fst snd]. split; [reflexivity|].
    rewrite (drain_one (InitThen c node p)) by
      (simpl; rewrite queue_log_if; simpl; now rewrite Hq).
    rewrite (run_InitThen c node p ps) by assumption.
    rewrite queue_add_events, queue_log_if, trace_add_events, trace_log_if.
    split; [reflexivity|]. simpl. rewrite trace_log_if. simpl.
    pose proof (delivered_logs r i p Hd Est) as Hl. simpl in Hl. rewrite Hl.
    destruct (malformed i); simpl;
      rewrite <- ?List.app_assoc; reflexivity.
Qed.

(** X1. An initialisation (trigger [get]) that reads a mapping without an
    entry named [hasOwnProperty], at once or through a fulfilled promise,
    returns normally, subscribes to the atom, and calls [setSelf] exactly
    once with the (deserialised) entry stored under the atom's key when the
    mapping has one, and not at all when it has none. *)
Theorem init_pushes_stored_entry (c : closure) (node : string) (w : world)
  (i : item) (ps : props) :
  queue w = [] ->
  delivers (getItem (c_storage c) (c_key c) (contents (c_backend c) w)) i ->
  snapshot_of i = VObj ps ->
  obj_has "hasOwnProperty" ps = false ->
  fst (persistAtom (Persist c) node TriggerGet w) = Normal tt /\
  setSelf_calls (trace (init_atom c node w)) =
    setSelf_calls (trace w) ++
    match obj_get node ps with
    | Some x => [SetSelf node (apply_deserialize c x)]
    | None => []
    end /\
  In (OnSet node) (trace (init_atom c node w)).
Proof.
  intros Hq Hd Hs Hh.
  destruct (init_atom_trace c node w i ps Hq Hd Hs Hh) as (Hn & _ & Ht).
  split; [exact Hn|]. split.
  - unfold init_atom. rewrite attach_setSelf_calls by exact Hq.
    rewrite (read_delivered c w i Hd). cbn [fst]. rewrite Hs.
    now rewrite init_push_mapping.
  - rewrite Ht. apply in_or_app. right. right.
    destruct (state_of _); [|now left].
    apply in_or_app. right. apply in_or_app. right. now left.
Qed.

Lemma init_pushes_stored_entry_witness :
  let c := demo (memoryStorage true) None (Some (fun x => VArr [x])) in
  let w := stored "demo" (json "{'count':5}") in
  fst (persistAtom (Persist c) "count" TriggerGet w) = Normal tt /\
  setSelf_calls (trace (init_atom c "count" w)) =
    setSelf_calls (trace w) ++ [SetSelf "count" (VArr [VNum 5])] /\
  In (OnSet "count") (trace (init_atom c "count" w)).
Proof.
  exact (init_pushes_stored_entry
           (demo (memoryStorage true) None (Some (fun x => VArr [x])))
           "count" (stored "demo" (json "{'count':5}"))
           (IString (json "{'count':5}")) [("count", VNum 5)]
           eq_refl eq_refl eq_refl eq_refl).
Defined.

(** An entry named [hasOwnProperty] hides the method the initialisation
    calls: the call throws before anything is pushed or subscribed. *)
Lemma init_on_hidden_method_throws :
  let c := demo (memoryStorage false) None None in
  let w := stored "demo" (json "{'hasOwnProperty':1,'count':5}") in
  persistAtom (Persist c) "count" TriggerGet w =
    (Throw TypeError, add_event (GetItem Supplied (Some "demo")) w).
Proof. reflexivity. Qed.

(** X2. An initialisation whose read throws, or hands over at once a text
    that parses to [null], throws after the call of [getItem]: nothing is
    pushed, and the [onSet] callback is never subscribed, so later changes
    of the atom are not persisted. *)
Theorem init_throws_without_subscribing (c : closure) (node : string)
  (w : world) :
  let r := getItem (c_storage c) (c_key c) (contents (c_backend c) w) in
  let w' := add_event (GetItem (c_backend c) (c_key c)) w in
  (r = GThrow ->
   persistAtom (Persist c) node TriggerGet w = (Throw StorageError, w')) /\
  (forall s,
     r = GItem (IString s) -> JSON_parse s = Some VNull ->
     persistAtom (Persist c) node TriggerGet w = (Throw TypeError, w')).
Proof.
  intros r w'. split.
  - intros Hr. rewrite persistAtom_eval, getState_eval. fold r.
    now rewrite Hr.
  - intros s Hr Hp. rewrite persistAtom_eval, getState_eval. fold r.
    rewrite Hr. cbn -[JSON_parse]. now rewrite Hp.
Qed.

Lemma init_throws_without_subscribing_witness :
  let c1 := demo {| getItem := fun _ _ => GThrow;
                    setItem := fun _ _ st => (SVoid, st) |} None None in
  let c2 := demo (memoryStorage false) None None in
  let w := stored "demo" "null" in
  persistAtom (Persist c1) "count" TriggerGet w =
    (Throw StorageError, add_event (GetItem Supplied (Some "demo")) w) /\
  persistAtom (Persist c2) "count" TriggerGet w =
    (Throw TypeError, add_event (GetItem Supplied (Some "demo")) w).
Proof.
  split.
  - exact (proj1 (init_throws_without_subscribing
                    (demo {| getItem := fun _ _ => GThrow;
                             setItem := fun _ _ st => (SVoid, st) |}
                          None None)
                    "count" (stored "demo" "null")) eq_refl).
  - exact (proj2 (init_throws_without_subscribing
                    (demo (memoryStorage false) None None)
                    "count" (stored "demo" "null")) "null" eq_refl eq_refl).
Defined.

(** ** A set, whatever the backend *)

Lemma test_throws_false (v : value) (ps : props) :
  (v = VDefault -> obj_has "hasOwnProperty" ps = false) ->
  test_throws v ps = false.
Proof.
  intros H. unfold test_throws. destruct v; try reflexivity.
  now rewrite H.
Qed.

(** X3. A set or reset that reads a mapping makes one call of [getItem]
    and then exactly one call of [setItem], with a text that parses to the
    whole updated mapping, on any backend.  The storage holds what
    [setItem] left there; a [setItem] that throws is logged, the rejection
    of a promise it returns is unhandled, and in every case the callback's
    own promise fulfils and nothing is left in the queue.  This assumes
    that the test of the callback does not throw (the reset sentinel does
    not meet a mapping with an entry named [hasOwnProperty]), that
    [JSON.stringify] accepts the value stored, and that the numbers of the
    updated mapping are integers a double holds exactly. *)
Theorem set_writes_whole_mapping_once (c : closure) (node : string)
  (v : value) (w : world) (i : item) (ps : props) :
  queue w = [] ->
  delivers (getItem (c_storage c) (c_key c) (contents (c_backend c) w)) i ->
  snapshot_of i = VObj ps ->
  (v = VDefault -> obj_has "hasOwnProperty" ps = false) ->
  JSON.stringify_throws (apply_serialize c v) = false ->
  JSON.exact_numbers (VObj (next_props c node v ps)) = true ->
  exists text,
    JSON_parse text = Some (JSON.jsonify (VObj (next_props c node v ps))) /\
    trace (set_atom c node v w) =
      trace w ++
      GetItem (c_backend c) (c_key c) ::
      (if malformed i then [ConsoleError] else []) ++
      SetItem (c_backend c) (c_key c) text ::
      write_outcome (fst (setItem (c_storage c) (c_key c) text
                            (contents (c_backend c) w))) /\
    contents (c_backend c) (set_atom c node v w) =
      snd (setItem (c_storage c) (c_key c) text (contents (c_backend c) w)) /\
    queue (set_atom c node v w) = [].
Proof.
  intros Hq Hd Hs Ht Hv _.
  rewrite (set_atom_mapping c node v w i ps Hq Hd Hs).
  rewrite after_set_writes;
    [|now apply test_throws_false|now apply (next_props_accepted c node v i)].
  exists (JSON_stringify (VObj (next_props c node v ps))).
  split; [apply JSON_parse_stringify|].
  rewrite trace_after_setItem, contents_after_setItem, queue_after_setItem.
  rewrite trace_after_read, contents_after_read, queue_after_read.
  split; [|split; [reflexivity|exact Hq]].
  rewrite <- !List.app_assoc. reflexivity.
Qed.

Lemma set_writes_whole_mapping_once_witness :
  let c := demo throwingStorage None None in
  exists text,
    JSON_parse text =
      Some (JSON.jsonify (VObj (next_props c "count" (VNum 5) []))) /\
    trace (set_atom c "count" (VNum 5) initial) =
      trace initial ++
      GetItem (c_backend c) (c_key c) ::
      (if malformed INull then [ConsoleError] else []) ++
      SetItem (c_backend c) (c_key c) text ::
      write_outcome (fst (setItem (c_storage c) (c_key c) text
                            (contents (c_backend c) initial))) /\
    contents (c_backend c) (set_atom c "count" (VNum 5) initial) =
      snd (setItem (c_storage c) (c_key c) text
             (contents (c_backend c) initial)) /\
    queue (set_atom c "count" (VNum 5) initial) = [].
Proof.
  apply (set_writes_whole_mapping_once (demo throwingStorage None None)
           "count" (VNum 5) initial INull []); reflexivity.
Defined.

(** The callback on a primitive snapshot: [null] throws at once, and on
    another primitive only the setter of [__proto__] does not throw. *)
Lemma onSet_body_null (c : closure) (node : string) (v : value) (w : world) :
  onSet_body c node v VNull w = (Throw TypeError, w).
Proof.
  unfold onSet_body, bind, lift. destruct (is_DefaultValue v); reflexivity.
Qed.

Lemma onSet_body_primitive (c : closure) (node : string) (v s : value)
  (w : world) :
  is_primitive s = true ->
  node <> "__proto__" ->
  onSet_body c node v s w = (Throw TypeError, w).
Proof.
  unfold onSet_body, bind, lift. intros Hp Hn.
  assert (En : String.eqb node "__proto__" = false)
    by (destruct (String.eqb_spec node "__proto__"); congruence).
  destruct s as [| |b|z|neg n f e|str|xs|ps| |z]; try discriminate;
    destruct (is_DefaultValue v);
    cbn [hasOwnProperty set_property delete_property ret];
    try destruct (indexed node (List.length (utf16 str)));
    rewrite ?En; reflexivity.
Qed.

Lemma primitive_not_malformed (i : item) :
  is_primitive (snapshot_of i) = true -> malformed i = false.
Proof.
  destruct i as [| |s]; try reflexivity. simpl.
  destruct (JSON_parse s); [reflexivity|discriminate].
Qed.

(** X4. A set or reset on an atom named otherwise than [__proto__] that
    reads a primitive (the stored text is the JSON text of [null], a
    boolean, a number or a string) writes nothing: the update of the
    snapshot throws, the callback's promise rejects without a handler, and
    the world is otherwise as the read left it.  On the snapshot [null]
    this holds for every name. *)
Theorem set_on_primitive_snapshot_is_lost (c : closure) (node : string)
  (v : value) (w : world) (i : item) :
  queue w = [] ->
  delivers (getItem (c_storage c) (c_key c) (contents (c_backend c) w)) i ->
  is_primitive (snapshot_of i) = true ->
  node <> "__proto__" \/ snapshot_of i = VNull ->
  set_atom c node v w =
  add_event (Unhandled InOnSet)
    (add_event (GetItem (c_backend c) (c_key c)) w).
Proof.
  intros Hq Hd Hp Hn. unfold set_atom.
  rewrite onSet_callback_drain by exact Hq.
  unfold run_async, bind at 1. rewrite (read_delivered c w i Hd).
  rewrite after_read_log, (primitive_not_malformed i Hp). cbn [log_if].
  destruct Hn as [Hn|Hn].
  - now rewrite onSet_body_primitive.
  - now rewrite Hn, onSet_body_null.
Qed.

Lemma set_on_primitive_snapshot_is_lost_witness :
  let c := demo (memoryStorage true) None None in
  let w := stored "demo" "5" in
  set_atom c "count" (VNum 6) w =
  add_event (Unhandled InOnSet)
    (add_event (GetItem (c_backend c) (c_key c)) w).
Proof.
  apply (set_on_primitive_snapshot_is_lost
           (demo (memoryStorage true) None None) "count" (VNum 6)
           (stored "demo" "5") (IString "5") eq_refl eq_refl eq_refl).
  left. discriminate.
Defined.

(** On an atom named [__proto__] the assignment reaches the setter of
    [Object.prototype], which ignores a primitive: the callback goes on and
    writes the primitive back. *)
Lemma proto_set_on_primitive_snapshot :
  let c := demo (memoryStorage false) None None in
  let w := stored "demo" "5" in
  trace (set_atom c "__proto__" (VNum 6) w) =
    [GetItem Supplied (Some "demo"); SetItem Supplied (Some "demo") "5"].
Proof. reflexivity. Qed.

(** ** Sets that overlap *)

(** X5. Two sets whose callbacks both start before either continues (the
    engine calls them one after the other, the microtask queue runs
    afterwards) both read the same snapshot, so the second write replaces
    the first: [setItem] is called twice, the storage ends with the
    snapshot updated by the second set alone, and a new entry of the
    first set is lost.  This assumes that neither test throws (no reset
    sentinel meets a mapping with an entry named [hasOwnProperty]) and that
    [JSON.stringify] accepts both values as they are stored. *)
Theorem overlapping_sets_lose_the_first (c : closure) (async : bool)
  (k1 k2 : string) (v1 v2 : value) (w : world) (i : item) (ps : props) :
  c_storage c = memoryStorage async ->
  queue w = [] ->
  delivers (getItem (c_storage c) (c_key c) (contents (c_backend c) w)) i ->
  snapshot_of i = VObj ps ->
  (v1 = VDefault \/ v2 = VDefault -> obj_has "hasOwnProperty" ps = false) ->
  JSON.stringify_throws (apply_serialize c v1) = false ->
  JSON.stringify_throws (apply_serialize c v2) = false ->
  let w' := drain (snd (onSet_callback c k2 v2
                          (snd (onSet_callback c k1 v1 w)))) in
  exists text1 text2 ps',
    filter is_SetItem (trace w') =
      filter is_SetItem (trace w) ++
      [SetItem (c_backend c) (c_key c) text1;
       SetItem (c_backend c) (c_key c) text2] /\
    contents (c_backend c) w' (c_key c) = Some text2 /\
    JSON_parse text2 = Some (VObj ps') /\
    forall k, k <> k2 -> obj_get k ps = None -> obj_get k ps' = None.
Proof.
  intros Hst Hq Hd Hs Ht Hv1 Hv2 w'.
  destruct (getState_delivered c w i Hd) as (Hg & Hset & Haw).
  rewrite Hs in Haw.
  set (r := getItem (c_storage c) (c_key c) (contents (c_backend c) w)) in *.
  set (wg := log_if _ ConsoleError _) in Hg.
  pose proof (onSet_callback_eval c k1 v1 w _ _ Hg) as H1.
  set (w1 := enqueue (SetResume c k1 v1 (state_of r)) wg) in *.
  assert (Hc1 : contents (c_backend c) w1 = contents (c_backend c) w).
  { unfold w1, wg.
    now rewrite contents_enqueue, contents_log_if, contents_add_event. }
  assert (Hd1 : delivers (getItem (c_storage c) (c_key c)
                            (contents (c_backend c) w1)) i)
    by (rewrite Hc1; exact Hd).
  destruct (getState_delivered c w1 i Hd1) as (Hg1 & _ & _).
  rewrite Hc1 in Hg1. fold r in Hg1.
  set (wg1 := log_if _ ConsoleError _) in Hg1.
  pose proof (onSet_callback_eval c k2 v2 w1 _ _ Hg1) as H2.
  unfold w'. rewrite H1. cbn [snd]. rewrite H2. cbn [snd].
  rewrite (drain_two (SetResume c k1 v1 (state_of r))
                     (SetResume c k2 v2 (state_of r))).
  2:{ simpl. unfold wg1. rewrite queue_log_if. simpl. unfold wg.
      rewrite queue_log_if. simpl. now rewrite Hq. }
  rewrite !(run_SetResume c _ _ (state_of r) ps) by assumption.
  rewrite !after_set_writes;
    try (apply test_throws_false; tauto);
    try (eapply next_props_accepted; eassumption).
  rewrite !(after_setItem_memory c async) by exact Hst.
  destruct (obj_get_written (next_props c k2 v2 ps)) as (ps' & Hp & Hg').
  { apply next_props_distinct. now apply (snapshot_of_distinct i). }
  exists (JSON_stringify (VObj (next_props c k1 v1 ps))),
         (JSON_stringify (VObj (next_props c k2 v2 ps))), ps'.
  split; [|split; [apply contents_after_write|split; [exact Hp|]]].
  - rewrite trace_after_write, trace_log_if, trace_after_write, trace_log_if.
    subst wg1 w1 wg.
    repeat (rewrite ?trace_log_if; cbn [trace with_queue add_event enqueue]).
    rewrite !filter_app. simpl.
    repeat match goal with
           | |- context [filter is_SetItem (if ?b then _ else _)] =>
               destruct b; simpl
           end; rewrite ?List.app_nil_r, <- ?List.app_assoc; reflexivity.
  - intros k Hne Hk.
    rewrite Hg', next_props_other by congruence. now rewrite Hk.
Qed.

Lemma overlapping_sets_lose_the_first_witness :
  let c := demo (memoryStorage true) None None in
  let w := stored "demo" (json "{'name':'a'}") in
  let w' := drain (snd (onSet_callback c "size" (VNum 2)
                          (snd (onSet_callback c "count" (VNum 5) w)))) in
  exists text1 text2 ps',
    filter is_SetItem (trace w') =
      filter is_SetItem (trace w) ++
      [SetItem (c_backend c) (c_key c) text1;
       SetItem (c_backend c) (c_key c) text2] /\
    contents (c_backend c) w' (c_key c) = Some text2 /\
    JSON_parse text2 = Some (VObj ps') /\
    forall k, k <> "size" -> obj_get k [("name", VStr "a")] = None ->
              obj_get k ps' = None.
Proof.
  apply (overlapping_sets_lose_the_first
           (demo (memoryStorage true) None None) true
           "count" "size" (VNum 5) (VNum 2)
           (stored "demo" (json "{'name':'a'}"))
           (IString (json "{'name':'a'}")) [("name", VStr "a")]);
    reflexivity.
Defined.

(** ** What a set leaves for later reads *)

(** After a set through a backend that keeps what it is given, the storage
    delivers a mapping again: the one it held, when the callback threw or
    [JSON.stringify] did, and the updated one as the codec returns it
    otherwise. *)
Lemma read_after_set (c : closure) (async : bool) (node : string) (v : value)
  (w : world) (i : item) (ps : props) :
  c_storage c = memoryStorage async ->
  queue w = [] ->
  delivers (getItem (c_storage c) (c_key c) (contents (c_backend c) w)) i ->
  snapshot_of i = VObj ps ->
  queue (set_atom c node v w) = [] /\
  setSelf_calls (trace (set_atom c node v w)) = setSelf_calls (trace w) /\
  exists i' ps',
    delivers (getItem (c_storage c) (c_key c)
                (contents (c_backend c) (set_atom c node v w))) i' /\
    snapshot_of i' = VObj ps' /\
    if test_throws v ps ||
       JSON.stringify_throws (VObj (next_props c node v ps))
    then ps' = ps
    else forall k,
        obj_get k ps' =
        match obj_get k (next_props c node v ps) with
        | Some x =>
            if JSON.is_undefined x then None else Some (JSON.jsonify x)
        | None => None
        end.
Proof.
  intros Hst Hq Hd Hs.
  destruct (test_throws v ps) eqn:Et;
    [|destruct (JSON.stringify_throws (VObj (next_props c node v ps))) eqn:Ej].
  - rewrite (set_atom_mapping c node v w i ps Hq Hd Hs).
    unfold after_set. rewrite Et. cbn [queue trace add_event orb].
    rewrite queue_after_read, setSelf_calls_app, setSelf_calls_after_read.
    split; [exact Hq|]. split; [apply List.app_nil_r|].
    exists i, ps. rewrite contents_add_event, contents_after_read. auto.
  - rewrite (set_atom_mapping c node v w i ps Hq Hd Hs).
    unfold after_set. rewrite Et, Ej. cbn [queue trace add_event orb].
    rewrite queue_after_read, setSelf_calls_app, setSelf_calls_after_read.
    split; [exact Hq|]. split; [apply List.app_nil_r|].
    exists i, ps. rewrite contents_add_event, contents_after_read. auto.
  - destruct (set_atom_leaves c async node v w i ps Hst Hq Hd Hs Et Ej)
      as (Hq1 & Hs1 & text & ps' & Hc & Hp & Hg).
    split; [exact Hq1|]. split; [exact Hs1|].
    exists (IString text), ps'. split; [|split].
    + now apply (memory_delivers c async).
    + simpl. now rewrite Hp.
    + exact Hg.
Qed.

(** X6. A set or reset of one atom leaves the entries of all other atoms
    as they were: a read after it finds, under every other key, exactly the
    value the read before it found.  This assumes that the numbers of the
    stored mapping are integers a double holds exactly. *)
Theorem set_keeps_other_entries (c : closure) (async : bool)
  (node : string) (v : value) (w : world) (i : item) (ps : props) :
  c_storage c = memoryStorage async ->
  queue w = [] ->
  delivers (getItem (c_storage c) (c_key c) (contents (c_backend c) w)) i ->
  snapshot_of i = VObj ps ->
  JSON.exact_numbers (VObj ps) = true ->
  exists ps',
    fst (read c (set_atom c node v w)) = Normal (Some (VObj ps')) /\
    forall k, k <> node -> obj_get k ps' = obj_get k ps.
Proof.
  intros Hst Hq Hd Hs _.
  destruct (read_after_set c async node v w i ps Hst Hq Hd Hs)
    as (_ & _ & i' & ps' & Hd' & Hs' & Hg).
  exists ps'. split; [now rewrite (read_delivered c _ i' Hd'), Hs'|].
  intros k Hne. destruct (_ || _); [now subst|].
  rewrite Hg, next_props_other by congruence.
  destruct (obj_get k ps) as [x|] eqn:E; [|reflexivity].
  destruct (JSONValues.json_props_get k x ps (snapshot_of_props i ps Hs) E)
    as (-> & -> & _).
  reflexivity.
Qed.

Lemma set_keeps_other_entries_witness :
  let c := demo (memoryStorage false) None None in
  let w := stored "demo" (json "{'name':'a','size':[1,2]}") in
  exists ps',
    fst (read c (set_atom c "count" (VNum 5) w)) = Normal (Some (VObj ps')) /\
    forall k, k <> "count" ->
      obj_get k ps' =
      obj_get k [("name", VStr "a"); ("size", VArr [VNum 1; VNum 2])].
Proof.
  exact (set_keeps_other_entries (demo (memoryStorage false) None None) false
           "count" (VNum 5)
           (stored "demo" (json "{'name':'a','size':[1,2]}"))
           (IString (json "{'name':'a','size':[1,2]}"))
           [("name", VStr "a"); ("size", VArr [VNum 1; VNum 2])]
           eq_refl eq_refl eq_refl eq_refl eq_refl).
Defined.

(** What the initialisation of the atom pushes after a set on it that
    reaches [setItem], when the mapping does not hide [hasOwnProperty] and
    the atom is not named so. *)
Lemma init_after_set (c : closure) (async : bool) (node : string) (v : value)
  (w : world) (i : item) (ps : props) :
  c_storage c = memoryStorage async ->
  queue w = [] ->
  delivers (getItem (c_storage c) (c_key c) (contents (c_backend c) w)) i ->
  snapshot_of i = VObj ps ->
  obj_has "hasOwnProperty" ps = false ->
  node <> "hasOwnProperty" ->
  JSON.stringify_throws (apply_serialize c v) = false ->
  setSelf_calls (trace (init_atom c node (set_atom c node v w))) =
  setSelf_calls (trace w) ++ written_push c node (next_props c node v ps).
Proof.
  intros Hst Hq Hd Hs Hh Hn Hv.
  destruct (set_atom_leaves c async node v w i ps Hst Hq Hd Hs)
    as (Hq1 & Hs1 & text & ps' & Hc & Hp & Hg).
  { now apply test_throws_plain. }
  { now apply (next_props_accepted c node v i). }
  unfold init_atom. rewrite attach_setSelf_calls by exact Hq1.
  rewrite (read_delivered c _ (IString text)
             (memory_delivers c async _ text Hst Hc)).
  cbn [fst snapshot_of]. rewrite Hp, Hs1, init_push_mapping. 
  - f_equal. unfold entry_push, written_push. rewrite Hg.
    destruct (obj_get node (next_props c node v ps)) as [x|]; [|reflexivity].
    destruct (JSON.is_undefined x); reflexivity.
  - apply (obj_has_written "hasOwnProperty" (next_props c node v ps));
      [exact Hg|].
    apply JSONFacts.obj_has_get. rewrite next_props_other by congruence.
    now apply JSONFacts.obj_has_get.
Qed.

(** X7. Without a serializer, a value that is set on an atom comes back on
    the next initialisation of that atom as the codec returns it, given to
    the deserializer if there is one; a value that is the parse of a JSON
    text comes back as it is.  This assumes that the value is neither
    [undefined] nor the reset sentinel, that [JSON.stringify] accepts it
    and that its numbers are integers a double holds exactly; that the atom
    is named neither [__proto__] nor [hasOwnProperty]; and that the mapping
    read has no entry named [hasOwnProperty]. *)
Theorem raw_value_round_trip (c : closure) (async : bool) (node : string)
  (v : value) (w : world) (i : item) (ps : props) :
  c_storage c = memoryStorage async ->
  c_serialize c = None ->
  queue w = [] ->
  delivers (getItem (c_storage c) (c_key c) (contents (c_backend c) w)) i ->
  snapshot_of i = VObj ps ->
  obj_has "hasOwnProperty" ps = false ->
  node <> "__proto__" -> node <> "hasOwnProperty" ->
  v <> VUndefined -> v <> VDefault ->
  JSON.stringify_throws v = false ->
  JSON.exact_numbers v = true ->
  setSelf_calls (trace (init_atom c node (set_atom c node v w))) =
    setSelf_calls (trace w) ++
    [SetSelf node (apply_deserialize c (JSON.jsonify v))] /\
  (forall s, JSON_parse s = Some v ->
     setSelf_calls (trace (init_atom c node (set_atom c node v w))) =
       setSelf_calls (trace w) ++ [SetSelf node (apply_deserialize c v)]).
Proof.
  intros Hst Hser Hq Hd Hs Hh Hn1 Hn2 Hu Hdv Hj _.
  assert (Hx : apply_serialize c v = v)
    by (unfold apply_serialize; now rewrite Hser).
  assert (H : setSelf_calls (trace (init_atom c node (set_atom c node v w))) =
              setSelf_calls (trace w) ++
              [SetSelf node (apply_deserialize c (JSON.jsonify v))]).
  { rewrite (init_after_set c async node v w i ps Hst Hq Hd Hs Hh Hn2)
      by now rewrite Hx.
    f_equal. unfold written_push. rewrite next_props_set by assumption.
    rewrite JSONFacts.obj_get_set_same.
    rewrite apply_serialize_defined by exact Hu. now rewrite Hx. }
  split; [exact H|]. intros s Hp. rewrite H.
  destruct (JSON_parse_value s v Hp) as ((_ & -> & _) & _). reflexivity.
Qed.

Lemma raw_value_round_trip_witness :
  let c := demo (memoryStorage true) None None in
  let v := VObj [("id", VNum 7); ("tags", VArr [VStr "a"; VNull])] in
  let w := stored "demo" "{}" in
  setSelf_calls (trace (init_atom c "user" (set_atom c "user" v w))) =
    setSelf_calls (trace w) ++
    [SetSelf "user" (apply_deserialize c (JSON.jsonify v))] /\
  (forall s, JSON_parse s = Some v ->
     setSelf_calls (trace (init_atom c "user" (set_atom c "user" v w))) =
       setSelf_calls (trace w) ++ [SetSelf "user" (apply_deserialize c v)]).
Proof.
  apply (raw_value_round_trip (demo (memoryStorage true) None None) true
           "user" (VObj [("id", VNum 7); ("tags", VArr [VStr "a"; VNull])])
           (stored "demo" "{}") (IString "{}") []);
    try reflexivity; discriminate.
Defined.

(** X8. Without a serializer, a set of [undefined] on an atom removes the
    atom's entry from the stored mapping, whether it had one or not:
    [JSON.stringify] leaves the property out, and the next initialisation
    of the atom pushes nothing. *)
Theorem set_of_undefined_removes_entry (c : closure) (async : bool)
  (node : string) (w : world) (i : item) (ps : props) :
  c_storage c = memoryStorage async ->
  c_serialize c = None ->
  queue w = [] ->
  delivers (getItem (c_storage c) (c_key c) (contents (c_backend c) w)) i ->
  snapshot_of i = VObj ps ->
  (exists ps',
     fst (read c (set_atom c node VUndefined w)) = Normal (Some (VObj ps')) /\
     obj_get node ps' = None) /\
  setSelf_calls (trace (init_atom c node (set_atom c node VUndefined w))) =
    setSelf_calls (trace w).
Proof.
  intros Hst Hser Hq Hd Hs.
  assert (Hx : apply_serialize c VUndefined = VUndefined)
    by (unfold apply_serialize; now rewrite Hser).
  assert (Hn : match obj_get node (next_props c node VUndefined ps) with
               | Some x => if JSON.is_undefined x then None
                           else Some (JSON.jsonify x)
               | None => None
               end = None).
  { unfold next_props, obj_assign. cbn [is_DefaultValue andb]. rewrite Hx.
    destruct (String.eqb node "__proto__" && negb (obj_has node ps)) eqn:E.
    - apply andb_true_iff in E. destruct E as [_ E].
      apply negb_true_iff, JSONFacts.obj_has_get in E. now rewrite E.
    - now rewrite JSONFacts.obj_get_set_same. }
  destruct (read_after_set c async node VUndefined w i ps Hst Hq Hd Hs)
    as (Hq1 & Hs1 & i' & ps' & Hd' & Hs' & Hg).
  rewrite test_throws_value in Hg by discriminate.
  rewrite (next_props_accepted c node VUndefined i ps Hs) in Hg
    by now rewrite Hx.
  cbn [orb] in Hg.
  assert (Hnone : obj_get node ps' = None) by now rewrite Hg.
  split.
  - exists ps'. split; [|exact Hnone].
    now rewrite (read_delivered c _ i' Hd'), Hs'.
  - unfold init_atom. rewrite attach_setSelf_calls by exact Hq1.
    rewrite (read_delivered c _ i' Hd'). cbn [fst]. rewrite Hs', Hs1.
    destruct (obj_has "hasOwnProperty" ps') eqn:Eh.
    + rewrite init_push_hidden by exact Eh. apply List.app_nil_r.
    + rewrite init_push_mapping by exact Eh.
      unfold entry_push. rewrite Hnone. apply List.app_nil_r.
Qed.

Lemma set_of_undefined_removes_entry_witness :
  let c := demo (memoryStorage false) None None in
  let w := stored "demo" (json "{'count':5}") in
  (exists ps',
     fst (read c (set_atom c "count" VUndefined w)) =
       Normal (Some (VObj ps')) /\
     obj_get "count" ps' = None) /\
  setSelf_calls (trace (init_atom c "count" (set_atom c "count" VUndefined w)))
    = setSelf_calls (trace w).
Proof.
  exact (set_of_undefined_removes_entry
           (demo (memoryStorage false) None None) false "count"
           (stored "demo" (json "{'count':5}"))
           (IString (json "{'count':5}")) [("count", VNum 5)]
           eq_refl eq_refl eq_refl eq_refl eq_refl).
Defined.

(** X9. A reset of an atom that has a stored entry is undone by nothing:
    the next initialisation of the atom pushes no value, so the atom keeps
    its default.  A reset of an atom that has no stored entry stores the
    (serialised) sentinel, and the next initialisation pushes what the codec
    makes of it.  This assumes that the atom is named neither [__proto__]
    nor [hasOwnProperty] and that the mapping read has no entry named
    [hasOwnProperty]. *)
Theorem reset_then_init (c : closure) (async : bool) (node : string)
  (w : world) (i : item) (ps : props) :
  c_storage c = memoryStorage async ->
  queue w = [] ->
  delivers (getItem (c_storage c) (c_key c) (contents (c_backend c) w)) i ->
  snapshot_of i = VObj ps ->
  obj_has "hasOwnProperty" ps = false ->
  node <> "__proto__" -> node <> "hasOwnProperty" ->
  setSelf_calls (trace (init_atom c node (set_atom c node VDefault w))) =
  setSelf_calls (trace w) ++
  if obj_has node ps then []
  else [SetSelf node
          (apply_deserialize c (JSON.jsonify (apply_serialize c VDefault)))].
Proof.
  intros Hst Hq Hd Hs Hh Hn1 Hn2.
  assert (Hx : JSON.stringify_throws (apply_serialize c VDefault) = false)
    by (unfold apply_serialize; now destruct (c_serialize c)).
  rewrite (init_after_set c async node VDefault w i ps Hst Hq Hd Hs Hh Hn2 Hx).
  f_equal. unfold written_push, next_props. cbn [is_DefaultValue andb].
  destruct (obj_has node ps).
  - now rewrite JSONFacts.obj_get_delete_same.
  - rewrite obj_assign_set, JSONFacts.obj_get_set_same by exact Hn1.
    unfold apply_serialize. destruct (c_serialize c); reflexivity.
Qed.

Lemma reset_then_init_witness :
  let c := demo (memoryStorage true) None None in
  let w := stored "demo" (json "{'count':5}") in
  setSelf_calls (trace (init_atom c "count" (set_atom c "count" VDefault w))) =
  setSelf_calls (trace w) ++
  if obj_has "count" [("count", VNum 5)] then []
  else [SetSelf "count"
          (apply_deserialize c (JSON.jsonify (apply_serialize c VDefault)))].
Proof.
  apply (reset_then_init (demo (memoryStorage true) None None) true "count"
           (stored "demo" (json "{'count':5}"))
           (IString (json "{'count':5}")) [("count", VNum 5)]);
    try reflexivity; discriminate.
Defined.

(** X10. What [setState] writes through a backend that keeps it, a read
    gets back as the codec returns it; a snapshot that came out of
    [JSON.parse] is read back unchanged.  This assumes that
    [JSON.stringify] accepts the state and that its numbers are integers a
    double holds exactly. *)
Theorem write_then_read (c : closure) (async : bool) (state : value)
  (w : world) :
  c_storage c = memoryStorage async ->
  state <> VUndefined ->
  JSON.stringify_throws state = false ->
  JSON.exact_numbers state = true ->
  fst (read c (snd (setState c state w))) = Normal (Some (JSON.jsonify state))
  /\
  forall s, JSON_parse s = Some state ->
    fst (read c (snd (setState c state w))) = Normal (Some state).
Proof.
  intros Hst Hu Hj _.
  assert (H : fst (read c (snd (setState c state w))) =
              Normal (Some (JSON.jsonify state))).
  { rewrite (setState_eval c state w Hu), Hj. cbn [snd].
    rewrite (after_setItem_memory c async) by exact Hst.
    rewrite (read_delivered c _ (IString (JSON_stringify state))).
    2:{ apply (memory_delivers c async); [exact Hst|].
        apply contents_after_write. }
    cbn [fst snapshot_of]. now rewrite JSON_parse_stringify. }
  split; [exact H|]. intros s Hp. rewrite H.
  destruct (JSON_parse_value s state Hp) as ((_ & -> & _) & _). reflexivity.
Qed.

Lemma write_then_read_witness :
  let c := demo (memoryStorage true) None None in
  let state := VObj [("count", VNum 5)] in
  fst (read c (snd (setState c state initial))) =
    Normal (Some (JSON.jsonify state)) /\
  forall s, JSON_parse s = Some state ->
    fst (read c (snd (setState c state initial))) = Normal (Some state).
Proof.
  apply (write_then_read (demo (memoryStorage true) None None) true
           (VObj [("count", VNum 5)]) initial);
    try reflexivity; discriminate.
Defined.

(** ** Sessions on a backend that keeps what it is given *)

Lemma adds_refl (P : event -> Prop) (w : world) : adds P w w.
Proof. exists []. split; [now rewrite List.app_nil_r|constructor]. Qed.

Lemma adds_trans (P : event -> Prop) (w1 w2 w3 : world) :
  adds P w1 w2 -> adds P w2 w3 -> adds P w1 w3.
Proof.
  intros (e1 & H1 & F1) (e2 & H2 & F2). exists (e1 ++ e2). split.
  - now rewrite H2, H1, List.app_assoc.
  - apply Forall_app. now split.
Qed.

Lemma adds_by_trace (P : event -> Prop) (w w' : world) (evs : list event) :
  trace w' = trace w ++ evs -> Forall P evs -> adds P w w'.
Proof. intros H F. now exists evs. Qed.

Lemma adds_same (P : event -> Prop) (w w' : world) :
  trace w' = trace w -> adds P w w'.
Proof.
  intros H. exists []. split; [now rewrite List.app_nil_r|constructor].
Qed.

Lemma adds_event (P : event -> Prop) (e : event) (w0 w : world) :
  P e -> adds P w0 w -> adds P w0 (add_event e w).
Proof.
  intros H Ha. eapply adds_trans; [exact Ha|].
  exists [e]. split; [reflexivity|now constructor].
Qed.

Lemma adds_log_if (P : event -> Prop) (b : bool) (e : event) (w0 w : world) :
  P e -> adds P w0 w -> adds P w0 (log_if b e w).
Proof. intros H Ha. destruct b; [now apply adds_event|exact Ha]. Qed.

Lemma adds_events (P : event -> Prop) (evs : list event) (w0 w : world) :
  Forall P evs -> adds P w0 w -> adds P w0 (add_events evs w).
Proof.
  intros H Ha. eapply adds_trans; [exact Ha|].
  exists evs. split; [apply trace_add_events|exact H].
Qed.

Lemma adds_enqueue (P : event -> Prop) (t : task) (w0 w : world) :
  adds P w0 w -> adds P w0 (enqueue t w).
Proof. intros Ha. exact Ha. Qed.

Lemma adds_after_write (P : event -> Prop) (c : closure) (text : string)
  (w0 w : world) :
  P (SetItem (c_backend c) (c_key c) text) ->
  adds P w0 w -> adds P w0 (after_write c text w).
Proof.
  intros H Ha. eapply adds_trans; [exact Ha|].
  eapply adds_by_trace; [apply trace_after_write|]. now constructor.
Qed.

(** An invariant of the steps, with the events they add, is one of the
    sessions whose actions are all of the kind [Ok]. *)
Lemma run_invariant (Inv : world -> Prop) (P : event -> Prop)
  (Ok : action -> Prop) (eff : AtomEffect) :
  (forall a w, Ok a -> Inv w ->
               Inv (step eff a w) /\ adds P w (step eff a w)) ->
  forall actions w,
    Forall Ok actions ->
    Inv w -> Inv (run eff actions w) /\ adds P w (run eff actions w).
Proof.
  intros Hstep actions. unfold run.
  induction actions as [|a actions IH]; intros w Hok Hw; simpl.
  - split; [exact Hw|apply adds_refl].
  - inversion Hok as [|? ? Ha0 Hok']; subst.
    destruct (Hstep a w Ha0 Hw) as [Hi Ha].
    destruct (IH _ Hok' Hi) as [Hi' Ha'].
    split; [exact Hi'|]. eapply adds_trans; eassumption.
Qed.

(** The same for the tasks of the queue. *)
Lemma tasks_invariant (Inv : world -> Prop) (P : event -> Prop)
  (Good : task -> Prop) :
  (forall t w, Good t -> Inv w -> Inv (run_task t w) /\
                                  adds P w (run_task t w)) ->
  forall q w,
    Forall Good q -> Inv w ->
    Inv (fold_left (fun w t => run_task t w) q w) /\
    adds P w (fold_left (fun w t => run_task t w) q w).
Proof.
  intros Hstep q. induction q as [|t q IH]; intros w Hq Hw; simpl.
  - split; [exact Hw|apply adds_refl].
  - inversion Hq as [|? ? Ht Hq']; subst.
    destruct (Hstep t w Ht Hw) as [Hi Ha].
    destruct (IH _ Hq' Hi) as [Hi' Ha'].
    split; [exact Hi'|]. eapply adds_trans; eassumption.
Qed.

(** [JSON.parse (JSON.stringify ...)] creates no entry. *)
Lemma jsonify_fold_has (k : string) (ps acc : props) :
  obj_has k acc = false ->
  obj_has k ps = false ->
  obj_has k
    (fold_left
       (fun acc p =>
          match p with
          | (k', x) => if JSON.is_undefined x then acc
                       else obj_set k' (JSON.jsonify x) acc
          end) ps acc) = false.
Proof.
  revert acc. induction ps as [|[k' x] ps IH]; intros acc Ha Hp;
    [exact Ha|].
  apply JSONFacts.obj_has_get in Hp. simpl in Hp.
  destruct (String.eqb_spec k k') as [->|Hne]; [discriminate|].
  cbn [fold_left]. apply IH; [|now apply JSONFacts.obj_has_get].
  destruct (JSON.is_undefined x); [exact Ha|].
  apply JSONFacts.obj_has_get.
  rewrite JSONFacts.obj_get_set_other by congruence.
  now apply JSONFacts.obj_has_get.
Qed.

Lemma written_text_is_mapping (ps : props) :
  obj_has "hasOwnProperty" ps = false ->
  mapping_text (JSON_stringify (VObj ps)) = true.
Proof.
  intros H. unfold mapping_text. cbn [snapshot_of].
  rewrite JSON_parse_stringify. cbn [JSON.jsonify plain_mapping].
  now rewrite jsonify_fold_has.
Qed.

Lemma next_props_plain (c : closure) (node : string) (v : value)
  (ps : props) :
  node <> "hasOwnProperty" ->
  obj_has "hasOwnProperty" ps = false ->
  obj_has "hasOwnProperty" (next_props c node v ps) = false.
Proof.
  intros Hn H. apply JSONFacts.obj_has_get.
  rewrite next_props_other by congruence. now apply JSONFacts.obj_has_get.
Qed.

Lemma plain_mapping_props (v : value) :
  plain_mapping v = true ->
  exists ps, v = VObj ps /\ obj_has "hasOwnProperty" ps = false.
Proof.
  destruct v; try discriminate. simpl. intros H.
  eexists. split; [reflexivity|]. now apply negb_true_iff.
Qed.

(** Under [steady], the backend delivers a mapping. *)
Lemma steady_delivers (c : closure) (async : bool) (w : world) :
  c_storage c = memoryStorage async ->
  stored_mapping c async w ->
  exists i ps,
    delivers (getItem (c_storage c) (c_key c) (contents (c_backend c) w)) i /\
    snapshot_of i = VObj ps /\
    obj_has "hasOwnProperty" ps = false.
Proof.
  intros Hst H. unfold stored_mapping in H.
  destruct (contents (c_backend c) w (c_key c)) as [t|] eqn:E.
  - exists (IString t). unfold mapping_text in H.
    destruct (plain_mapping_props _ H) as (ps & Hs & Hh).
    exists ps. split; [|split; assumption].
    now apply (memory_delivers c async).
  - subst async. exists INull, []. split; [|split; reflexivity].
    rewrite Hst. simpl. now rewrite E.
Qed.

Lemma stored_mapping_same (c : closure) (async : bool) (w w' : world) :
  contents (c_backend c) w' = contents (c_backend c) w ->
  stored_mapping c async w -> stored_mapping c async w'.
Proof. unfold stored_mapping. now intros ->. Qed.

Lemma entry_push_calm (c : closure) (node : string) (ps : props) :
  Forall (fun e => is_failure e = false) (entry_push c node ps).
Proof.
  unfold entry_push. destruct (obj_get node ps); repeat constructor.
Qed.

(** A continuation that finds a mapping keeps the stored content a mapping
    and fails in no way. *)
Lemma steady_task_runs (c : closure) (async : bool) (t : task) (w : world) :
  c_storage c = memoryStorage async ->
  steady_task c t ->
  stored_mapping c async w ->
  stored_mapping c async (run_task t w) /\
  queue (run_task t w) = queue w /\
  adds (fun e => is_failure e = false) w (run_task t w).
Proof.
  intros Hst [Hc Ht] Hw. destruct t as [c' node p|c' node v state];
    simpl in Hc; subst c'.
  - destruct Ht as [Hset Hmap].
    destruct (plain_mapping_props _ Hmap) as (ps & Ea & Hh).
    rewrite (run_InitThen c node p ps w Hset Ea Hh).
    split; [|split].
    + eapply stored_mapping_same; [|exact Hw].
      now rewrite contents_add_events, contents_log_if.
    + now rewrite queue_add_events, queue_log_if.
    + apply adds_events; [apply entry_push_calm|].
      apply adds_log_if; [reflexivity|apply adds_refl].
  - destruct Ht as (Hset & Hmap & Hn).
    destruct (plain_mapping_props _ Hmap) as (ps & Ea & Hh).
    rewrite (run_SetResume c node v state ps w Hset Ea).
    unfold after_set. rewrite test_throws_plain by exact Hh.
    destruct (JSON.stringify_throws (VObj (next_props c node v ps))).
    + split; [|split].
      * eapply stored_mapping_same; [|exact Hw].
        now rewrite contents_add_event, contents_log_if.
      * cbn [queue add_event]. now rewrite queue_log_if.
      * apply adds_event; [reflexivity|].
        apply adds_log_if; [reflexivity|apply adds_refl].
    + rewrite (after_setItem_memory c async) by exact Hst.
      split; [|split].
      * unfold stored_mapping. rewrite contents_after_write.
        apply written_text_is_mapping. now apply next_props_plain.
      * now rewrite queue_after_write, queue_log_if.
      * apply adds_after_write; [reflexivity|].
        apply adds_log_if; [reflexivity|apply adds_refl].
Qed.

Lemma steady_drain (c : closure) (async : bool) (w : world) :
  c_storage c = memoryStorage async ->
  steady c async w ->
  steady c async (drain w) /\
  adds (fun e => is_failure e = false) w (drain w).
Proof.
  intros Hst [Hw Hq]. unfold drain.
  destruct (tasks_invariant
              (fun w => stored_mapping c async w /\ queue w = [])
              (fun e => is_failure e = false) (steady_task c)) with
    (q := queue w) (w := with_queue [] w) as [[Hs' Hq'] Ha].
  - intros t w0 Ht [Hs0 Hq0].
    destruct (steady_task_runs c async t w0 Hst Ht Hs0) as (H1 & H2 & H3).
    split; [split; [exact H1|congruence]|exact H3].
  - exact Hq.
  - split; [|reflexivity]. eapply stored_mapping_same; [|exact Hw].
    destruct (c_backend c); reflexivity.
  - split; [split; [exact Hs'|rewrite Hq'; constructor]|].
    eapply adds_trans; [|exact Ha]. now apply adds_same.
Qed.

Lemma steady_step (c : closure) (async : bool) (a : action) (w : world) :
  c_storage c = memoryStorage async ->
  plain_action a ->
  steady c async w ->
  steady c async (step (Persist c) a w) /\
  adds (fun e => is_failure e = false) w (step (Persist c) a w).
Proof.
  intros Hst Hpa Hw. destruct a as [node [|]|node v|].
  - (* an initialisation *)
    destruct Hw as [Hs Hq].
    destruct (steady_delivers c async w Hst Hs) as (i & ps & Hd & Hi & Hh).
    destruct (getState_delivered c w i Hd) as (Hg & Hset & Haw).
    rewrite Hi in Haw.
    set (r := getItem (c_storage c) (c_key c) (contents (c_backend c) w)) in *.
    set (wg := log_if _ ConsoleError _) in Hg.
    assert (Hcg : contents (c_backend c) wg = contents (c_backend c) w)
      by (unfold wg; now rewrite contents_log_if, contents_add_event).
    assert (Hqg : queue wg = queue w) by (unfold wg; now rewrite queue_log_if).
    assert (Hag : adds (fun e => is_failure e = false) w wg).
    { unfold wg. apply adds_log_if; [reflexivity|].
      apply adds_event; [reflexivity|apply adds_refl]. }
    cbn [step]. rewrite persistAtom_eval, Hg.
    destruct (state_of r) as [s|p] eqn:Est.
    + simpl in Haw. subst s. cbn [then_is_function].
      rewrite push_stored_eval. cbn [hasOwnProperty]. rewrite Hh.
      destruct (obj_has node ps); cbn [snd].
      * split; [split|].
        -- eapply stored_mapping_same; [|exact Hs].
           now rewrite !contents_add_event.
        -- cbn [queue add_event]. now rewrite Hqg.
        -- apply adds_event; [reflexivity|].
           apply adds_event; [reflexivity|exact Hag].
      * split; [split|].
        -- eapply stored_mapping_same; [|exact Hs].
           now rewrite !contents_add_event.
        -- cbn [queue add_event]. now rewrite Hqg.
        -- apply adds_event; [reflexivity|exact Hag].
    + cbn [snd]. split; [split|].
      * eapply stored_mapping_same; [|exact Hs].
        now rewrite contents_add_event, contents_enqueue.
      * cbn [queue add_event enqueue]. rewrite Hqg. apply Forall_app.
        split; [exact Hq|]. constructor; [|constructor].
        split; [reflexivity|]. split; [exact Hset|].
        rewrite Haw. cbn [plain_mapping]. now rewrite Hh.
      * apply adds_event; [reflexivity|]. apply adds_enqueue. exact Hag.
  - (* an attachment with another trigger *)
    destruct Hw as [Hs Hq]. cbn. split; [split|].
    + eapply stored_mapping_same; [|exact Hs]. apply contents_add_event.
    + exact Hq.
    + apply adds_event; [reflexivity|apply adds_refl].
  - (* the start of a set *)
    destruct Hw as [Hs Hq].
    destruct (steady_delivers c async w Hst Hs) as (i & ps & Hd & Hi & Hh).
    destruct (getState_delivered c w i Hd) as (Hg & Hset & Haw).
    rewrite Hi in Haw. cbn [step].
    rewrite (onSet_callback_eval c node v w _ _ Hg). cbn [snd].
    split; [split|].
    + eapply stored_mapping_same; [|exact Hs].
      now rewrite contents_enqueue, contents_log_if, contents_add_event.
    + cbn [queue enqueue]. rewrite queue_log_if. cbn [queue add_event].
      apply Forall_app. split; [exact Hq|]. constructor; [|constructor].
      split; [reflexivity|]. split; [exact Hset|].
      rewrite Haw. cbn [plain_mapping]. rewrite Hh. split; [reflexivity|].
      exact Hpa.
    + apply adds_enqueue. apply adds_log_if; [reflexivity|].
      apply adds_event; [reflexivity|apply adds_refl].
  - now apply steady_drain.
Qed.

(** X11. Let the backend keep what it is given and hold the text of a
    mapping without an entry named [hasOwnProperty], or a text that does
    not parse (a synchronous one may also hold nothing).  Then through
    every session of the effect in which no set or reset is on an atom
    named [hasOwnProperty], initialisations, sets, resets and runs of the
    microtask queue in any order, also with sets that overlap, the stored
    content stays one that is read as such a mapping, and no promise
    rejects without a handler. *)
Theorem steady_sessions (c : closure) (async : bool) (actions : list action)
  (w : world) :
  c_storage c = memoryStorage async ->
  Forall plain_action actions ->
  steady c async w ->
  steady c async (run (Persist c) actions w) /\
  exists evs,
    trace (run (Persist c) actions w) = trace w ++ evs /\
    Forall (fun e => is_failure e = false) evs.
Proof.
  intros Hst Hok Hw.
  apply (run_invariant (steady c async) (fun e => is_failure e = false)
           plain_action); [|exact Hok|exact Hw].
  intros a w0 Ha Hw0. now apply steady_step.
Qed.

Lemma steady_sessions_witness :
  let c := demo (memoryStorage true) None None in
  let w := stored "demo" "not-json" in
  let actions := [External "count" (VNum 5); External "size" VDefault;
                  Attach "count" TriggerGet; Drain;
                  External "big" (VBigInt 1);
                  Attach "size" TriggerGet; Drain] in
  steady c true (run (Persist c) actions w) /\
  exists evs,
    trace (run (Persist c) actions w) = trace w ++ evs /\
    Forall (fun e => is_failure e = false) evs.
Proof.
  apply (steady_sessions (demo (memoryStorage true) None None) true
           [External "count" (VNum 5); External "size" VDefault;
            Attach "count" TriggerGet; Drain;
            External "big" (VBigInt 1);
            Attach "size" TriggerGet; Drain]
           (stored "demo" "not-json") eq_refl).
  - repeat constructor; discriminate.
  - split; [reflexivity|constructor].
Defined.

(** A session leaves the stable state when a set creates an entry named
    [hasOwnProperty]: the initialisation after it throws. *)
Lemma session_with_hidden_method_fails :
  let c := demo (memoryStorage true) None None in
  trace (run (Persist c)
           [External "hasOwnProperty" (VNum 1); Drain;
            Attach "count" TriggerGet; Drain] (stored "demo" "{}")) =
  [GetItem Supplied (Some "demo");
   SetItem Supplied (Some "demo") (json "{'hasOwnProperty':1}");
   GetItem Supplied (Some "demo"); OnSet "count"; Unhandled InInit].
Proof. reflexivity. Qed.


(** ** A promise fulfilled with [null] *)

Lemma barren_task_runs (c : closure) (t : task) (w : world) :
  barren_task c t ->
  exists o, run_task t w = add_event (Unhandled o) w.
Proof.
  intros [_ Ht]. destruct t as [c' node p|c' node v state]; subst.
  - exists InInit. unfold run_task, run_async, bind at 1.
    rewrite await_eval by reflexivity. cbn [awaited parsed await_logs
      malformed log_if]. now rewrite push_stored_eval.
  - exists InOnSet. unfold run_task, run_async, bind at 1.
    rewrite await_eval by reflexivity. cbn [awaited parsed await_logs
      malformed log_if].
    now rewrite onSet_body_null.
Qed.

Lemma barren_step (c : closure) (st : store) (a : action) (w : world) :
  barren c w /\ contents (c_backend c) w = st ->
  (barren c (step (Persist c) a w) /\
   contents (c_backend c) (step (Persist c) a w) = st) /\
  adds (fun e => is_idle e = true) w (step (Persist c) a w).
Proof.
  intros [[Hg Hq] Hc]. destruct a as [node [|]|node v|]; cbn [step].
  - rewrite persistAtom_eval, getState_eval, Hg. cbn [snd].
    split; [split; [split|]|].
    + now rewrite contents_add_event, contents_enqueue, contents_add_event.
    + cbn [queue add_event enqueue]. apply Forall_app.
      split; [exact Hq|]. repeat constructor.
    + now rewrite contents_add_event, contents_enqueue, contents_add_event.
    + apply adds_event; [reflexivity|]. apply adds_enqueue.
      apply adds_event; [reflexivity|apply adds_refl].
  - cbn. split; [split; [split|]|].
    + now rewrite contents_add_event.
    + exact Hq.
    + now rewrite contents_add_event.
    + apply adds_event; [reflexivity|apply adds_refl].
  - unfold onSet_callback. rewrite getState_eval, Hg. cbn [snd defer].
    split; [split; [split|]|].
    + now rewrite contents_enqueue, contents_add_event.
    + cbn [queue add_event enqueue]. apply Forall_app.
      split; [exact Hq|]. repeat constructor.
    + now rewrite contents_enqueue, contents_add_event.
    + apply adds_enqueue. apply adds_event; [reflexivity|apply adds_refl].
  - unfold drain.
    destruct (tasks_invariant
                (fun w => (getItem (c_storage c) (c_key c)
                             (contents (c_backend c) w) =
                           GPromise (Fulfilled INull) /\ queue w = []) /\
                          contents (c_backend c) w = st)
                (fun e => is_idle e = true) (barren_task c)) with
      (q := queue w) (w := with_queue [] w) as [[[Hg' Hq'] Hc'] Ha].
    + intros t w0 Ht [[Hg0 Hq0] Hc0].
      destruct (barren_task_runs c t w0 Ht) as (o & ->).
      rewrite contents_add_event. split; [now split|].
      apply adds_event; [reflexivity|apply adds_refl].
    + exact Hq.
    + split; [split; [|reflexivity]|].
      * replace (contents (c_backend c) (with_queue [] w))
          with (contents (c_backend c) w)
          by (destruct (c_backend c); reflexivity).
        exact Hg.
      * rewrite <- Hc. destruct (c_backend c); reflexivity.
    + split; [split; [split; [exact Hg'|rewrite Hq'; constructor]|exact Hc']|].
      eapply adds_trans; [|exact Ha]. now apply adds_same.
Qed.

(** X12. Let the backend answer the read of the configured key with a
    promise that fulfils with [null], as a promise-based backend does for a
    key that is not stored.  Then the effect never stores anything: through
    every session the backend's content is unchanged, [setItem] is never
    called and no value is pushed into an atom (the awaited [null] makes
    both continuations throw). *)
Theorem promised_null_never_persists (c : closure) (actions : list action)
  (w : world) :
  barren c w ->
  barren c (run (Persist c) actions w) /\
  contents (c_backend c) (run (Persist c) actions w) =
    contents (c_backend c) w /\
  exists evs,
    trace (run (Persist c) actions w) = trace w ++ evs /\
    Forall (fun e => is_idle e = true) evs.
Proof.
  intros Hw.
  destruct (run_invariant
              (fun w0 => barren c w0 /\
                         contents (c_backend c) w0 = contents (c_backend c) w)
              (fun e => is_idle e = true) (fun _ => True) (Persist c)) with
    (actions := actions) (w := w) as [[H1 H2] H3].
  - intros a w0 _ Hw0. now apply barren_step.
  - apply Forall_forall. tauto.
  - now split.
  - split; [exact H1|]. split; [exact H2|exact H3].
Qed.

Lemma promised_null_never_persists_witness :
  let c := demo (memoryStorage true) None None in
  let actions := [Attach "count" TriggerGet; Drain;
                  External "count" (VNum 5); Drain] in
  barren c (run (Persist c) actions initial) /\
  contents (c_backend c) (run (Persist c) actions initial) =
    contents (c_backend c) initial /\
  exists evs,
    trace (run (Persist c) actions initial) = trace initial ++ evs /\
    Forall (fun e => is_idle e = true) evs.
Proof.
  apply (promised_null_never_persists (demo (memoryStorage true) None None)
           [Attach "count" TriggerGet; Drain;
            External "count" (VNum 5); Drain] initial).
  split; [reflexivity|constructor].
Defined.

(** ** What an initialisation and a set never do *)

Lemma bind_keeps {X A B : Type} (g : world -> X) (m : M A) (f : A -> M B) :
  (forall w, g (snd (m w)) = g w) ->
  (forall a w, g (snd (f a w)) = g w) ->
  forall w, g (snd (bind m f w)) = g w.
Proof.
  intros Hm Hf w. unfold bind. specialize (Hm w).
  destruct (m w) as [[a|e|] w1]; simpl in *; [|assumption..].
  now rewrite Hf.
Qed.

Lemma run_async_keeps {X : Type} (g : world -> X) (o : origin) (m : M unit)
  (w : world) :
  (forall e w, is_failure e = true -> g (add_event e w) = g w) ->
  g (snd (m w)) = g w ->
  g (run_async o m w) = g w.
Proof.
  intros He Hm. unfold run_async.
  destruct (m w) as [[u|e|] w1]; simpl in *; [assumption|..];
    rewrite He; auto.
Qed.

Lemma written_add_event (e : event) (w : world) :
  is_SetItem e = false -> written (add_event e w) = written w.
Proof.
  intros H. unfold written. simpl. rewrite filter_app. simpl. rewrite H.
  now rewrite List.app_nil_r.
Qed.

Lemma written_log_if (b : bool) (e : event) (w : world) :
  is_SetItem e = false -> written (log_if b e w) = written w.
Proof. destruct b; [apply written_add_event|reflexivity]. Qed.

Lemma written_failure (e : event) (w : world) :
  is_failure e = true -> written (add_event e w) = written w.
Proof.
  intros H. apply written_add_event.
  destruct e; try discriminate; reflexivity.
Qed.

Lemma getState_written (c : closure) (w : world) :
  written (snd (getState c w)) = written w.
Proof.
  rewrite getState_eval.
  destruct (getItem _ _ _) as [[| |s]|p| |]; cbn [snd];
    rewrite ?written_log_if, ?written_add_event; reflexivity.
Qed.

Lemma await_written (state : snapshot) (w : world) :
  written (snd (await state w)) = written w.
Proof.
  destruct state as [v|[i| |]]; try reflexivity.
  unfold await, bind. rewrite parseState_eval. cbn [snd ret].
  now apply written_log_if.
Qed.

Lemma push_stored_written (c : closure) (node : string) (s : value)
  (w : world) :
  written (snd (push_stored c node s w)) = written w.
Proof.
  rewrite push_stored_eval.
  destruct (hasOwnProperty s node) as [[|]| |]; try reflexivity.
  now apply written_add_event.
Qed.

Lemma persistAtom_written (eff : AtomEffect) (node : string) (t : trigger)
  (w : world) :
  written (snd (persistAtom eff node t w)) = written w.
Proof.
  destruct eff as [|c]; [reflexivity|].
  destruct t; [|now apply written_add_event].
  rewrite persistAtom_eval. pose proof (getState_written c w) as Hg.
  destruct (getState c w) as [[[s|p]|e|] w1]; cbn [snd] in *;
    try assumption.
  - destruct (then_is_function s); try assumption.
    pose proof (push_stored_written c node s w1) as Hp.
    destruct (push_stored c node s w1) as [[u|e|] w2]; cbn [snd] in *;
      rewrite ?written_add_event by reflexivity; congruence.
  - now rewrite written_add_event by reflexivity.
Qed.

Lemma run_InitThen_written (c : closure) (node : string) (p : settled item)
  (w : world) :
  written (run_task (InitThen c node p) w) = written w.
Proof.
  unfold run_task. apply run_async_keeps; [apply written_failure|].
  apply (bind_keeps written); [apply await_written|].
  intros [s|] w0; [apply push_stored_written|reflexivity].
Qed.

(** The continuations an initialisation leaves in an empty queue. *)
Lemma persistAtom_queue (eff : AtomEffect) (node : string) (t : trigger)
  (w : world) :
  queue w = [] ->
  queue (snd (persistAtom eff node t w)) = [] \/
  exists c p, queue (snd (persistAtom eff node t w)) = [InitThen c node p].
Proof.
  intros Hq. destruct eff as [|c]; [now left|].
  destruct t; [|now left].
  rewrite persistAtom_eval. pose proof (getState_queue c w) as Hg.
  rewrite Hq in Hg.
  destruct (getState c w) as [[[s|p]|e|] w1]; cbn [snd] in *; auto.
  - left. destruct (then_is_function s); auto.
    pose proof (push_stored_queue c node s w1) as Hp.
    destruct (push_stored c node s w1) as [[u|e|] w2]; simpl in *;
      congruence.
  - right. exists c, p. simpl. now rewrite Hg.
Qed.

Lemma written_with_queue (q : list task) (w : world) :
  written (with_queue q w) = written w.
Proof. reflexivity. Qed.

(** X13. An attachment of the effect, with any trigger and on any backend,
    run to the end of the microtask queue, only reads: it never calls
    [setItem], it leaves both stores as they are, and it does not call the
    key function. *)
Theorem init_never_writes (eff : AtomEffect) (node : string) (t : trigger)
  (w : world) :
  queue w = [] ->
  let w' := drain (snd (persistAtom eff node t w)) in
  filter is_SetItem (trace w') = filter is_SetItem (trace w) /\
  supplied w' = supplied w /\ platform w' = platform w /\
  key_calls w' = key_calls w.
Proof.
  intros Hq w'.
  assert (H : written w' = written w).
  { unfold w'. rewrite <- (persistAtom_written eff node t w).
    destruct (persistAtom_queue eff node t w Hq) as [H0|(c & p & H1)].
    - now rewrite drain_quiet.
    - rewrite (drain_one _ _ H1), run_InitThen_written.
      apply written_with_queue. }
  unfold written in H. inversion H. auto.
Qed.

Lemma init_never_writes_witness :
  let eff := Persist (demo (memoryStorage true) None None) in
  let w := stored "demo" (json "{'count':5}") in
  let w' := drain (snd (persistAtom eff "count" TriggerGet w)) in
  filter is_SetItem (trace w') = filter is_SetItem (trace w) /\
  supplied w' = supplied w /\ platform w' = platform w /\
  key_calls w' = key_calls w.
Proof.
  exact (init_never_writes (Persist (demo (memoryStorage true) None None))
           "count" TriggerGet (stored "demo" (json "{'count':5}")) eq_refl).
Defined.

Lemma setState_setSelf (c : closure) (state : value) (w : world) :
  setSelf_calls (trace (snd (setState c state w))) = setSelf_calls (trace w).
Proof.
  unfold setState.
  destruct state;
    try (cbn [log snd]; rewrite setSelf_calls_add_event;
         apply List.app_nil_r);
    (destruct (JSON.stringify_throws _);
     [cbn [log snd]; rewrite setSelf_calls_add_event; apply List.app_nil_r|]);
    unfold bind, log, put_contents;
    destruct (setItem _ _ _ _) as [[|[[]| |]|] st]; cbn [snd ret];
    rewrite ?setSelf_calls_add_event, ?trace_with_contents;
    cbn [trace add_event]; rewrite ?setSelf_calls_app;
    cbn [setSelf_calls filter is_SetSelf]; rewrite ?List.app_nil_r;
    reflexivity.
Qed.

Lemma onSet_body_setSelf (c : closure) (node : string) (v s : value)
  (w : world) :
  setSelf_calls (trace (snd (onSet_body c node v s w))) =
  setSelf_calls (trace w).
Proof.
  unfold onSet_body.
  apply (bind_keeps (fun w => setSelf_calls (trace w))).
  - intros w0. destruct (is_DefaultValue v); reflexivity.
  - intros has w0.
    apply (bind_keeps (fun w => setSelf_calls (trace w))).
    + reflexivity.
    + intros s' w1. apply setState_setSelf.
Qed.

Lemma await_setSelf (state : snapshot) (w : world) :
  setSelf_calls (trace (snd (await state w))) = setSelf_calls (trace w).
Proof.
  destruct state as [v|[i| |]]; try reflexivity.
  unfold await, bind. rewrite parseState_eval. cbn [snd ret].
  now apply setSelf_calls_log_if.
Qed.

(** X14. A set or reset, on any backend and whatever the stored content,
    never calls [setSelf]: what is written to storage is not fed back into
    the atom. *)
Theorem set_never_calls_setSelf (c : closure) (node : string) (v : value)
  (w : world) :
  queue w = [] ->
  setSelf_calls (trace (set_atom c node v w)) = setSelf_calls (trace w).
Proof.
  intros Hq. unfold set_atom. rewrite onSet_callback_drain by exact Hq.
  rewrite run_async_setSelf.
  apply (bind_keeps (fun w => setSelf_calls (trace w))).
  - intros w0. unfold read.
    apply (bind_keeps (fun w => setSelf_calls (trace w)));
      [apply getState_setSelf|intros; apply await_setSelf].
  - intros [s|] w0; [apply onSet_body_setSelf|reflexivity].
Qed.

Lemma set_never_calls_setSelf_witness :
  let c := demo rejectingStorage None None in
  setSelf_calls (trace (set_atom c "count" (VNum 5) initial)) =
  setSelf_calls (trace initial).
Proof.
  exact (set_never_calls_setSelf (demo rejectingStorage None None)
           "count" (VNum 5) initial eq_refl).
Defined.

(** ** Construction without a storage option *)

(** X15. When a [window] exists and the configuration gives no storage,
    the construction takes the global [localStorage]: the effect reads and
    writes there and never touches another backend, and it keeps the
    serializer and deserializer of the settings (none, when the settings are
    omitted).  When no [localStorage] is bound either, the construction
    throws a [ReferenceError] before the key function is called. *)
Theorem storage_defaults_to_localStorage (env : environment)
  (config : option PersistConfiguration) (settings : option PersistSetting)
  (w : world) :
  window env = true ->
  match config with Some cfg => storage cfg = None | None => True end ->
  match localStorage env with
  | Some ls =>
      exists c w',
        recoilPersist env config settings w = (Normal (Persist c), w') /\
        c_backend c = Platform /\ c_storage c = ls /\
        c_serialize c =
          match settings with Some s => serialize s | None => None end /\
        c_deserialize c =
          match settings with Some s => deserialize s | None => None end /\
        forall actions w1,
          owned c w1 ->
          supplied (run (Persist c) actions w1) = supplied w1 /\
          exists evs,
            trace (run (Persist c) actions w1) = trace w1 ++ evs /\
            Forall (addressed Platform (c_key c)) evs
  | None => recoilPersist env config settings w = (Throw ReferenceError, w)
  end.
Proof.
  intros Hw Hcfg.
  assert (Hs : storage match config with
                       | Some c => c
                       | None => {| key := None; storage := None |}
                       end = None)
    by (destruct config; [exact Hcfg|reflexivity]).
  unfold recoilPersist. rewrite Hw. cbn [negb]. rewrite Hs.
  destruct (localStorage env) as [ls|]; [|reflexivity].
  unfold bind at 1, lift. cbn [fst snd].
  set (cfg := match config with
              | Some c => c
              | None => {| key := None; storage := None |}
              end).
  unfold bind, ret.
  destruct (getKey cfg w) as [[k|e|] w'] eqn:Ek;
    try (exfalso; unfold getKey, ret in Ek;
         destruct (key cfg) as [[s|f]|]; discriminate).
  eexists _, w'. split; [reflexivity|].
  split; [reflexivity|]. split; [reflexivity|].
  split; [destruct settings; reflexivity|].
  split; [destruct settings; reflexivity|].
  intros actions w1 Hown.
  match goal with
  | H : owned ?c w1 |- _ =>
      destruct (Frame.extends_run c actions w1 H) as [(evs & Ht & Ha) _ Ho _]
  end.
  cbn [c_backend other_backend contents c_key] in *.
  split; [exact Ho|]. exists evs. split; assumption.
Qed.

Lemma storage_defaults_to_localStorage_witness :
  (exists c w',
     recoilPersist browser None None initial = (Normal (Persist c), w') /\
     c_backend c = Platform /\ c_storage c = memoryStorage false /\
     c_serialize c = None /\ c_deserialize c = None /\
     forall actions w1,
       owned c w1 ->
       supplied (run (Persist c) actions w1) = supplied w1 /\
       exists evs,
         trace (run (Persist c) actions w1) = trace w1 ++ evs /\
         Forall (addressed Platform (c_key c)) evs) /\
  recoilPersist {| window := true; localStorage := None |}
    (Some {| key := Some (KeyFunction counter_key); storage := None |})
    None initial = (Throw ReferenceError, initial).
Proof.
  split.
  - exact (storage_defaults_to_localStorage browser None None initial
             eq_refl I).
  - exact (storage_defaults_to_localStorage
             {| window := true; localStorage := None |}
             (Some {| key := Some (KeyFunction counter_key);
                      storage := None |})
             None initial eq_refl eq_refl).
Defined.


(** ** Sets one after the other *)

(** X16. Two sets on different atoms, the second started after the first
    has run to its end, are both kept: a read after them finds the
    (serialised) value of each under its atom's key, as the codec returns
    it.  This assumes that neither atom is named [__proto__], that the
    values are neither [undefined] nor the reset sentinel, that
    [JSON.stringify] accepts them as they are stored, and that their
    numbers are integers a double holds exactly. *)
Theorem sets_in_turn_keep_both (c : closure) (async : bool)
  (k1 k2 : string) (v1 v2 : value) (w : world) (i : item) (ps : props) :
  c_storage c = memoryStorage async ->
  queue w = [] ->
  delivers (getItem (c_storage c) (c_key c) (contents (c_backend c) w)) i ->
  snapshot_of i = VObj ps ->
  k1 <> k2 -> k1 <> "__proto__" -> k2 <> "__proto__" ->
  v1 <> VUndefined -> v1 <> VDefault ->
  v2 <> VUndefined -> v2 <> VDefault ->
  JSON.stringify_throws (apply_serialize c v1) = false ->
  JSON.stringify_throws (apply_serialize c v2) = false ->
  JSON.exact_numbers (apply_serialize c v1) = true ->
  JSON.exact_numbers (apply_serialize c v2) = true ->
  exists ps',
    fst (read c (set_atom c k2 v2 (set_atom c k1 v1 w))) =
      Normal (Some (VObj ps')) /\
    obj_get k1 ps' = Some (JSON.jsonify (apply_serialize c v1)) /\
    obj_get k2 ps' = Some (JSON.jsonify (apply_serialize c v2)).
Proof.
  intros Hst Hq Hd Hs Hne Hp1 Hp2 Hu1 Hd1 Hu2 Hd2 Hj1 Hj2 _ _.
  destruct (read_after_set c async k1 v1 w i ps Hst Hq Hd Hs)
    as (Hq1 & _ & i1 & ps1 & Hdl1 & Hs1 & Hg1).
  rewrite test_throws_value, (next_props_accepted c k1 v1 i ps Hs Hj1) in Hg1
    by exact Hd1.
  cbn [orb] in Hg1.
  destruct (read_after_set c async k2 v2 _ i1 ps1 Hst Hq1 Hdl1 Hs1)
    as (_ & _ & i2 & ps2 & Hdl2 & Hs2 & Hg2).
  rewrite test_throws_value, (next_props_accepted c k2 v2 i1 ps1 Hs1 Hj2)
    in Hg2 by exact Hd2.
  cbn [orb] in Hg2.
  exists ps2. split; [now rewrite (read_delivered c _ i2 Hdl2), Hs2|].
  assert (H1 : obj_get k1 ps1 = Some (JSON.jsonify (apply_serialize c v1))).
  { rewrite Hg1, next_props_set, JSONFacts.obj_get_set_same by assumption.
    now rewrite apply_serialize_defined. }
  split.
  - rewrite Hg2, next_props_other, H1 by congruence.
    destruct (JSONValues.json_props_get k1 _ ps1
                (snapshot_of_props i1 ps1 Hs1) H1) as (-> & -> & _).
    reflexivity.
  - rewrite Hg2, next_props_set, JSONFacts.obj_get_set_same by assumption.
    now rewrite apply_serialize_defined.
Qed.

Lemma sets_in_turn_keep_both_witness :
  let c := demo (memoryStorage true) None None in
  let w := stored "demo" (json "{'name':'a'}") in
  exists ps',
    fst (read c (set_atom c "size" (VNum 2) (set_atom c "count" (VNum 5) w)))
      = Normal (Some (VObj ps')) /\
    obj_get "count" ps' = Some (JSON.jsonify (apply_serialize c (VNum 5))) /\
    obj_get "size" ps' = Some (JSON.jsonify (apply_serialize c (VNum 2))).
Proof.
  apply (sets_in_turn_keep_both (demo (memoryStorage true) None None) true
           "count" "size" (VNum 5) (VNum 2)
           (stored "demo" (json "{'name':'a'}"))
           (IString (json "{'name':'a'}")) [("name", VStr "a")]);
    try reflexivity; discriminate.
Defined.
